(** * JSFace 2.0.1 (src/jsface.js): a shallow embedding and its properties

    The library lives in a JavaScript heap: classes are function objects,
    member tables are the property tables of those objects and of their
    [prototype] objects, and user code is called back at several points.
    The embedding keeps that shape.

    - A value is a primitive or a reference into a heap of objects.  A
      function value also carries its code, which JavaScript never lets a
      program change; its properties live in the heap like anyone else's.
    - An object is a [[Prototype]] link plus its own properties in
      insertion order, each with its enumerable flag.  The link is set
      when the object is created, so it points to an older object.  An
      array is an object with index keys and a non-enumerable numeric
      [length], which is all [isArray] looks at.
    - Functions written by the library's user are an oracle [host]: a total
      state transformer that returns or throws.  Every call the library
      makes is logged in a ghost trace together with its outcome.
    - Numbers are the naturals (lengths, indices, the counter of the ready
      plug-in) and [Infinity].  Accessors, symbols, frozen objects and the
      members of primitive wrappers are outside the model; the heap a
      theorem starts from is arbitrary, so [Object.prototype] and friends
      hold whatever members it gives them.  [hasOwnProperty],
      [propertyIsEnumerable], [charAt], [push], [call] and [apply] have
      their standard meaning.
    - A function has the own members [length] and [name]; these and
      [arguments] and [caller] cannot be assigned on a function: the
      library is not in strict mode, so such an assignment is dropped
      silently.
    - [for-in] takes the keys it finds when the loop starts, own keys
      first, then inherited ones that are not shadowed; on each object the
      integer-like keys come first, in ascending order, then the others in
      insertion order.  A key that is no longer an enumerable member of
      the collection when its turn comes is skipped.
    - [Class.plugins] is an object of the heap like any other: the table
      is read again at every declaration, and the plug-in the library
      ships, [$ready], is a function value stored there.
    - Unbounded behaviour (an array-like of length [Infinity], a cyclic
      nest of classes handed to [extend]) is cut by a [fuel] argument and
      reported as [Div]. *)

From Stdlib Require Import String Ascii List Arith Bool Lia DecimalString.
From stdpp Require Import base list.
Import ListNotations.
Local Open Scope string_scope.
Local Open Scope list_scope.

(** ** Values, objects, heap *)

Abbreviation loc := nat.

Inductive value : Type :=
| VUndef
| VNull
| VBool (b : bool)
| VNum (n : nat)
| VInf
| VStr (s : string)
| VObj (l : loc)
| VFun (l : loc) (c : code)
with code : Type :=
| CHost (id : nat)                    (* a function of the library's user *)
| CEmpty                              (* [function() {}], line 180 *)
| CSuper (child parent : value)       (* the closure of [makeSuper], line 95 *)
| CReady.                             (* the plug-in of line 193 *)

Record prop := Prop_ { p_val : value; p_enum : bool }.

Record obj := Obj { o_proto : value; o_props : list (string * prop) }.

Abbreviation heap := (list obj).

Record event := Event {
  ev_fn : value;
  ev_this : value;
  ev_args : list value;
  ev_res : option value          (* [Some r]: returned r; [None]: threw *)
}.

Record state := State {
  st_heap : heap;
  st_ready : list (value * value);     (* readyFns, line 16 *)
  st_trace : list event                (* ghost: calls made by the library *)
}.

Inductive exn : Type :=
| TypeError
| Thrown (v : value).

Definition INVALID : string := "Invalid params".

Definition loc_of (v : value) : option loc :=
  match v with
  | VObj l | VFun l _ => Some l
  | _ => None
  end.

(** [a === b] *)
Definition strict_eq (a b : value) : bool :=
  match a, b with
  | VUndef, VUndef | VNull, VNull | VInf, VInf => true
  | VBool x, VBool y => Bool.eqb x y
  | VNum x, VNum y => Nat.eqb x y
  | VStr x, VStr y => String.eqb x y
  | VObj x, VObj y => Nat.eqb x y
  | VFun x _, VFun y _ => Nat.eqb x y
  | _, _ => false
  end.

Definition truthy (v : value) : bool :=
  match v with
  | VUndef | VNull => false
  | VBool b => b
  | VNum n => negb (Nat.eqb n 0)
  | VStr s => negb (String.eqb s "")
  | VInf | VObj _ | VFun _ _ => true
  end.

(** [typeof v === "number"] *)
Definition is_number (v : value) : bool :=
  match v with VNum _ | VInf => true | _ => false end.

Definition mem_key (k : string) (ks : list string) : bool :=
  existsb (String.eqb k) ks.

Fixpoint own (ps : list (string * prop)) (k : string) : option prop :=
  match ps with
  | [] => None
  | (k', p) :: r => if String.eqb k k' then Some p else own r k
  end.

(** [o[k] = v] on the object's own table: an existing key keeps its place
    and its flag, a new key is appended and enumerable. *)
Fixpoint put (ps : list (string * prop)) (k : string) (v : value)
  : list (string * prop) :=
  match ps with
  | [] => [(k, Prop_ v true)]
  | (k', p) :: r =>
      if String.eqb k k' then (k', Prop_ v (p_enum p)) :: r
      else (k', p) :: put r k v
  end.

(** Property lookup through the [[Prototype]] chain.  A prototype is an
    older object than the objects that inherit from it (the link is set
    when an object is created), so a chain from [l] has at most [l + 1]
    links; a link that does not point to an older object is a dead end. *)
Fixpoint get_chain (n : nat) (h : heap) (l : loc) (k : string) : value :=
  match n with
  | O => VUndef
  | S n' =>
      match h !! l with
      | None => VUndef
      | Some o =>
          match own (o_props o) k with
          | Some p => p_val p
          | None =>
              match loc_of (o_proto o) with
              | Some l' => if Nat.ltb l' l then get_chain n' h l' k
                           else VUndef
              | None => VUndef
              end
          end
      end
  end.

Definition lookup_prop (h : heap) (l : loc) (k : string) : value :=
  get_chain (S l) h l k.

Definition own_of (h : heap) (v : value) (k : string) : option prop :=
  match loc_of v with
  | Some l => match h !! l with Some o => own (o_props o) k | None => None end
  | None => None
  end.

(** [v.hasOwnProperty(k)] *)
Definition has_own (h : heap) (v : value) (k : string) : bool :=
  match own_of h v k with Some _ => true | None => false end.

(** [v.propertyIsEnumerable(k)] *)
Definition is_enumerable (h : heap) (v : value) (k : string) : bool :=
  match own_of h v k with Some p => p_enum p | None => false end.

Fixpoint own_enum_keys (ps : list (string * prop)) (seen : list string)
  : list string :=
  match ps with
  | [] => []
  | (k, p) :: r =>
      if mem_key k seen then own_enum_keys r seen
      else (if p_enum p then [k] else []) ++ own_enum_keys r (k :: seen)
  end.

(** Decimal spelling of an index, the key of [collection[i]]. *)
Definition nat_key (i : nat) : string :=
  NilZero.string_of_uint (Nat.to_uint i).

(** The index an integer-like key spells. *)
Definition index_of (k : string) : option nat :=
  match NilZero.uint_of_string k with
  | Some u => if String.eqb (nat_key (Nat.of_uint u)) k
              then Some (Nat.of_uint u) else None
  | None => None
  end.

Definition is_index (k : string) : bool :=
  match index_of k with Some _ => true | None => false end.

Fixpoint insert_index (k : string) (n : nat) (ks : list string)
  : list string :=
  match ks with
  | [] => [k]
  | k' :: r =>
      match index_of k' with
      | Some n' => if Nat.leb n n' then k :: ks
                   else k' :: insert_index k n r
      | None => k :: ks
      end
  end.

Fixpoint sort_indices (ks : list string) : list string :=
  match ks with
  | [] => []
  | k :: r =>
      match index_of k with
      | Some n => insert_index k n (sort_indices r)
      | None => sort_indices r
      end
  end.

(** The order in which the own keys of one object are enumerated:
    integer-like keys ascending, then the other keys as inserted. *)
Definition js_order (ks : list string) : list string :=
  sort_indices ks ++ List.filter (fun k => negb (is_index k)) ks.

(** The keys [for (item in o)] takes when the loop starts. *)
Fixpoint forin_chain (n : nat) (h : heap) (l : loc) (seen : list string)
  : list string :=
  match n with
  | O => []
  | S n' =>
      match h !! l with
      | None => []
      | Some o =>
          js_order (own_enum_keys (o_props o) seen) ++
          match loc_of (o_proto o) with
          | Some l' =>
              if Nat.ltb l' l
              then forin_chain n' h l' (map fst (o_props o) ++ seen)
              else []
          | None => []
          end
      end
  end.

Definition forin_keys (h : heap) (v : value) : list string :=
  match loc_of v with
  | Some l => forin_chain (S l) h l []
  | None => []
  end.

Definition charAt (s : string) (i : nat) : value :=
  match String.get i s with
  | Some c => VStr (String c EmptyString)
  | None => VStr ""
  end.

(** ** The monad of library code: state, exceptions, divergence *)

Inductive outcome (A : Type) : Type :=
| Ret (a : A) (s : state)
| Thr (e : exn) (s : state)
| Div.
Arguments Ret {A} a s.
Arguments Thr {A} e s.
Arguments Div {A}.

Definition M (A : Type) : Type := state -> outcome A.

Definition ret {A} (a : A) : M A := fun s => Ret a s.
Definition throw {A} (e : exn) : M A := fun s => Thr e s.
Definition diverge {A} : M A := fun _ => Div.
Definition bind {A B} (m : M A) (k : A -> M B) : M B :=
  fun s => match m s with
           | Ret a s' => k a s'
           | Thr e s' => Thr e s'
           | Div => Div
           end.
Definition gets {A} (f : state -> A) : M A := fun s => Ret (f s) s.

Notation "'let*' x ':=' m 'in' k" := (bind m (fun x => k))
  (at level 10, x pattern, m at level 100, k at level 200).
Notation "m ';;' k" := (bind m (fun _ => k))
  (at level 100, k at level 200, right associativity).

Definition with_heap (s : state) (h : heap) : state :=
  State h (st_ready s) (st_trace s).

(** [v[k]] *)
Definition get (v : value) (k : string) : M value :=
  match v with
  | VUndef | VNull => throw TypeError
  | VObj l | VFun l _ => gets (fun s => lookup_prop (st_heap s) l k)
  | VStr str =>
      ret (if String.eqb k "length" then VNum (String.length str) else VUndef)
  | _ => ret VUndef
  end.

Definition write (h : heap) (l : loc) (k : string) (x : value) : heap :=
  match h !! l with
  | Some o => <[ l := Obj (o_proto o) (put (o_props o) k x) ]> h
  | None => h
  end.

(** The members of a function that an assignment cannot change. *)
Definition read_only (v : value) (k : string) : bool :=
  match v with
  | VFun _ _ => mem_key k ["length"; "name"; "arguments"; "caller"]
  | _ => false
  end.

(** [v[k] = x], outside strict mode *)
Definition set (v : value) (k : string) (x : value) : M unit :=
  match v with
  | VUndef | VNull => throw TypeError
  | VObj l | VFun l _ =>
      if read_only v k then ret tt
      else fun s => Ret tt (with_heap s (write (st_heap s) l k x))
  | _ => ret tt
  end.

(** Built-in objects every heap starts with. *)
Definition ObjectPrototype : loc := 0.
Definition FunctionPrototype : loc := 1.
Definition ArrayPrototype : loc := 2.
Definition ClassFn : loc := 3.    (* holds [Class.plugins], [Class.overload] *)

Definition alloc (o : obj) : M loc :=
  fun s => Ret (length (st_heap s)) (with_heap s (st_heap s ++ [o])).

(** [{}] *)
Definition new_object : M value :=
  let* l := alloc (Obj (VObj ObjectPrototype) []) in ret (VObj l).

Fixpoint index_props (i : nat) (vs : list value) : list (string * prop) :=
  match vs with
  | [] => []
  | v :: r => (nat_key i, Prop_ v true) :: index_props (S i) r
  end.

(** [[v1, ..., vn]] *)
Definition new_array (vs : list value) : M value :=
  let* l := alloc (Obj (VObj ArrayPrototype)
                       (index_props 0 vs ++
                        [("length", Prop_ (VNum (length vs)) false)])) in
  ret (VObj l).

(** The object of a function: its [prototype] link and the members
    [length] and [name] every function has. *)
Definition function_object (p : loc) (arity : nat) (name : string) : obj :=
  Obj (VObj FunctionPrototype)
      [("prototype", Prop_ (VObj p) false);
       ("length", Prop_ (VNum arity) false);
       ("name", Prop_ (VStr name) false)].

(** The [prototype] a function is born with: its [constructor] points
    back. *)
Definition prototype_object (f : value) : obj :=
  Obj (VObj ObjectPrototype) [("constructor", Prop_ f false)].

(** An anonymous function expression without formal parameters: the
    function object and its fresh [prototype]. *)
Definition new_function (c : code) : M value :=
  fun s =>
    let l := length (st_heap s) in
    Ret (VFun l c)
        (with_heap s (st_heap s ++ [function_object (S l) 0 "";
                                    prototype_object (VFun l c)])).

(** ** Type predicates (lines 22-52) *)

Definition isMap (h : heap) (v : value) : bool :=
  match v with
  | VObj l =>
      negb (is_number (lookup_prop h l "length")
            && negb (is_enumerable h v "length"))
  | _ => false
  end.

Definition isArray (h : heap) (v : value) : bool :=
  match v with
  | VObj l =>
      is_number (lookup_prop h l "length")
      && negb (is_enumerable h v "length")
  | _ => false
  end.

Definition isFunction (v : value) : bool :=
  match v with VFun _ _ => true | _ => false end.

Definition isString (v : value) : bool :=
  match v with VStr _ => true | _ => false end.

Definition isClass (clazz : value) : M bool :=
  if isFunction clazz then
    let* p := get clazz "prototype" in
    let* c := get p "constructor" in
    ret (strict_eq clazz c)
  else ret false.

(** ** Iteration (lines 60-89)

    [each_with] is [each] applied to a closure of the library itself: the
    closure is a function of the monad, and the local variables it assigns
    ([name] in [makeSuper], [count] in the ready plug-in) are threaded as
    the accumulator [a].  The result array is fresh and reaches the heap
    only where the caller stores it, so it is returned as a list; [None]
    is the [undefined] of the early [return]. *)

Definition is_stop (r : value) : bool := strict_eq r VInf.

Section Loops.
Context {A : Type}.
Variable fn : value -> value -> value -> A -> M (value * A).

(** [for (i = 0; i < len; i++)], lines 77-81: [n] rounds are left; with
    [inf] the length is [Infinity] and [n] is the fuel. *)
Fixpoint index_loop (n : nat) (inf : bool) (i : nat) (collection : value)
    (a : A) (result : list value) : M (list value * A) :=
  match n with
  | O => if inf then diverge else ret (result, a)
  | S n' =>
      let* v := match collection with
                | VStr str => ret (charAt str i)
                | _ => get collection (nat_key i)
                end in
      let* (r, a') := fn v (VNum i) collection a in
      if is_stop r then ret (result, a')
      else index_loop n' inf (S i) collection a' (result ++ [r])
  end.

(** [for (item in collection)], lines 83-86: [keys] are the keys taken
    when the loop started that are still to come. *)
Fixpoint key_loop (keys : list string) (collection : value)
    (a : A) (result : list value) : M (list value * A) :=
  match keys with
  | [] => ret (result, a)
  | item :: rest =>
      let* h := gets st_heap in
      if negb (mem_key item (forin_keys h collection))
      then key_loop rest collection a result
      else
        let* v := get collection item in
        let* (r, a') := fn (VStr item) v collection a in
        if is_stop r then ret (result, a')
        else key_loop rest collection a' (result ++ [r])
  end.

Definition each_with (fuel : nat) (collection : value) (a : A)
  : M (option (list value) * A) :=
  if negb (truthy collection) then ret (None, a) else
  let* h := gets st_heap in
  let iString := isString collection in
  let iArray := isArray h collection || iString in
  let iMap := isMap h collection in
  let iFunction := isFunction collection in
  let* (collection, iArray) :=
    if negb iArray && negb iMap && negb iFunction
    then let* arr := new_array [collection] in ret (arr, true)
    else ret (collection, iArray) in
  if iArray then
    let* len := get collection "length" in
    let* (result, a') :=
      match len with
      | VNum n => index_loop n false 0 collection a []
      | VInf => index_loop fuel true 0 collection a []
      | _ => ret ([], a)
      end in
    ret (Some result, a')
  else
    let* h := gets st_heap in
    let* (result, a') :=
      key_loop (forin_keys h collection) collection a [] in
    ret (Some result, a').
End Loops.

(** ** The super dispatcher (lines 94-127) *)

(** The property key a value turns into in [pa[name]]. *)
Definition to_key (v : value) : string :=
  match v with
  | VStr s => s
  | VUndef => "undefined"
  | VNull => "null"
  | VBool true => "true"
  | VBool false => "false"
  | VNum n => nat_key n
  | VInf => "Infinity"
  | VObj _ => "[object Object]"
  | VFun _ _ => "function"
  end.

(** Lines 104-109. *)
Definition find_name (caller key fn _collection name : value)
  : M (value * value) :=
  if strict_eq fn caller then ret (VInf, key) else ret (VUndef, name).

(** Lines 113-114: the member table of a parent, its [prototype] when
    the parent is a class, the parent itself when it is an instance. *)
Definition parent_scope (pa : value) : M value :=
  let* c := isClass pa in
  if c then get pa "prototype" else ret pa.

(** [while (len-- && !func)], lines 112-116. *)
Fixpoint search_parents (n : nat) (inf : bool) (parent name func pa : value)
  : M (value * value) :=
  match n with
  | O => if inf && negb (truthy func) then diverge else ret (func, pa)
  | S n' =>
      if truthy func then ret (func, pa) else
      let* pa := get parent (if inf then "Infinity" else nat_key n') in
      let* pa := parent_scope pa in
      let* f := get pa (to_key name) in
      search_parents n' inf parent name (if truthy f then f else VNum 0) pa
  end.

(** Lines 101-102: the caller is the constructor. *)
Definition target_of_constructor (parent this : value) : M value :=
  let* func := if truthy parent then get parent "0" else ret (VNum 0) in
  let* c := isClass func in
  (if c then
     let* fp := get func "prototype" in
     let* d := get fp "$super" in
     set this "$super" d
   else ret tt) ;;
  ret func.

(** Lines 104-118: the caller is a method. *)
Definition target_of_method (fuel : nat) (child parent this caller : value)
  : M value :=
  let* cp := get child "prototype" in
  let* (_, name) := each_with (find_name caller) fuel cp VUndef in
  let* len := get parent "length" in
  let* (func, pa) :=
    match len with
    | VNum n => search_parents n false parent name VUndef VUndef
    | VInf => search_parents fuel true parent name VUndef VUndef
    | _ => ret (VUndef, VUndef)
    end in
  (if isFunction func then
     let* d := get pa "$super" in
     set this "$super" d
   else ret tt) ;;
  ret func.

Section Dispatch.
(** [func.apply(this, arguments)] *)
Variable apply : value -> value -> list value -> M value.

(** Lines 95-126. *)
Definition super_body (fuel : nat) (child parent this caller : value)
    (args : list value) : M value :=
  let* supez := get this "$super" in
  let* cp := get child "prototype" in
  let* ctor := get cp "constructor" in
  let* func :=
    if strict_eq caller ctor then target_of_constructor parent this
    else if truthy parent
         then target_of_method fuel child parent this caller
         else ret VUndef in
  if isFunction func then
    let* result := apply func this args in
    set this "$super" supez ;;
    ret result
  else ret VUndef.
End Dispatch.

(** ** Calls, [each], [extend], [makeSuper], the ready plug-in, [Class] *)

Definition with_trace (s : state) (t : list event) : state :=
  State (st_heap s) (st_ready s) t.

(** The caller seen by a function the library calls from [each], [Class]
    or the plug-in: a library function, which no heap object stands for. *)
Definition lib_caller : value := VNull.

(** The [Class] function object; only its properties are modelled. *)
Definition ClassObj : value := VObj ClassFn.

Definition default_ignored : list string :=
  ["constructor"; "$super"; "prototype"].

Definition class_ignored : list string :=
  ["constructor"; "$singleton"; "$statics"; "prototype"].

(** [count++ >= len], line 203. *)
Definition count_ge (count : nat) (len : value) : bool :=
  match len with
  | VNum n => Nat.leb n count
  | _ => false
  end.

Definition push_ready (entry : value * value) : M unit :=
  fun s => Ret tt (State (st_heap s) (st_ready s ++ [entry]) (st_trace s)).

Section ReadyPlugin.
(** [f.call(this, args...)] issued by the plug-in. *)
Variable apply : value -> value -> list value -> M value.

(** Lines 199-204; [entry] is [readyFns[i]], absent when out of range. *)
Definition ready_inner_with (clazz api parent len : value)
    (entry : option (value * value)) (pa _i _collection : value)
    (count : nat) : M (value * nat) :=
  match entry with
  | None => throw TypeError
  | Some (e0, e1) =>
      (if strict_eq pa e0
       then apply e1 pa [clazz; api; parent] ;; ret tt
       else ret tt) ;;
      if count_ge count len then ret (VInf, S count)
      else ret (VUndef, S count)
  end.

(** Line 198: [each(readyFns, ...)] over the private registry; the
    callback returns the inner result, never [Infinity]. *)
Fixpoint ready_scan_with (fuel n i : nat) (clazz api parent len : value)
    (count : nat) : M nat :=
  match n with
  | O => ret count
  | S n' =>
      let* entries := gets st_ready in
      let* (_, count') :=
        each_with (ready_inner_with clazz api parent len (entries !! i))
          fuel parent count in
      ready_scan_with fuel n' (S i) clazz api parent len count'
  end.

(** Lines 193-211. *)
Definition plugin_ready_with (fuel : nat) (clazz parent api : value)
  : M unit :=
  let* r := get api "$ready" in
  let* len := if truthy parent then get parent "length"
              else ret (VNum 0) in
  let* n := gets (fun s => length (st_ready s)) in
  ready_scan_with fuel n 0 clazz api parent len 0 ;;
  if isFunction r then
    apply r clazz [clazz; api; parent] ;;
    push_ready (clazz, r)
  else ret tt.
End ReadyPlugin.

Section Library.
Variable host : nat -> value -> list value -> state -> outcome value.

(** A user function runs on everything but the ghost trace. *)
Definition run_host (id : nat) (this : value) (args : list value)
  : M value :=
  fun s => match host id this args s with
           | Ret r s' => Ret r (with_trace s' (st_trace s))
           | Thr e s' => Thr e (with_trace s' (st_trace s))
           | Div => Div
           end.

Definition logged (f this : value) (args : list value) (m : M value)
  : M value :=
  fun s => match m s with
           | Ret r s' =>
               Ret r (with_trace s'
                        (st_trace s' ++ [Event f this args (Some r)]))
           | Thr e s' =>
               Thr e (with_trace s'
                        (st_trace s' ++ [Event f this args None]))
           | Div => Div
           end.

(** [f.apply(this, args)] issued by [caller]. *)
Fixpoint call_fn (fuel : nat) (f this : value) (args : list value)
    (caller : value) : M value :=
  match f with
  | VFun _ (CHost id) => logged f this args (run_host id this args)
  | VFun _ CEmpty => logged f this args (ret VUndef)
  | VFun _ (CSuper child parent) =>
      match fuel with
      | O => diverge
      | S n =>
          logged f this args
            (super_body (fun g t a => call_fn n g t a f)
               n child parent this caller args)
      end
  | VFun _ CReady =>
      match fuel with
      | O => diverge
      | S n =>
          logged f this args
            (plugin_ready_with (fun g t a => call_fn n g t a lib_caller)
               n (nth 0 args VUndef) (nth 1 args VUndef)
               (nth 2 args VUndef) ;;
             ret VUndef)
      end
  | _ => throw TypeError
  end.

(** The plug-in of line 193 and its loops, run directly. *)
Definition ready_inner (fuel : nat) :=
  ready_inner_with (fun g t a => call_fn fuel g t a lib_caller).

Definition ready_scan (fuel : nat) :=
  ready_scan_with (fun g t a => call_fn fuel g t a lib_caller) fuel.

Definition plugin_ready (fuel : nat) :=
  plugin_ready_with (fun g t a => call_fn fuel g t a lib_caller) fuel.

(** The dispatcher of [child], called with receiver [this] by [caller]. *)
Definition dispatch (fuel : nat) (self child parent this caller : value)
    (args : list value) : M value :=
  super_body (fun g t a => call_fn fuel g t a self)
    fuel child parent this caller args.

(** The callback of [each]: [fn(a, b, collection)], line 79 or 84. *)
Definition each_cb (fuel : nat) (fn : value)
  : value -> value -> value -> unit -> M (value * unit) :=
  fun a b c _ =>
    let* r := call_fn fuel fn VUndef [a; b; c] lib_caller in
    ret (r, tt).

(** [each(collection, fn)] with a function value [fn]. *)
Definition each (fuel : nat) (collection fn : value)
  : M (option (list value)) :=
  if negb (truthy collection) || negb (truthy fn) then ret None else
  let* (result, _) := each_with (each_cb fuel fn) fuel collection tt in
  ret result.

(** Lines 144-149. *)
Definition copier (ignoredKeys : list string) (object oPrototype : value)
    (iClass : bool) (key val _collection : value) (_ : unit)
  : M (value * unit) :=
  if negb (mem_key (to_key key) ignoredKeys) then
    set object (to_key key) val ;;
    (if iClass then set oPrototype (to_key key) val else ret tt) ;;
    ret (VUndef, tt)
  else ret (VUndef, tt).

(** Lines 132-157.  [ignoredKeys] is the list of own keys of the object
    passed, [None] when the argument is absent. *)
Fixpoint extend (fuel : nat) (object subject : value)
    (ignoredKeys : option (list string)) : M unit :=
  match fuel with
  | O => diverge
  | S n =>
      let* h := gets st_heap in
      if isArray h subject then
        each_with (fun sub _ _ (_ : unit) =>
                     extend n object sub ignoredKeys ;; ret (VUndef, tt))
          n subject tt ;;
        ret tt
      else
        let ik := default default_ignored ignoredKeys in
        let* iClass := isClass object in
        let* isSubClass := isClass subject in
        let* oPrototype := get object "prototype" in
        let* h := gets st_heap in
        (if isMap h subject
         then each_with (copier ik object oPrototype iClass) n subject tt ;;
              ret tt
         else ret tt) ;;
        (if isSubClass
         then let* sp := get subject "prototype" in
              each_with (copier ik object oPrototype iClass) n sp tt ;;
              ret tt
         else ret tt) ;;
        (if iClass && isSubClass
         then let* sp := get subject "prototype" in
              extend n oPrototype sp (Some ik)
         else ret tt)
  end.

(** Lines 94-127: install the dispatcher. *)
Definition makeSuper (child parent : value) : M unit :=
  let* cp := get child "prototype" in
  let* f := new_function (CSuper child parent) in
  set cp "$super" f.

(** Lines 163-171: arguments sorted out, [api] resolved. *)
Definition resolve (fuel : nat) (parent api : value)
  : M (value * value) :=
  let (parent, api) :=
    if truthy api then (parent, api) else (VNum 0, parent) in
  let* api := if truthy api then ret api else new_object in
  let* h := gets st_heap in
  let* parent := if truthy parent && negb (isArray h parent)
                 then new_array [parent] else ret parent in
  let* api := if isFunction api
              then call_fn fuel api VUndef [] lib_caller else ret api in
  ret (parent, api).

(** Line 180. *)
Definition make_clazz (fuel : nat) (singleton constructor : value)
  : M value :=
  if truthy singleton then new_object
  else if truthy constructor then
    let* overload := get ClassObj "overload" in
    if truthy overload
    then call_fn fuel overload ClassObj
           [VStr "constructor"; constructor] lib_caller
    else ret constructor
  else new_function CEmpty.

(** Line 177: the callback that adds a key of [Class.plugins] to the
    ignored keys; the keys added so far are the accumulator. *)
Definition collect_key (key _value _collection : value)
    (keys : list string) : M (value * list string) :=
  ret (VUndef, keys ++ [to_key key]).

(** Lines 167 and 177: the ignored keys of a declaration. *)
Definition class_ignored_keys (fuel : nat) : M (list string) :=
  let* plugins := get ClassObj "plugins" in
  let* (_, keys) := each_with collect_key fuel plugins [] in
  ret (class_ignored ++ keys).

(** The callback of line 187: the plug-in [fn] is handed the class. *)
Definition plugin_cb (fuel : nat) (clazz parent api : value)
  : value -> value -> value -> unit -> M (value * unit) :=
  fun _name fn _ _ =>
    call_fn fuel fn VUndef [clazz; parent; api] lib_caller ;;
    ret (VUndef, tt).

(** Line 187: control passes to every plug-in of [Class.plugins]. *)
Definition run_plugins (fuel : nat) (clazz parent api : value) : M unit :=
  let* plugins := get ClassObj "plugins" in
  each_with (plugin_cb fuel clazz parent api) fuel plugins tt ;;
  ret tt.

(** Lines 182-184: parents first, then the api, then the statics. *)
Definition compose (fuel : nat) (clazz parent api statics : value)
    (singleton : bool) (ignoredKeys : list string) : M unit :=
  each_with (fun p _ _ (_ : unit) =>
               extend fuel clazz p (Some ignoredKeys) ;; ret (VUndef, tt))
    fuel parent tt ;;
  let* target := if singleton then ret clazz
                 else get clazz "prototype" in
  extend fuel target api (Some ignoredKeys) ;;
  extend fuel clazz statics (Some ignoredKeys).

(** Lines 180-188: the class is made, composed, given its dispatcher and
    handed to the plug-ins. *)
Definition assemble (fuel : nat) (parent api constructor singleton
    statics : value) (ignoredKeys : list string) : M value :=
  let* clazz := make_clazz fuel singleton constructor in
  compose fuel clazz parent api statics (truthy singleton) ignoredKeys ;;
  (if truthy singleton then ret tt else makeSuper clazz parent) ;;
  run_plugins fuel clazz parent api ;;
  ret clazz.

(** Lines 173-189: what [Class] does with a valid api. *)
Definition construct (fuel : nat) (parent api : value) : M value :=
  let* h := gets st_heap in
  let* constructor := if has_own h api "constructor"
                      then get api "constructor" else ret (VNum 0) in
  let* singleton := get api "$singleton" in
  let* statics := get api "$statics" in
  let* ignoredKeys := class_ignored_keys fuel in
  assemble fuel parent api constructor singleton statics ignoredKeys.

(** Lines 162-189. *)
Definition Class (fuel : nat) (parent api : value) : M value :=
  let* (parent, api) := resolve fuel parent api in
  let* h := gets st_heap in
  if negb (isMap h api) then throw (Thrown (VStr INVALID))
  else construct fuel parent api.
End Library.

(** ** Vocabulary of the statements *)

(** What a run of callbacks leaves in the trace: the calls [evs] of [fn],
    whose results are the collected values [rs], followed by the stop
    value when the run was cut short. *)
Definition collected (fn : value) (evs : list event) (rs : list value)
  : Prop :=
  Forall (fun e => ev_fn e = fn /\ ev_this e = VUndef) evs
  /\ Forall (fun r => r <> VInf) rs
  /\ (map ev_res evs = map Some rs
      \/ map ev_res evs = map Some rs ++ [Some VInf]).

(** The name the dispatcher recovers for [caller] from the member table
    [cp] (lines 104-109): the first key, in [for-in] order, whose value is
    the caller; [undefined] when there is none. *)
Fixpoint first_key (h : heap) (l : loc) (caller : value)
    (keys : list string) : option string :=
  match keys with
  | [] => None
  | k :: rest =>
      if strict_eq (lookup_prop h l k) caller then Some k
      else first_key h l caller rest
  end.

Definition method_name (h : heap) (cp caller : value) : value :=
  match cp with
  | VObj l =>
      match first_key h l caller (forin_keys h cp) with
      | Some k => VStr k
      | None => VUndef
      end
  | _ => VUndef
  end.

(** Parent number [i] of the list [parent]. *)
Definition parent_at (s : state) (parent : value) (i : nat) : value :=
  match loc_of parent with
  | Some l => lookup_prop (st_heap s) l (nat_key i)
  | None => VUndef
  end.

(** Parent [p] has nothing under [name]: its member table can be read and
    holds a falsy value there. *)
Definition lacks (s : state) (p : value) (name : string) : Prop :=
  exists pa g, parent_scope p s = Ret pa s /\ get pa name s = Ret g s
               /\ truthy g = false.

(** The dispatcher of a class with member table [cp] has no target for
    [caller]: the parent list is absent, or the caller is the constructor
    and the first parent is not a function, or the caller is a method and
    no parent has anything under its name. *)
Definition no_target (s : state) (cp parent caller : value) : Prop :=
  truthy parent = false
  \/ (exists ctor,
        get cp "constructor" s = Ret ctor s /\ strict_eq caller ctor = true
        /\ loc_of parent <> None
        /\ isFunction (parent_at s parent 0) = false)
  \/ (exists ctor n,
        get cp "constructor" s = Ret ctor s /\ strict_eq caller ctor = false
        /\ loc_of parent <> None
        /\ get parent "length" s = Ret (VNum n) s
        /\ forall i, i < n ->
             lacks s (parent_at s parent i)
               (to_key (method_name (st_heap s) cp caller))).

(** The own property [k] of the object at [l]. *)
Definition own_at (h : heap) (l : loc) (k : string) : option prop :=
  match h !! l with
  | Some o => own (o_props o) k
  | None => None
  end.

(** The objects a lookup from [l] goes through. *)
Fixpoint chain_locs (n : nat) (h : heap) (l : loc) : list loc :=
  match n with
  | O => []
  | S n' =>
      l :: match h !! l with
           | None => []
           | Some o =>
               match loc_of (o_proto o) with
               | Some l' => if Nat.ltb l' l then chain_locs n' h l' else []
               | None => []
               end
           end
  end.

Definition proto_chain (h : heap) (l : loc) : list loc :=
  chain_locs (S l) h l.

(** While members are composed onto the class at [c] whose [prototype] is
    the object at [p]: the heap [hc] the composition started from has only
    grown, its objects other than [c] and [p] are untouched, and the class
    still points to [p]. *)
Definition composing (hc : heap) (c p : loc) (e0 : bool) (s : state)
  : Prop :=
  length hc <= length (st_heap s)
  /\ (forall i, i < length hc -> i <> c -> i <> p ->
                st_heap s !! i = hc !! i)
  /\ own_at (st_heap s) c "prototype" = Some (Prop_ (VObj p) e0).

(** [okv I E m Q]: like [ok], and the value returned satisfies [Q]. *)
Definition okv {A} (I : state -> Prop) (E : exn -> Prop) (m : M A)
    (Q : A -> Prop) : Prop :=
  forall s, I s ->
            match m s with
            | Ret a s' => I s' /\ Q a
            | Thr e _ => E e
            | Div => True
            end.

(** The value [v] has been copied under [k] onto the object at [o], and,
    with [mirror], onto the object at [p] as well. *)
Definition copied_to (p : loc) (k : string) (v : value) (o : loc)
    (mirror : bool) (s : state) : Prop :=
  (exists e, own_at (st_heap s) o k = Some (Prop_ v e))
  /\ (mirror = true -> exists e, own_at (st_heap s) p k = Some (Prop_ v e)).

(** The object at [l] has the own property [k] with value [v]. *)
Definition holds (l : loc) (k : string) (v : value) (s : state) : Prop :=
  exists e, own_at (st_heap s) l k = Some (Prop_ v e).

(** No lookup from [l] goes through [c] or [p]. *)
Definition apart (h : heap) (l c p : loc) : Prop :=
  forall i, In i (proto_chain h l) -> i <> c /\ i <> p.

(** The constructor read at line 173. *)
Definition declared_constructor (h : heap) (a : loc) : value :=
  if has_own h (VObj a) "constructor" then lookup_prop h a "constructor"
  else VNum 0.

(** The statics [S] say nothing about [k]: there are none, or they are a
    map without the key. *)
Definition statics_silent (h : heap) (c p : loc) (S : value) (k : string)
  : Prop :=
  loc_of S = None
  \/ exists sl, S = VObj sl /\ sl < length h /\ isMap h S = true
                /\ apart h sl c p /\ ~ In k (forin_keys h S).

(** [clazz] is a class whose [prototype] is the object at [p]: a function
    to which the own [constructor] of [p] points back ([isClass], line
    51). *)
Definition class_with_prototype (h : heap) (clazz : value) (p : loc)
  : Prop :=
  isFunction clazz = true
  /\ exists cv e1, own_at h p "constructor" = Some (Prop_ cv e1)
                   /\ strict_eq clazz cv = true.

(** Every user function returns. *)
Definition host_returns
    (host : nat -> value -> list value -> state -> outcome value) : Prop :=
  forall id this args s, exists r s', host id this args s = Ret r s'.

(** [ok I E m]: run from a state that satisfies [I], the computation [m]
    returns in a state that satisfies [I] again, or throws an exception
    that satisfies [E], or diverges. *)
Definition ok {A} (I : state -> Prop) (E : exn -> Prop) (m : M A) : Prop :=
  forall s, I s ->
            match m s with
            | Ret _ s' => I s'
            | Thr e _ => E e
            | Div => True
            end.

(** The same for the user functions, which do not see the trace. *)
Definition host_ok (host : nat -> value -> list value -> state -> outcome value)
    (I : state -> Prop) (E : exn -> Prop) : Prop :=
  forall id this args s,
    I s ->
    match host id this args s with
    | Ret _ s' => I (with_trace s' (st_trace s))
    | Thr e _ => E e
    | Div => True
    end.

(** The trace of [s] continues [t0]. *)
Definition extends_trace (t0 : list event) (s : state) : Prop :=
  exists evs, st_trace s = t0 ++ evs.

(** ** Worlds to run the library in *)

(** [{k1: v1, ...}] *)
Definition new_map (kvs : list (string * value)) : M value :=
  let* l := alloc (Obj (VObj ObjectPrototype)
                       (map (fun kv => (fst kv, Prop_ (snd kv) true)) kvs)) in
  ret (VObj l).

(** The heap after the library is loaded: [Object.prototype],
    [Function.prototype], [Array.prototype], [Class] with the table
    [Class.plugins] of line 192 at 4, whose one member [$ready] is the
    function at 5 (its prototype at 6); the registry is empty. *)
Definition ready_plugin : value := VFun 5 CReady.

Definition init_state : state :=
  State [Obj VNull []; Obj (VObj ObjectPrototype) [];
         Obj (VObj ObjectPrototype) [];
         Obj (VObj FunctionPrototype) [("plugins", Prop_ (VObj 4) true)];
         Obj (VObj ObjectPrototype) [("$ready", Prop_ ready_plugin true)];
         function_object 6 3 "$ready";
         prototype_object ready_plugin]
        [] [].

(** User functions of the examples: 7 returns its first argument, 8
    returns [this.$super] as it finds it, every other one returns
    [undefined]. *)
Definition host_ex (id : nat) (this : value) (args : list value)
  : state -> outcome value :=
  fun s => match id, args with
           | 7, a :: _ => Ret a s
           | 8, _ => match get this "$super" s with
                     | Ret v _ => Ret v s
                     | _ => Ret VUndef s
                     end
           | _, _ => Ret VUndef s
           end.

Definition final {A} (o : outcome A) : state :=
  match o with
  | Ret _ s | Thr _ s => s
  | Div => init_state
  end.

(** [[1, Infinity, 3]] and the user function 7, in a fresh world. *)
Definition each_world : outcome (value * value) :=
  (let* arr := new_array [VNum 1; VInf; VNum 3] in
   let* f := new_function (CHost 7) in
   ret (arr, f)) init_state.

(** [[]], [{}] and the user function 7, in a fresh world. *)
Definition empty_world : outcome (value * value * value) :=
  (let* arr := new_array [] in
   let* m := new_map [] in
   let* f := new_function (CHost 7) in
   ret (arr, m, f)) init_state.

(** Two parents that both define [m], and a class derived from both:
    [P1 = Class({m: f1})], [P2 = Class({m: f2})], [C = Class([P1, P2], {})],
    and [c], an instance of [C].  [f1] and [f2] are the user functions 1
    and 7.  The heap puts [f1] at 7, [f2] at 9, [P1] at 12, [P2] at 17 (its
    prototype at 18), the parent list at 21, [C] at 23 (its prototype at
    24, its dispatcher at 25) and [c] at 27. *)
Definition diamond_world
  : outcome (value * value * value * value * value * value * value) :=
  (let* f1 := new_function (CHost 1) in
   let* f2 := new_function (CHost 7) in
   let* api1 := new_map [("m", f1)] in
   let* P1 := Class host_ex 3 api1 VUndef in
   let* api2 := new_map [("m", f2)] in
   let* P2 := Class host_ex 3 api2 VUndef in
   let* ps := new_array [P1; P2] in
   let* apiC := new_map [] in
   let* C := Class host_ex 3 ps apiC in
   let* cp := get C "prototype" in
   let* c := alloc (Obj cp []) in
   ret (f1, f2, P1, P2, ps, C, VObj c)) init_state.

Definition dw : state := final diamond_world.
Definition dw_f1 : value := VFun 7 (CHost 1).
Definition dw_f2 : value := VFun 9 (CHost 7).
Definition dw_parents : value := VObj 21.
Definition dw_C : value := VFun 23 CEmpty.
Definition dw_super : value := VFun 25 (CSuper dw_C dw_parents).
Definition dw_c : value := VObj 27.

(** A member that is not a function in the way of a method:
    [P1 = Class({m: f1})], [P2 = Class({m: 5})],
    [C = Class([P1, P2], {m: fm})] and [c], an instance of [C]; [f1] and
    [fm] are the user functions 1 and 7. *)
Definition shadow_world
  : outcome (value * value * value * value * value) :=
  (let* f1 := new_function (CHost 1) in
   let* fm := new_function (CHost 7) in
   let* api1 := new_map [("m", f1)] in
   let* P1 := Class host_ex 3 api1 VUndef in
   let* api2 := new_map [("m", VNum 5)] in
   let* P2 := Class host_ex 3 api2 VUndef in
   let* ps := new_array [P1; P2] in
   let* apiC := new_map [("m", fm)] in
   let* C := Class host_ex 3 ps apiC in
   let* cp := get C "prototype" in
   let* c := alloc (Obj cp []) in
   let* d := get cp "$super" in
   ret (fm, ps, C, d, VObj c)) init_state.

Definition hw : state := final shadow_world.

(** A built-in of the host: [define_hidden l k x] gives the object at
    [l] the member [x] under [k], not enumerable, the way
    [Object.prototype] has [toString]. *)
Definition define_hidden (l : loc) (k : string) (x : value) : M unit :=
  fun s =>
    Ret tt (with_heap s
              match st_heap s !! l with
              | Some o =>
                  <[ l := Obj (o_proto o) (o_props o ++ [(k, Prop_ x false)]) ]>
                    (st_heap s)
              | None => st_heap s
              end).

(** The user functions of [host_ex] and the built-in 9, which stands for
    [Object.prototype.toString] called on a plain object. *)
Definition host_builtin (id : nat) (this : value) (args : list value)
  : state -> outcome value :=
  fun s => match id with
           | 9 => Ret (VStr "[object Object]") s
           | _ => host_ex id this args s
           end.

(** A world whose [Object.prototype] has [toString], the built-in 9:
    [P = Class({})], [C = Class(P, {toString: f})] with [f] the user
    function 1, and [c], an instance of [C]. *)
Definition builtin_world
  : outcome (value * value * value * value * value * value) :=
  (let* ts := new_function (CHost 9) in
   define_hidden ObjectPrototype "toString" ts ;;
   let* f := new_function (CHost 1) in
   let* apiP := new_map [] in
   let* P := Class host_builtin 3 apiP VUndef in
   let* apiC := new_map [("toString", f)] in
   let* C := Class host_builtin 3 P apiC in
   let* cp := get C "prototype" in
   let* c := alloc (Obj cp []) in
   let* d := get cp "$super" in
   ret (ts, f, P, C, d, VObj c)) init_state.

Definition bw : state := final builtin_world.

(** A parent that is a function but not a class: [F] (user function 8)
    with [F.prototype = {}], [C = Class(F, {constructor: G})] and [c], an
    instance of [C]. *)
Definition plain_world : outcome (value * value * value * value) :=
  (let* F := new_function (CHost 8) in
   let* fp := new_map [] in
   set F "prototype" fp ;;
   let* G := new_function (CHost 1) in
   let* api := new_map [("constructor", G)] in
   let* C := Class host_ex 3 F api in
   let* cp := get C "prototype" in
   let* c := alloc (Obj cp []) in
   let* d := get cp "$super" in
   ret (F, C, d, VObj c)) init_state.

Definition pw : state := final plain_world.
Definition pw_F : value := VFun 7 (CHost 8).
Definition pw_C : value := VFun 10 (CHost 1).
Definition pw_parents : value := VObj 13.
Definition pw_super : value := VFun 14 (CSuper pw_C pw_parents).
Definition pw_c : value := VObj 16.

(** Two registered classes: [A = Class({$ready: fA})] and
    [B = Class({$ready: fB})], with the user functions 1 and 2 as
    callbacks, then the parent list [[A, B]] and an empty api. *)
Definition ready_world : outcome (value * value * value * value) :=
  (let* fA := new_function (CHost 1) in
   let* fB := new_function (CHost 2) in
   let* apiA := new_map [("$ready", fA)] in
   let* A := Class host_ex 3 apiA VUndef in
   let* apiB := new_map [("$ready", fB)] in
   let* B := Class host_ex 3 apiB VUndef in
   let* ps := new_array [A; B] in
   let* apiC := new_map [] in
   ret (A, B, ps, apiC)) init_state.

(** An api whose constructor is the number 5. *)
Definition badctor_world : outcome value :=
  new_map [("constructor", VNum 5)] init_state.

Definition rw : state := final ready_world.
Definition rw_fA : value := VFun 7 (CHost 1).
Definition rw_fB : value := VFun 9 (CHost 2).
Definition rw_A : value := VFun 12 CEmpty.
Definition rw_B : value := VFun 17 CEmpty.
Definition rw_parents : value := VObj 21.
Definition rw_api : value := VObj 22.

(** The events a run added to the trace of [s]. *)
Definition new_events {A} (s : state) (o : outcome A) : list event :=
  drop (length (st_trace s)) (st_trace (final o)).

(** The user function 1 at 7 and the api [{$ready: f}] at 9. *)
Definition ready1_world : outcome value :=
  (let* f := new_function (CHost 1) in
   new_map [("$ready", f)]) init_state.

(** Statics that share keys with the api:
    [{x: 1, prototype: 5, $statics: {x: 2, y: 4, prototype: 3}}]; the
    statics are at 7, the api at 8; the class built from it is at 9, its
    prototype at 10. *)
Definition statics_world : outcome value :=
  (let* st := new_map [("x", VNum 2); ("y", VNum 4); ("prototype", VNum 3)] in
   new_map [("x", VNum 1); ("prototype", VNum 5); ("$statics", st)])
    init_state.

(** Statics under the name of a read-only member of a function:
    [{$statics: {name: 5, y: 1}}]. *)
Definition named_world : outcome value :=
  (let* st := new_map [("name", VNum 5); ("y", VNum 1)] in
   new_map [("$statics", st)]) init_state.

(** A parent that defines [x]: [P = Class({x: 7})], then the api
    [{x: 1}] for a class derived from [P]. *)
Definition inherit_world : outcome (value * value) :=
  (let* apiP := new_map [("x", VNum 7)] in
   let* P := Class host_ex 3 apiP VUndef in
   let* api := new_map [("x", VNum 1)] in
   ret (P, api)) init_state.

Definition sw : state := final statics_world.
Definition sw_class : outcome value := Class host_ex 3 (VObj 8) VUndef sw.

Definition iw : state := final inherit_world.
Definition iw_P : value := VFun 8 CEmpty.
Definition iw_class : outcome value := Class host_ex 3 iw_P (VObj 12) iw.

(** [new C()] for a class without a constructor of its own: a fresh
    object that inherits from the prototype object at [p]; then the read
    of [k] on it. *)
Definition read_on_instance (p : loc) (k : string) : M value :=
  let* i := alloc (Obj (VObj p) []) in
  get (VObj i) k.

(** The plug-in table is the one the library ships: a map whose only
    member is the plug-in of line 193, the function at [l]. *)
Definition shipped_plugins (s : state) (l : loc) : Prop :=
  exists t, lookup_prop (st_heap s) ClassFn "plugins" = VObj t
            /\ isMap (st_heap s) (VObj t) = true
            /\ forin_keys (st_heap s) (VObj t) = ["$ready"]
            /\ lookup_prop (st_heap s) t "$ready" = VFun l CReady.

(** A class and a class derived from it that share their ready callback:
    [A = Class({$ready: f})], then the api [{$ready: f}] for
    [B = Class(A, {$ready: f})]; [f] is the user function 1. *)
Definition twice_world : outcome (value * value * value) :=
  (let* f := new_function (CHost 1) in
   let* apiA := new_map [("$ready", f)] in
   let* A := Class host_ex 3 apiA VUndef in
   let* apiB := new_map [("$ready", f)] in
   ret (f, A, apiB)) init_state.

(** An api with a ready callback whose constructor is the number 5. *)
Definition never_world : outcome (value * value) :=
  (let* f := new_function (CHost 1) in
   let* api := new_map [("constructor", VNum 5); ("$ready", f)] in
   ret (f, api)) init_state.

(** ** Further vocabulary and worlds *)

(** The object at [d] is the only one written: the heap [hc] has only
    grown and its other objects are as they were. *)
Definition only_at (hc : heap) (d : loc) (s : state) : Prop :=
  length hc <= length (st_heap s)
  /\ forall i, i < length hc -> i <> d -> st_heap s !! i = hc !! i.

(** A value [each] wraps into a one-element array (lines 71-74): truthy,
    and neither a string nor an object nor a function. *)
Definition is_scalar (v : value) : bool :=
  match v with
  | VBool true | VInf => true
  | VNum n => negb (Nat.eqb n 0)
  | _ => false
  end.

(** The arguments of call number [j] of a loop over the string [str]. *)
Definition char_args (str : string) (j : nat) : list value :=
  [charAt str j; VNum j; VStr str].

(** A source [{prototype: 3, x: 1}] at 7 and a destination [{}] at 8. *)
Definition copy_world : outcome (value * value) :=
  (let* src := new_map [("prototype", VNum 3); ("x", VNum 1)] in
   let* dst := new_map [] in
   ret (src, dst)) init_state.

Definition cw : state := final copy_world.

(** The objects that a member read on [c] goes through are in [s] as they
    are in the heap [h]. *)
Definition members_kept (h : heap) (c : value) (s : state) : Prop :=
  forall l i, loc_of c = Some l -> In i (proto_chain h l) ->
              st_heap s !! i = h !! i.

(** The member of [c] under [k] in the heap [h]. *)
Definition member (h : heap) (c : value) (k : string) : value :=
  match loc_of c with
  | Some l => lookup_prop h l k
  | None => VUndef
  end.

(** The arguments of the visit of key [k] of [c]: the key, the member, the
    collection. *)
Definition key_args (h : heap) (c : value) (k : string) : list value :=
  [VStr k; member h c k; c].

(** The arguments of the visit of index [j] of [c]: the element, the
    index, the collection. *)
Definition index_args (h : heap) (c : value) (j : nat) : list value :=
  [member h c (nat_key j); VNum j; c].

(** The results [rs] of a loop of [n] rounds that made the calls [evs]:
    every round ran and every result was kept, or the last call returned
    the stop value. *)
Definition ran_or_stopped (n : nat) (evs : list event) (rs : list value)
  : Prop :=
  (length evs = n /\ map ev_res evs = map Some rs)
  \/ (length evs <= n /\ map ev_res evs = map Some rs ++ [Some VInf]).

(** The array [[c]] as [each] makes it at line 72. *)
Definition singleton_array (c : value) : obj :=
  Obj (VObj ArrayPrototype)
      [("0", Prop_ c true); ("length", Prop_ (VNum 1) false)].

(** The value [x], handed to [extend] as a subject for the destination at
    [d], says nothing about [k]: it is not an object, or it is a map that
    [for-in] does not find [k] on. *)
Definition silent_about (h : heap) (d : loc) (k : string) (x : value)
  : Prop :=
  loc_of x = None
  \/ exists b, x = VObj b /\ b < length h /\ isMap h x = true
               /\ ~ In d (proto_chain h b) /\ ~ In k (forin_keys h x).

(** Two sources that both define [x], listed as [[{x: 1}, {x: 2, y: 3}]],
    and a destination [{}]: the sources at 7 and 8, the list at 9, the
    destination at 10. *)
Definition list_world : outcome (value * value) :=
  (let* m1 := new_map [("x", VNum 1)] in
   let* m2 := new_map [("x", VNum 2); ("y", VNum 3)] in
   let* ms := new_array [m1; m2] in
   let* dst := new_map [] in
   ret (ms, dst)) init_state.

Definition lw : state := final list_world.

(** While the ready plug-in scans for a class with the one parent [P]:
    the registry is [reg] and the parent list at [pl] is the array
    [[P]]. *)
Definition single_parent (reg : list (value * value)) (pl : loc)
    (P : value) (s : state) : Prop :=
  st_ready s = reg
  /\ isArray (st_heap s) (VObj pl) = true
  /\ lookup_prop (st_heap s) pl "length" = VNum 1
  /\ lookup_prop (st_heap s) pl "0" = P.

Definition is_user_fn (f : value) : bool :=
  match f with VFun _ (CHost _) => true | _ => false end.

(** The call [entry[1].call(pa, clazz, api, parent)] of line 201. *)
Definition ready_call (clazz api parent pa : value) (ev : event)
    (entry : value * value) : Prop :=
  ev_fn ev = snd entry /\ ev_this ev = pa
  /\ ev_args ev = [clazz; api; parent].

(** One registered class [A = Class({$ready: f})] at 10, with the user
    function 1 (at 7) as callback, then the parent list [[A]] at 14 and an
    empty api at 15. *)
Definition single_world : outcome (value * value * value) :=
  (let* f := new_function (CHost 1) in
   let* apiA := new_map [("$ready", f)] in
   let* A := Class host_ex 3 apiA VUndef in
   let* ps := new_array [A] in
   let* apiC := new_map [] in
   ret (A, ps, apiC)) init_state.

Definition s1w : state := final single_world.

(** The api [{x: 1, $singleton: true}] at 7; the singleton built from it
    is the object at 8. *)
Definition singleton_world : outcome value :=
  new_map [("x", VNum 1); ("$singleton", VBool true)] init_state.

Definition gw : state := final singleton_world.


(** ** Reasoning about monadic code *)

Lemma bind_Ret {A B} (m : M A) (k : A -> M B) s b s' :
  bind m k s = Ret b s' ->
  exists a s1, m s = Ret a s1 /\ k a s1 = Ret b s'.
Proof.
  unfold bind. destruct (m s) as [a s1| |]; try discriminate.
  intros H. exists a, s1. split; [reflexivity | exact H].
Qed.

Lemma bind_step {A B} (m : M A) (k : A -> M B) s a s1 :
  m s = Ret a s1 -> bind m k s = k a s1.
Proof. intros H. unfold bind. rewrite H. reflexivity. Qed.

Lemma is_stop_inf r : is_stop r = true <-> r = VInf.
Proof.
  unfold is_stop. destruct r; simpl; split; intros H;
    try discriminate; reflexivity.
Qed.

(** Reading never changes the state and never diverges. *)
Lemma get_inv v k s :
  (exists x, get v k s = Ret x s) \/ get v k s = Thr TypeError s.
Proof.
  destruct v; simpl; unfold ret, throw, gets; eauto.
Qed.

Lemma get_Ret v k s x s' : get v k s = Ret x s' -> s' = s.
Proof.
  destruct (get_inv v k s) as [[y H] | H]; rewrite H; congruence.
Qed.

Lemma get_obj v l k s :
  loc_of v = Some l -> get v k s = Ret (lookup_prop (st_heap s) l k) s.
Proof. destruct v; simpl; intros H; inversion H; subst; reflexivity. Qed.

Lemma mem_key_In k ks : mem_key k ks = true <-> In k ks.
Proof.
  unfold mem_key. rewrite existsb_exists. split.
  - intros (x & Hin & Heq). apply String.eqb_eq in Heq. subst x. exact Hin.
  - intros Hin. exists k. split; [exact Hin | apply String.eqb_refl].
Qed.

(** One round of [for-in]: a key that is no longer an enumerable member
    of the collection is skipped. *)
Lemma key_loop_cons {A} (fn : value -> value -> value -> A -> M (value * A))
    item rest c a acc s :
  key_loop fn (item :: rest) c a acc s
  = if mem_key item (forin_keys (st_heap s) c)
    then (let* v := get c item in
          let* (r, a') := fn (VStr item) v c a in
          if is_stop r then ret (acc, a')
          else key_loop fn rest c a' (acc ++ [r])) s
    else key_loop fn rest c a acc s.
Proof.
  cbn [key_loop]. unfold bind at 1. unfold gets at 1. cbv beta iota.
  destruct (mem_key item (forin_keys (st_heap s) c)); reflexivity.
Qed.

Lemma isMap_not_isArray h v : isMap h v = true -> isArray h v = false.
Proof.
  destruct v; simpl; try reflexivity.
  intros H. apply negb_true_iff in H. exact H.
Qed.

Lemma isMap_obj h v : isMap h v = true -> exists l, v = VObj l.
Proof. destruct v; simpl; try discriminate. eauto. Qed.

Lemma isArray_obj h v : isArray h v = true -> exists l, v = VObj l.
Proof. destruct v; simpl; try discriminate. eauto. Qed.

(** ** [each] *)

Section EachFacts.
Variable host : nat -> value -> list value -> state -> outcome value.

Lemma call_host_trace fuel l id this args caller s r s' :
  call_fn host fuel (VFun l (CHost id)) this args caller s = Ret r s' ->
  st_trace s' =
  st_trace s ++ [Event (VFun l (CHost id)) this args (Some r)].
Proof.
  destruct fuel; simpl; unfold logged, run_host;
    destruct (host id this args s); try discriminate;
    intros H; inversion H; subst; reflexivity.
Qed.

Lemma collected_step fn e r evs rs :
  ev_fn e = fn -> ev_this e = VUndef -> ev_res e = Some r -> r <> VInf ->
  collected fn evs rs -> collected fn (e :: evs) (r :: rs).
Proof.
  intros Hf Ht Hr Hn (Ha & Hb & Hc). repeat split.
  - constructor; [split; assumption | exact Ha].
  - constructor; assumption.
  - simpl. rewrite Hr. destruct Hc as [Hc | Hc]; rewrite Hc; auto.
Qed.

Lemma index_loop_collects fuel l id n : forall inf i c a acc s rs a' s',
  index_loop (each_cb host fuel (VFun l (CHost id))) n inf i c a acc s
    = Ret (rs, a') s' ->
  exists evs rs',
    st_trace s' = st_trace s ++ evs /\ rs = acc ++ rs'
    /\ collected (VFun l (CHost id)) evs rs'.
Proof.
  induction n as [|n IH]; intros inf i c a acc s rs a' s' H.
  - simpl in H. destruct inf; [discriminate|].
    inversion H; subst. exists [], [].
    rewrite !app_nil_r. repeat split; auto.
  - simpl in H. apply bind_Ret in H as (v & s1 & Hv & H).
    assert (s1 = s) as ->.
    { destruct c; try (eapply get_Ret; exact Hv);
        inversion Hv; reflexivity. }
    unfold each_cb at 1 in H.
    apply bind_Ret in H as ([r u] & s2 & Hc & H).
    apply bind_Ret in Hc as (r0 & s3 & Hc & Hr).
    inversion Hr; subst r0 u s3. clear Hr.
    pose proof (call_host_trace _ _ _ _ _ _ _ _ _ Hc) as Ht.
    destruct (is_stop r) eqn:Hs.
    + inversion H; subst. apply is_stop_inf in Hs. subst r.
      exists [Event (VFun l (CHost id)) VUndef [v; VNum i; c] (Some VInf)],
             [].
      rewrite app_nil_r. repeat split; auto.
    + apply IH in H as (evs & rs' & Ht' & Hrs & Hcol).
      exists (Event (VFun l (CHost id)) VUndef [v; VNum i; c] (Some r)
                :: evs), (r :: rs').
      split; [|split].
      * rewrite Ht', Ht, <- app_assoc. reflexivity.
      * rewrite Hrs, <- app_assoc. reflexivity.
      * apply collected_step; auto.
        intros ->. simpl in Hs. discriminate.
Qed.

Lemma key_loop_collects fuel l id keys : forall c a acc s rs a' s',
  key_loop (each_cb host fuel (VFun l (CHost id))) keys c a acc s
    = Ret (rs, a') s' ->
  exists evs rs',
    st_trace s' = st_trace s ++ evs /\ rs = acc ++ rs'
    /\ collected (VFun l (CHost id)) evs rs'.
Proof.
  induction keys as [|k keys IH]; intros c a acc s rs a' s' H.
  - inversion H; subst. exists [], [].
    rewrite !app_nil_r. repeat split; auto.
  - rewrite key_loop_cons in H.
    destruct (mem_key k (forin_keys (st_heap s) c));
      [|eapply IH; exact H].
    apply bind_Ret in H as (v & s1 & Hv & H).
    apply get_Ret in Hv as Hs1. subst s1.
    unfold each_cb at 1 in H.
    apply bind_Ret in H as ([r u] & s2 & Hc & H).
    apply bind_Ret in Hc as (r0 & s3 & Hc & Hr).
    inversion Hr; subst r0 u s3. clear Hr.
    pose proof (call_host_trace _ _ _ _ _ _ _ _ _ Hc) as Ht.
    destruct (is_stop r) eqn:Hs.
    + inversion H; subst. apply is_stop_inf in Hs. subst r.
      exists [Event (VFun l (CHost id)) VUndef [VStr k; v; c] (Some VInf)],
             [].
      rewrite app_nil_r. repeat split; auto.
    + apply IH in H as (evs & rs' & Ht' & Hrs & Hcol).
      exists (Event (VFun l (CHost id)) VUndef [VStr k; v; c] (Some r)
                :: evs), (r :: rs').
      split; [|split].
      * rewrite Ht', Ht, <- app_assoc. reflexivity.
      * rewrite Hrs, <- app_assoc. reflexivity.
      * apply collected_step; auto.
        intros ->. simpl in Hs. discriminate.
Qed.
End EachFacts.

Section EachClaims.
Variable host : nat -> value -> list value -> state -> outcome value.

Lemma new_array_trace vs s a s' :
  new_array vs s = Ret a s' -> st_trace s' = st_trace s.
Proof. intros H. inversion H; subst. reflexivity. Qed.

Lemma each_with_collects fuel l id c s rs a' s' :
  each_with (each_cb host fuel (VFun l (CHost id))) fuel c tt s
    = Ret (Some rs, a') s' ->
  exists evs, st_trace s' = st_trace s ++ evs
              /\ collected (VFun l (CHost id)) evs rs.
Proof.
  unfold each_with. destruct (negb (truthy c)); [discriminate|].
  intros H. apply bind_Ret in H as (h & s0 & Hh & H).
  inversion Hh; subst h s0. clear Hh.
  apply bind_Ret in H as ([c' ia] & s1 & Hc & H).
  assert (st_trace s1 = st_trace s) as Hs1.
  { destruct (negb (isArray (st_heap s) c || isString c)
              && negb (isMap (st_heap s) c) && negb (isFunction c)).
    - apply bind_Ret in Hc as (arr & s2 & Ha & Hc).
      inversion Hc; subst. eapply new_array_trace; exact Ha.
    - inversion Hc; subst. reflexivity. }
  rewrite <- Hs1. clear Hc Hs1.
  destruct ia.
  - apply bind_Ret in H as (len & s2 & Hl & H).
    apply get_Ret in Hl. subst s2.
    apply bind_Ret in H as ([rs0 a0] & s3 & Hloop & H).
    inversion H; subst. clear H.
    destruct len; try (inversion Hloop; subst; exists [];
                       rewrite app_nil_r; repeat split; auto; fail).
    + apply index_loop_collects in Hloop as (evs & rs' & Ht & Hrs & Hcol).
      simpl in Hrs. subst rs'. eauto.
    + apply index_loop_collects in Hloop as (evs & rs' & Ht & Hrs & Hcol).
      simpl in Hrs. subst rs'. eauto.
  - apply bind_Ret in H as (h & s2 & Hh & H).
    inversion Hh; subst h s2. clear Hh.
    apply bind_Ret in H as ([rs0 a0] & s3 & Hloop & H).
    inversion H; subst. clear H.
    apply key_loop_collects in Hloop as (evs & rs' & Ht & Hrs & Hcol).
    simpl in Hrs. subst rs'. eauto.
Qed.

Lemma each_cb_returns fuel l id a b c u s :
  host_returns host ->
  exists r s', each_cb host fuel (VFun l (CHost id)) a b c u s
               = Ret (r, tt) s'.
Proof.
  intros Hh. unfold each_cb.
  destruct (Hh id VUndef [a; b; c] s) as (r & s1 & Hr).
  exists r. eexists. unfold bind.
  destruct fuel; simpl; unfold logged, run_host; rewrite Hr; reflexivity.
Qed.

Lemma index_loop_returns fuel l id n :
  host_returns host ->
  forall i c acc s,
    loc_of c <> None \/ isString c = true ->
    exists rs s',
      index_loop (each_cb host fuel (VFun l (CHost id))) n false i c tt acc s
      = Ret (rs, tt) s'.
Proof.
  intros Hh. induction n as [|n IH]; intros i c acc s Hc.
  - exists acc, s. reflexivity.
  - cbn [index_loop].
    assert (exists v, match c with
                      | VStr str => ret (charAt str i)
                      | _ => get c (nat_key i)
                      end s = Ret v s) as [v Hv].
    { destruct c; simpl in Hc; destruct Hc as [Hc | Hc];
        try congruence; try discriminate; eexists; reflexivity. }
    rewrite (bind_step _ _ _ _ _ Hv).
    destruct (each_cb_returns fuel l id v (VNum i) c tt s Hh) as (r & s1 & Hr).
    rewrite (bind_step _ _ _ _ _ Hr).
    destruct (is_stop r); [exists acc, s1; reflexivity | apply IH; exact Hc].
Qed.

Lemma key_loop_returns fuel l id keys :
  host_returns host ->
  forall c acc s,
    loc_of c <> None ->
    exists rs s',
      key_loop (each_cb host fuel (VFun l (CHost id))) keys c tt acc s
      = Ret (rs, tt) s'.
Proof.
  intros Hh. induction keys as [|key keys IH]; intros c acc s Hc.
  - exists acc, s. reflexivity.
  - rewrite key_loop_cons.
    destruct (mem_key key (forin_keys (st_heap s) c));
      [|apply IH; exact Hc].
    destruct (loc_of c) as [cl|] eqn:Ecl; [|congruence].
    rewrite (bind_step _ _ _ _ _ (get_obj c cl key s Ecl)).
    destruct (each_cb_returns fuel l id (VStr key)
                (lookup_prop (st_heap s) cl key) c tt s Hh) as (r & s1 & Hr).
    rewrite (bind_step _ _ _ _ _ Hr).
    destruct (is_stop r); [exists acc, s1; reflexivity|].
    apply IH. congruence.
Qed.

(** With user functions that return, on a collection whose length is not
    [Infinity], [each] returns a sequence. *)
Lemma each_returns fuel c l id s :
  host_returns host ->
  truthy c = true ->
  (forall cl, c = VObj cl ->
              lookup_prop (st_heap s) cl "length" <> VInf) ->
  exists rs s', each host fuel c (VFun l (CHost id)) s = Ret (Some rs) s'.
Proof.
  intros Hh Hc Hfin.
  assert (exists rs s', each_with (each_cb host fuel (VFun l (CHost id)))
                          fuel c tt s = Ret (Some rs, tt) s') as (rs & s' & H).
  { unfold each_with. rewrite Hc. cbn [negb].
    unfold bind at 1. unfold gets at 1. cbv beta iota.
    destruct (negb (isArray (st_heap s) c || isString c)
              && negb (isMap (st_heap s) c) && negb (isFunction c)) eqn:Hb.
    - unfold bind at 1. unfold bind at 1. unfold new_array at 1.
      unfold bind at 1. unfold alloc at 1. cbv beta iota.
      unfold ret at 1. cbv beta iota. unfold ret at 1. cbv beta iota.
      set (s1 := with_heap s _).
      assert (Hlen : get (VObj (length (st_heap s))) "length" s1
                     = Ret (VNum 1) s1).
      { simpl. unfold gets. f_equal. unfold lookup_prop. simpl.
        rewrite list_lookup_middle by reflexivity. simpl.
        destruct (String.eqb "length" (nat_key 0)) eqn:E0;
          [vm_compute in E0; discriminate | reflexivity]. }
      rewrite (bind_step _ _ _ _ _ Hlen).
      destruct (index_loop_returns fuel l id 1 Hh 0
                  (VObj (length (st_heap s))) [] s1
                  ltac:(left; discriminate)) as (rs & s' & Hl).
      rewrite (bind_step _ _ _ _ _ Hl). exists rs, s'. reflexivity.
    - unfold bind at 1. unfold ret at 1. cbv beta iota.
      destruct (isArray (st_heap s) c || isString c) eqn:Ha.
      + assert (Hcc : loc_of c <> None \/ isString c = true).
        { apply orb_true_iff in Ha as [Ha | Ha]; [left | right; exact Ha].
          destruct (isArray_obj _ _ Ha) as [cl ->]. discriminate. }
        assert (exists len, get c "length" s = Ret len s /\ len <> VInf)
          as (len & Hlen & Hni).
        { destruct c; simpl in Hcc; destruct Hcc as [Hcc | Hcc];
            try congruence; try discriminate;
            try (exfalso; apply orb_true_iff in Ha as [Ha | Ha];
                 discriminate);
            eexists; (split; [reflexivity|]);
            first [discriminate | apply Hfin; reflexivity]. }
        rewrite (bind_step _ _ _ _ _ Hlen).
        destruct len; try (eexists; eexists; reflexivity); [|congruence].
        destruct (index_loop_returns fuel l id n Hh 0 c [] s Hcc)
          as (rs & s' & Hl).
        rewrite (bind_step _ _ _ _ _ Hl). exists rs, s'. reflexivity.
      + unfold bind at 1. unfold gets at 1. cbv beta iota.
        assert (Hcc : loc_of c <> None).
        { cbn [negb andb] in Hb.
          destruct c; simpl in Hb; try discriminate. }
        destruct (key_loop_returns fuel l id
                    (forin_keys (st_heap s) c) Hh c [] s Hcc)
          as (rs & s' & Hl).
        rewrite (bind_step _ _ _ _ _ Hl). exists rs, s'. reflexivity. }
  exists rs, s'. unfold each. rewrite Hc. cbn [truthy negb orb].
  rewrite (bind_step _ _ _ _ _ H). reflexivity.
Qed.

(** C3 (amended): when [each] returns a sequence, the calls it made are
    calls of [fn], in the order of the trace; iteration stops right after
    a call that returns the stop value [Infinity]; the returned sequence
    holds, in that order, the values returned for the elements visited
    before the stopping call, and the stop value itself is left out. *)
Theorem each_collects_until_stop fuel c l id s rs s' :
  each host fuel c (VFun l (CHost id)) s = Ret (Some rs) s' ->
  exists evs, st_trace s' = st_trace s ++ evs
              /\ collected (VFun l (CHost id)) evs rs.
Proof.
  unfold each.
  destruct (negb (truthy c) || negb (truthy (VFun l (CHost id))));
    [discriminate|].
  intros H. apply bind_Ret in H as ([r u] & s1 & He & H).
  inversion H; subst. destruct u.
  eapply each_with_collects; exact He.
Qed.

(** C9: [each] over an empty array or an empty map returns an empty
    sequence and calls nothing (the state, trace included, is
    untouched); with an absent collection or an absent callback it
    returns no result and does not throw. *)
Theorem each_empty_or_absent fuel fn arr m s :
  truthy fn = true ->
  isArray (st_heap s) arr = true ->
  get arr "length" s = Ret (VNum 0) s ->
  isMap (st_heap s) m = true ->
  forin_keys (st_heap s) m = [] ->
  each host fuel arr fn s = Ret (Some []) s
  /\ each host fuel m fn s = Ret (Some []) s
  /\ each host fuel VUndef fn s = Ret None s
  /\ (forall c, each host fuel c VUndef s = Ret None s).
Proof.
  intros Hfn Harr Hlen Hmap Hkeys. split; [|split; [|split]].
  - destruct (isArray_obj _ _ Harr) as [l ->].
    unfold each. rewrite Hfn.
    unfold each_with, bind, gets. cbn [truthy negb orb]. cbv beta iota.
    rewrite Harr. cbn [orb negb andb]. unfold ret at 1. cbv beta iota.
    rewrite Hlen. reflexivity.
  - destruct (isMap_obj _ _ Hmap) as [l ->].
    pose proof (isMap_not_isArray _ _ Hmap) as Hna.
    unfold each. rewrite Hfn.
    unfold each_with, bind, gets. cbn [truthy negb orb]. cbv beta iota.
    rewrite Hna, Hmap. cbn [orb negb andb isString isFunction].
    unfold ret at 1. cbv beta iota.
    rewrite Hkeys. reflexivity.
  - reflexivity.
  - intros c. unfold each. cbn [truthy negb]. rewrite orb_true_r.
    reflexivity.
Qed.
End EachClaims.

Lemma each_collects_until_stop_witness :
  exists evs,
    st_trace (final (each host_ex 0 (VObj 7) (VFun 8 (CHost 7))
                       (final each_world)))
    = st_trace (final each_world) ++ evs
    /\ collected (VFun 8 (CHost 7)) evs [VNum 1].
Proof.
  apply (each_collects_until_stop host_ex 0 (VObj 7) 8 7 (final each_world)
           [VNum 1]
           (final (each host_ex 0 (VObj 7) (VFun 8 (CHost 7))
                     (final each_world)))).
  vm_compute. reflexivity.
Defined.

(** C3, as stated, fails on [[1, Infinity, 3]] with the identity callback:
    the callback returned 1 and then [Infinity] for the two elements
    visited, and [each] returned [[1]], without the value of the
    terminating call. *)
Lemma each_drops_stop_value :
  exists s',
    each host_ex 0 (VObj 7) (VFun 8 (CHost 7)) (final each_world)
      = Ret (Some [VNum 1]) s'
    /\ map ev_res (st_trace s') = [Some (VNum 1); Some VInf]
    /\ map ev_args (st_trace s')
       = [[VNum 1; VNum 0; VObj 7]; [VInf; VNum 1; VObj 7]].
Proof. eexists. vm_compute. repeat split. Qed.

Lemma each_empty_or_absent_witness :
  let s := final empty_world in
  each host_ex 0 (VObj 7) (VFun 9 (CHost 7)) s = Ret (Some []) s
  /\ each host_ex 0 (VObj 8) (VFun 9 (CHost 7)) s = Ret (Some []) s
  /\ each host_ex 0 VUndef (VFun 9 (CHost 7)) s = Ret None s
  /\ (forall c, each host_ex 0 c VUndef s = Ret None s).
Proof.
  apply (each_empty_or_absent host_ex 0 (VFun 9 (CHost 7)) (VObj 7) (VObj 8)
           (final empty_world)); reflexivity.
Defined.

(** ** The dispatcher *)

Lemma get_parent_at parent i s :
  loc_of parent <> None ->
  get parent (nat_key i) s = Ret (parent_at s parent i) s.
Proof.
  intros H. unfold parent_at.
  destruct (loc_of parent) as [l|] eqn:E; [|congruence].
  apply get_obj. exact E.
Qed.

Lemma isClass_state p s c s' : isClass p s = Ret c s' -> s' = s.
Proof.
  unfold isClass. destruct (isFunction p).
  - intros H. apply bind_Ret in H as (x & s1 & H1 & H).
    apply bind_Ret in H as (y & s2 & H2 & H).
    apply get_Ret in H1, H2. inversion H; subst. reflexivity.
  - intros H. inversion H. reflexivity.
Qed.

Lemma isClass_not_function p s :
  isFunction p = false -> isClass p s = Ret false s.
Proof. intros H. unfold isClass. rewrite H. reflexivity. Qed.

Lemma parent_scope_state p s pa s' : parent_scope p s = Ret pa s' -> s' = s.
Proof.
  unfold parent_scope. intros H. apply bind_Ret in H as (c & s1 & Hc & H).
  apply isClass_state in Hc. subst s1.
  destruct c; [eapply get_Ret; exact H | inversion H; reflexivity].
Qed.

Lemma key_loop_find_name caller l s keys : forall name acc,
  (forall k, In k keys -> In k (forin_keys (st_heap s) (VObj l))) ->
  exists rs,
    key_loop (find_name caller) keys (VObj l) name acc s
    = Ret (rs, match first_key (st_heap s) l caller keys with
               | Some k => VStr k
               | None => name
               end) s.
Proof.
  induction keys as [|k keys IH]; intros name acc Hkeys.
  - exists acc. reflexivity.
  - rewrite key_loop_cons.
    rewrite (proj2 (mem_key_In _ _) (Hkeys k (or_introl eq_refl))).
    cbn [first_key]. unfold bind at 1. simpl get. unfold gets at 1.
    unfold bind at 1. unfold find_name at 1.
    destruct (strict_eq (lookup_prop (st_heap s) l k) caller) eqn:E.
    + exists acc. reflexivity.
    + unfold ret at 1. cbn [is_stop strict_eq].
      destruct (IH name (acc ++ [VUndef])
                  (fun k0 H0 => Hkeys k0 (or_intror H0))) as [rs Hrs].
      exists rs. exact Hrs.
Qed.

Lemma each_find_name caller fuel cp s :
  isMap (st_heap s) cp = true ->
  exists rs,
    each_with (find_name caller) fuel cp VUndef s
    = Ret (rs, method_name (st_heap s) cp caller) s.
Proof.
  intros Hmap. destruct (isMap_obj _ _ Hmap) as [l ->].
  pose proof (isMap_not_isArray _ _ Hmap) as Hna.
  unfold each_with, bind, gets. cbn [truthy negb]. cbv beta iota.
  rewrite Hna, Hmap. cbn [orb negb andb isString isFunction].
  unfold ret at 1. cbv beta iota.
  destruct (key_loop_find_name caller l s
              (forin_keys (st_heap s) (VObj l)) VUndef [] (fun _ H0 => H0))
    as [rs Hrs].
  rewrite Hrs. unfold method_name.
  exists (Some rs). reflexivity.
Qed.

Lemma search_parents_stop n parent name func pa s :
  truthy func = true ->
  search_parents n false parent name func pa s = Ret (func, pa) s.
Proof. intros H. destruct n; simpl; [|rewrite H]; reflexivity. Qed.

Lemma search_parents_none parent name s :
  loc_of parent <> None ->
  forall n func pa,
    truthy func = false -> isFunction func = false ->
    (forall i, i < n -> lacks s (parent_at s parent i) (to_key name)) ->
    exists f' pa',
      search_parents n false parent name func pa s = Ret (f', pa') s
      /\ isFunction f' = false.
Proof.
  intros Hp. induction n as [|n IH]; intros func pa Hf Hnf Hall.
  - exists func, pa. split; [reflexivity | exact Hnf].
  - simpl. rewrite Hf.
    destruct (Hall n (Nat.lt_succ_diag_r n)) as (pa1 & g & Hs & Hg & Hfalsy).
    rewrite (bind_step _ _ _ _ _ (get_parent_at parent n s Hp)).
    rewrite (bind_step _ _ _ _ _ Hs).
    rewrite (bind_step _ _ _ _ _ Hg).
    rewrite Hfalsy.
    apply IH; auto.
Qed.

Lemma search_parents_found parent name s j f paj :
  loc_of parent <> None ->
  parent_scope (parent_at s parent j) s = Ret paj s ->
  get paj (to_key name) s = Ret f s ->
  truthy f = true ->
  forall n func pa,
    j < n -> truthy func = false ->
    (forall i, j < i -> i < n -> lacks s (parent_at s parent i) (to_key name)) ->
    search_parents n false parent name func pa s = Ret (f, paj) s.
Proof.
  intros Hp Hs Hg Ht. induction n as [|n IH]; intros func pa Hj Hf Hall.
  - lia.
  - simpl. rewrite Hf.
    rewrite (bind_step _ _ _ _ _ (get_parent_at parent n s Hp)).
    destruct (Nat.eq_dec j n) as [<- | Hne].
    + rewrite (bind_step _ _ _ _ _ Hs).
      rewrite (bind_step _ _ _ _ _ Hg).
      rewrite Ht. apply search_parents_stop. exact Ht.
    + destruct (Hall n) as (pa1 & g & Hs1 & Hg1 & Hfalsy); [lia | lia |].
      rewrite (bind_step _ _ _ _ _ Hs1).
      rewrite (bind_step _ _ _ _ _ Hg1).
      rewrite Hfalsy.
      apply IH; [lia | reflexivity |].
      intros i Hi1 Hi2. apply Hall; lia.
Qed.

Lemma truthy_loc v : loc_of v <> None -> truthy v = true.
Proof. destruct v; simpl; congruence. Qed.

Ltac step H := rewrite (bind_step _ _ _ _ _ H); cbv beta.

Lemma target_of_constructor_absent parent this s :
  truthy parent = false ->
  target_of_constructor parent this s = Ret (VNum 0) s.
Proof. intros H. unfold target_of_constructor. rewrite H. reflexivity. Qed.

Lemma target_of_constructor_plain parent this s :
  loc_of parent <> None ->
  isFunction (parent_at s parent 0) = false ->
  target_of_constructor parent this s = Ret (parent_at s parent 0) s.
Proof.
  intros Hp Hnf. unfold target_of_constructor.
  rewrite (truthy_loc _ Hp).
  pose proof (get_parent_at parent 0 s Hp) as H0.
  change (nat_key 0) with "0" in H0.
  step H0. step (isClass_not_function _ s Hnf). reflexivity.
Qed.

Lemma target_of_method_none fuel child parent this caller s cp n :
  get child "prototype" s = Ret cp s ->
  isMap (st_heap s) cp = true ->
  loc_of parent <> None ->
  get parent "length" s = Ret (VNum n) s ->
  (forall i, i < n ->
     lacks s (parent_at s parent i)
       (to_key (method_name (st_heap s) cp caller))) ->
  exists f, target_of_method fuel child parent this caller s = Ret f s
            /\ isFunction f = false.
Proof.
  intros Hcp Hmap Hp Hlen Hall. unfold target_of_method.
  step Hcp.
  destruct (each_find_name caller fuel cp s Hmap) as [rs Hrs].
  step Hrs. step Hlen.
  destruct (search_parents_none parent
              (method_name (st_heap s) cp caller) s Hp
              n VUndef VUndef eq_refl eq_refl Hall)
    as (f' & pa' & Hsearch & Hnf).
  step Hsearch. rewrite Hnf. exists f'. split; [reflexivity | exact Hnf].
Qed.

Lemma get_other_key v k x s k' :
  get v k s = Ret x s -> exists y, get v k' s = Ret y s.
Proof.
  destruct v; simpl; unfold throw, ret, gets; intros H;
    try discriminate; eauto.
Qed.

Lemma set_obj v l k x s :
  loc_of v = Some l -> read_only v k = false ->
  set v k x s = Ret tt (with_heap s (write (st_heap s) l k x)).
Proof.
  destruct v; simpl; intros H Hro; inversion H; subst;
    [|rewrite Hro]; reflexivity.
Qed.

Lemma read_only_super v : read_only v "$super" = false.
Proof. destruct v; reflexivity. Qed.

Lemma set_super v l x s :
  loc_of v = Some l ->
  set v "$super" x s = Ret tt (with_heap s (write (st_heap s) l "$super" x)).
Proof. intros H. apply set_obj; [exact H | apply read_only_super]. Qed.

Lemma target_of_method_found fuel child parent this caller s cp n j pa f :
  get child "prototype" s = Ret cp s ->
  isMap (st_heap s) cp = true ->
  loc_of parent <> None ->
  get parent "length" s = Ret (VNum n) s ->
  j < n ->
  parent_scope (parent_at s parent j) s = Ret pa s ->
  get pa (to_key (method_name (st_heap s) cp caller)) s = Ret f s ->
  isFunction f = true ->
  (forall i, j < i -> i < n ->
     lacks s (parent_at s parent i)
       (to_key (method_name (st_heap s) cp caller))) ->
  forall tl d,
    loc_of this = Some tl ->
    get pa "$super" s = Ret d s ->
    target_of_method fuel child parent this caller s
    = Ret f (with_heap s (write (st_heap s) tl "$super" d)).
Proof.
  intros Hcp Hmap Hp Hlen Hj Hs Hg Hf Hall tl d Etl Hd.
  unfold target_of_method.
  step Hcp.
  destruct (each_find_name caller fuel cp s Hmap) as [rs Hrs].
  step Hrs. step Hlen.
  assert (Ht : truthy f = true) by (destruct f; try discriminate; reflexivity).
  step (search_parents_found parent (method_name (st_heap s) cp caller)
          s j f pa Hp Hs Hg Ht n VUndef VUndef Hj eq_refl Hall).
  rewrite Hf. unfold bind at 1. step Hd.
  rewrite (set_super this tl d s Etl). reflexivity.
Qed.

Lemma isClass_true_function p s : isClass p s = Ret true s -> isFunction p = true.
Proof.
  unfold isClass. destruct (isFunction p); [reflexivity|].
  intros H. inversion H.
Qed.

Lemma search_parents_inv parent name s n : forall inf func0 pa0 func pa s1,
  search_parents n inf parent name func0 pa0 s = Ret (func, pa) s1 ->
  s1 = s
  /\ (isFunction func0 = false -> isFunction func = true ->
      exists p, parent_scope p s = Ret pa s
                /\ get pa (to_key name) s = Ret func s).
Proof.
  induction n as [|n IH]; intros inf func0 pa0 func pa s1 H.
  - simpl in H. destruct (inf && negb (truthy func0)); [discriminate|].
    inversion H; subst. split; [reflexivity|]. intros H0 H1. congruence.
  - simpl in H. destruct (truthy func0).
    + inversion H; subst. split; [reflexivity|]. intros H0 H1. congruence.
    + apply bind_Ret in H as (p & s2 & Hp & H).
      apply get_Ret in Hp as Es. subst s2.
      apply bind_Ret in H as (pa1 & s2 & Hs & H).
      apply parent_scope_state in Hs as Es. subst s2.
      apply bind_Ret in H as (g & s2 & Hg & H).
      apply get_Ret in Hg as Es. subst s2.
      destruct (truthy g) eqn:Tg.
      * destruct n as [|n'].
        -- simpl in H. rewrite Tg in H. rewrite andb_false_r in H.
           inversion H; subst. split; [reflexivity|]. eauto.
        -- simpl in H. rewrite Tg in H. inversion H; subst.
           split; [reflexivity|]. eauto.
      * apply IH in H as [-> H]. split; [reflexivity|].
        intros _ Hfn. apply H; [reflexivity | exact Hfn].
Qed.

(** What the search for a target leaves behind: nothing when there is no
    target function, nothing either when the constructor path meets a
    function that is not a class; otherwise [$super] of the receiver is
    bound to the [$super] of the member table of the parent that supplied
    the target. *)
Lemma target_of_constructor_inv parent this tl s func s1 :
  loc_of this = Some tl ->
  target_of_constructor parent this s = Ret func s1 ->
  (isFunction func = false /\ s1 = s)
  \/ (isFunction func = true /\ isClass func s = Ret false s /\ s1 = s)
  \/ (isFunction func = true
      /\ exists pa d, parent_scope func s = Ret pa s
                      /\ get pa "$super" s = Ret d s
                      /\ s1 = with_heap s (write (st_heap s) tl "$super" d)).
Proof.
  intros Etl H. unfold target_of_constructor in H.
  apply bind_Ret in H as (f & s2 & Hf & H).
  assert (s2 = s) as ->.
  { destruct (truthy parent); [eapply get_Ret; exact Hf|].
    inversion Hf; reflexivity. }
  apply bind_Ret in H as (c & s2 & Hc & H).
  apply isClass_state in Hc as Es. subst s2.
  apply bind_Ret in H as (u & s2 & Hset & H).
  inversion H; subst func s2. clear H.
  destruct c.
  - right. right. split; [eapply isClass_true_function; exact Hc|].
    apply bind_Ret in Hset as (fp & s2 & Hfp & Hset).
    apply get_Ret in Hfp as Es. subst s2.
    apply bind_Ret in Hset as (d & s2 & Hd & Hset).
    apply get_Ret in Hd as Es. subst s2.
    rewrite (set_super this tl d s Etl) in Hset.
    inversion Hset; subst s1.
    exists fp, d. split; [|split; [exact Hd | reflexivity]].
    unfold parent_scope. step Hc. exact Hfp.
  - inversion Hset; subst s1.
    destruct (isFunction f) eqn:E; [right; left | left]; auto.
Qed.

Lemma target_of_method_inv fuel child parent this caller tl s cp func s1 :
  loc_of this = Some tl ->
  get child "prototype" s = Ret cp s ->
  isMap (st_heap s) cp = true ->
  target_of_method fuel child parent this caller s = Ret func s1 ->
  (isFunction func = false /\ s1 = s)
  \/ (isFunction func = true
      /\ exists p pa d, parent_scope p s = Ret pa s
                        /\ get pa (to_key (method_name (st_heap s) cp caller)) s
                           = Ret func s
                        /\ get pa "$super" s = Ret d s
                        /\ s1 = with_heap s (write (st_heap s) tl "$super" d)).
Proof.
  intros Etl Hcp Hmap H. unfold target_of_method in H.
  rewrite (bind_step _ _ _ _ _ Hcp) in H.
  destruct (each_find_name caller fuel cp s Hmap) as [rs Hrs].
  rewrite (bind_step _ _ _ _ _ Hrs) in H.
  apply bind_Ret in H as (len & s2 & Hlen & H).
  apply get_Ret in Hlen as Es. subst s2.
  apply bind_Ret in H as ([f pa] & s2 & Hsearch & H).
  assert (s2 = s
          /\ (isFunction f = true ->
              exists p, parent_scope p s = Ret pa s
                /\ get pa (to_key (method_name (st_heap s) cp caller)) s
                   = Ret f s)) as [-> Hfound].
  { destruct len; try (inversion Hsearch; subst; split;
                       [reflexivity | discriminate]).
    - apply search_parents_inv in Hsearch as [-> Hx].
      split; [reflexivity | apply Hx; reflexivity].
    - apply search_parents_inv in Hsearch as [-> Hx].
      split; [reflexivity | apply Hx; reflexivity]. }
  apply bind_Ret in H as (u & s2 & Hset & H).
  inversion H; subst func s2. clear H.
  destruct (isFunction f) eqn:E.
  - right. split; [reflexivity|].
    destruct (Hfound eq_refl) as (p & Hs & Hg).
    apply bind_Ret in Hset as (d & s2 & Hd & Hset).
    apply get_Ret in Hd as Es. subst s2.
    rewrite (set_super this tl d s Etl) in Hset.
    inversion Hset; subst s1. exists p, pa, d. auto.
  - left. inversion Hset; subst. auto.
Qed.

Lemma own_put_same ps k x : exists e, own (put ps k x) k = Some (Prop_ x e).
Proof.
  induction ps as [|[k' p] ps IH]; simpl.
  - rewrite String.eqb_refl. eauto.
  - destruct (String.eqb k k') eqn:E; simpl; rewrite E; eauto.
Qed.

Lemma lookup_write_same (h : heap) l (k : string) (x : value) :
  l < length h -> lookup_prop (write h l k x) l k = x.
Proof.
  intros Hl. unfold write, lookup_prop.
  destruct (lookup_lt_is_Some_2 h l Hl) as [o Ho]. rewrite Ho.
  simpl. rewrite list_lookup_insert_eq by lia.
  simpl. destruct (own_put_same (o_props o) k x) as [e He].
  rewrite He. reflexivity.
Qed.

Lemma write_length (h : heap) l (k : string) (x : value) : length (write h l k x) = length h.
Proof.
  unfold write. destruct (h !! l); [apply length_insert | reflexivity].
Qed.

Section DispatchClaims.
Variable host : nat -> value -> list value -> state -> outcome value.

(** C5 (amended): a dispatcher call that resolves no target function
    does nothing: it returns [undefined], throws nothing, and leaves the
    state as it found it.  No target is resolved when the parent list is
    absent, when the caller is the constructor and the first parent is not
    a function, and when the caller is a method and every parent reads as
    a falsy value under the caller's name, the members it inherits, such
    as the built-ins of [Object.prototype], included. *)
Theorem super_without_target fuel self child parent this caller args s cp :
  loc_of this <> None ->
  get child "prototype" s = Ret cp s ->
  isMap (st_heap s) cp = true ->
  no_target s cp parent caller ->
  dispatch host fuel self child parent this caller args s = Ret VUndef s.
Proof.
  intros Hthis Hcp Hmap Hno.
  destruct (loc_of this) as [tl|] eqn:Etl; [clear Hthis | congruence].
  destruct (isMap_obj _ _ Hmap) as [cl Hcl].
  unfold dispatch, super_body.
  step (get_obj this tl "$super" s Etl).
  step Hcp.
  assert (Hctor : get cp "constructor" s
                  = Ret (lookup_prop (st_heap s) cl "constructor") s)
    by (subst cp; reflexivity).
  step Hctor.
  destruct Hno as [Hp | [(ctor & Hc & Heq & Hp & Hnf)
                        | (ctor & n & Hc & Heq & Hp & Hlen & Hall)]].
  - destruct (strict_eq caller _).
    + step (target_of_constructor_absent parent this s Hp). reflexivity.
    + rewrite Hp. reflexivity.
  - rewrite Hctor in Hc. inversion Hc as [Hc']. subst ctor.
    rewrite Heq.
    step (target_of_constructor_plain parent this s Hp Hnf).
    rewrite Hnf. reflexivity.
  - rewrite Hctor in Hc. inversion Hc as [Hc']. subst ctor.
    rewrite Heq.
    rewrite (truthy_loc _ Hp).
    destruct (target_of_method_none fuel child parent this caller s cp n
                Hcp Hmap Hp Hlen Hall) as (f & Hf & Hnf).
    step Hf. rewrite Hnf. reflexivity.
Qed.

(** C4 (amended): called from a method (not the constructor), the
    dispatcher of a class looks the caller's name up in the parents from
    the last listed to the first and stops at the first one that reads as
    a truthy value there, inherited members included.  If parent [j] reads
    as the function [f] under that name and every parent listed after it
    reads as a falsy value there, the call runs [f] on the original
    receiver and arguments (between the rebinding and the restoring of
    [$super]).  With two parents that both define the method as a
    function, [j] is the second. *)
Theorem super_resolves_rightmost fuel self child parent this caller args
    s cp ctor n j pa f :
  loc_of this <> None ->
  get child "prototype" s = Ret cp s ->
  isMap (st_heap s) cp = true ->
  get cp "constructor" s = Ret ctor s ->
  strict_eq caller ctor = false ->
  loc_of parent <> None ->
  get parent "length" s = Ret (VNum n) s ->
  j < n ->
  parent_scope (parent_at s parent j) s = Ret pa s ->
  get pa (to_key (method_name (st_heap s) cp caller)) s = Ret f s ->
  isFunction f = true ->
  (forall i, j < i -> i < n ->
     lacks s (parent_at s parent i)
       (to_key (method_name (st_heap s) cp caller))) ->
  dispatch host fuel self child parent this caller args s
  = (let* supez := get this "$super" in
     let* d := get pa "$super" in
     set this "$super" d ;;
     let* result := call_fn host fuel f this args self in
     set this "$super" supez ;;
     ret result) s.
Proof.
  intros Hthis Hcp Hmap Hctor Heq Hp Hlen Hj Hs Hg Hf Hall.
  destruct (loc_of this) as [tl|] eqn:Etl; [clear Hthis | congruence].
  unfold dispatch, super_body.
  step (get_obj this tl "$super" s Etl).
  step Hcp. step Hctor. rewrite Heq, (truthy_loc _ Hp).
  destruct (get_other_key _ _ _ _ "$super" Hg) as [d Hd].
  step (target_of_method_found fuel child parent this caller s cp n j
          pa f Hcp Hmap Hp Hlen Hj Hs Hg Hf Hall tl d Etl Hd).
  rewrite Hf. symmetry.
  step (get_obj this tl "$super" s Etl).
  step Hd. step (set_super this tl d s Etl).
  reflexivity.
Qed.

(** C6 (amended): a dispatcher call that returns normally either
    resolved no target and did nothing, or resolved a target function
    [f].  Unless [f] was reached from the constructor and is not a class
    (then the binding is left as it is), [$super] of the receiver is
    bound to the [$super] of the member table of the parent that
    supplied [f] while [f] runs.  In both cases [f] runs on the original
    receiver and arguments, [$super] of the receiver is bound afterwards
    to what it was before the call, and the result of [f] is returned. *)
Theorem super_rebinds_and_restores fuel self child parent this caller args
    s cp ctor tl r s' :
  loc_of this = Some tl ->
  tl < length (st_heap s) ->
  get child "prototype" s = Ret cp s ->
  isMap (st_heap s) cp = true ->
  get cp "constructor" s = Ret ctor s ->
  dispatch host fuel self child parent this caller args s = Ret r s' ->
  tl < length (st_heap s') ->
  (r = VUndef /\ s' = s)
  \/ exists f s1 s2,
       isFunction f = true
       /\ ((strict_eq caller ctor = true /\ isClass f s = Ret false s
            /\ s1 = s)
           \/ exists p pa d,
                parent_scope p s = Ret pa s
                /\ get pa "$super" s = Ret d s
                /\ (f = p
                    \/ get pa (to_key (method_name (st_heap s) cp caller)) s
                       = Ret f s)
                /\ s1 = with_heap s (write (st_heap s) tl "$super" d)
                /\ get this "$super" s1 = Ret d s1)
       /\ call_fn host fuel f this args self s1 = Ret r s2
       /\ s' = with_heap s2 (write (st_heap s2) tl "$super"
                               (lookup_prop (st_heap s) tl "$super"))
       /\ get this "$super" s'
          = Ret (lookup_prop (st_heap s) tl "$super") s'.
Proof.
  intros Etl Hal Hcp Hmap Hctor H Hal'.
  unfold dispatch, super_body in H.
  rewrite (bind_step _ _ _ _ _ (get_obj this tl "$super" s Etl)) in H.
  rewrite (bind_step _ _ _ _ _ Hcp) in H.
  rewrite (bind_step _ _ _ _ _ Hctor) in H.
  apply bind_Ret in H as (func & s1 & Ht & H).
  assert ((isFunction func = false /\ s1 = s)
          \/ (isFunction func = true
              /\ ((strict_eq caller ctor = true
                   /\ isClass func s = Ret false s /\ s1 = s)
                  \/ exists p pa d,
                       parent_scope p s = Ret pa s
                       /\ get pa "$super" s = Ret d s
                       /\ (func = p
                           \/ get pa (to_key (method_name (st_heap s) cp
                                                caller)) s
                              = Ret func s)
                       /\ s1 = with_heap s
                                 (write (st_heap s) tl "$super" d))))
    as Hphase.
  { destruct (strict_eq caller ctor).
    - destruct (target_of_constructor_inv _ _ _ _ _ _ Etl Ht)
        as [? | [(Hf & Hc & ->) | (Hf & pa & d & Hs & Hd & E)]];
        [left; assumption | right; split; [exact Hf | left; auto] |].
      right. split; [exact Hf|]. right. exists func, pa, d. auto.
    - destruct (truthy parent).
      + destruct (target_of_method_inv _ _ _ _ _ _ _ _ _ _ Etl Hcp Hmap Ht)
          as [? | (Hf & p & pa & d & Hs & Hg & Hd & E)]; [left; assumption|].
        right. split; [exact Hf|]. right. exists p, pa, d. auto.
      + inversion Ht; subst. left. auto. }
  destruct Hphase as [[Hnf ->] | (Hf & Hphase)].
  - rewrite Hnf in H. inversion H; subst. left. auto.
  - rewrite Hf in H.
    apply bind_Ret in H as (r0 & s2 & Hcall & H).
    apply bind_Ret in H as (u & s3 & Hset & H).
    inversion H; subst r0 s3. clear H.
    rewrite (set_super this tl _ s2 Etl) in Hset.
    inversion Hset; subst s'. clear Hset.
    right. exists func, s1, s2.
    split; [exact Hf|]. split; [|split; [exact Hcall | split; [reflexivity|]]].
    + destruct Hphase as [? | (p & pa & d & Hs & Hd & Hrel & ->)];
        [left; assumption|].
      right. exists p, pa, d. repeat (split; [assumption|]).
      split; [reflexivity|].
      rewrite (get_obj this tl "$super" _ Etl). simpl st_heap.
      rewrite lookup_write_same by exact Hal. reflexivity.
    + rewrite (get_obj this tl "$super" _ Etl). simpl st_heap.
      simpl in Hal'. rewrite write_length in Hal'.
      rewrite lookup_write_same by exact Hal'. reflexivity.
Qed.
End DispatchClaims.

Lemma super_without_target_witness :
  dispatch host_ex 1 dw_super dw_C dw_parents dw_c dw_f1 [VNum 9] dw
  = Ret VUndef dw.
Proof.
  apply (super_without_target host_ex 1 dw_super dw_C dw_parents dw_c dw_f1
           [VNum 9] dw (VObj 24)).
  - discriminate.
  - reflexivity.
  - reflexivity.
  - right. right. exists dw_C, 2.
    split; [reflexivity|]. split; [reflexivity|].
    split; [discriminate|]. split; [reflexivity|].
    intros i Hi.
    destruct i as [|[|i]]; [| |lia].
    + exists (VObj 13), VUndef. repeat split; reflexivity.
    + exists (VObj 18), VUndef. repeat split; reflexivity.
Defined.

Lemma super_resolves_rightmost_witness :
  dispatch host_ex 1 dw_super dw_C dw_parents dw_c dw_f2 [VNum 9] dw
  = (let* supez := get dw_c "$super" in
     let* d := get (VObj 18) "$super" in
     set dw_c "$super" d ;;
     let* result := call_fn host_ex 1 dw_f2 dw_c [VNum 9] dw_super in
     set dw_c "$super" supez ;;
     ret result) dw.
Proof.
  apply (super_resolves_rightmost host_ex 1 dw_super dw_C dw_parents dw_c
           dw_f2 [VNum 9] dw (VObj 24) dw_C 2 1 (VObj 18) dw_f2).
  - discriminate.
  - reflexivity.
  - reflexivity.
  - reflexivity.
  - reflexivity.
  - discriminate.
  - reflexivity.
  - lia.
  - reflexivity.
  - reflexivity.
  - reflexivity.
  - intros i H1 H2. lia.
Defined.

(** In the world of the witness the call reaches [f2], the method of the
    second parent, and only it. *)
Example super_diamond_trace :
  map ev_fn
    (new_events dw (dispatch host_ex 1 dw_super dw_C dw_parents dw_c
                      dw_f2 [VNum 9] dw))
  = [dw_f2].
Proof. vm_compute. reflexivity. Qed.

Lemma super_rebinds_and_restores_witness :
  let s' := final (dispatch host_ex 1 dw_super dw_C dw_parents dw_c dw_f2
                     [VNum 9] dw) in
  (VNum 9 = VUndef /\ s' = dw)
  \/ exists f s1 s2,
       isFunction f = true
       /\ ((strict_eq dw_f2 dw_C = true /\ isClass f dw = Ret false dw
            /\ s1 = dw)
           \/ exists p pa d,
                parent_scope p dw = Ret pa dw
                /\ get pa "$super" dw = Ret d dw
                /\ (f = p
                    \/ get pa (to_key (method_name (st_heap dw) (VObj 24)
                                         dw_f2)) dw
                       = Ret f dw)
                /\ s1 = with_heap dw (write (st_heap dw) 27 "$super" d)
                /\ get dw_c "$super" s1 = Ret d s1)
       /\ call_fn host_ex 1 f dw_c [VNum 9] dw_super s1 = Ret (VNum 9) s2
       /\ s' = with_heap s2 (write (st_heap s2) 27 "$super"
                               (lookup_prop (st_heap dw) 27 "$super"))
       /\ get dw_c "$super" s'
          = Ret (lookup_prop (st_heap dw) 27 "$super") s'.
Proof.
  apply (super_rebinds_and_restores host_ex 1 dw_super dw_C dw_parents dw_c
           dw_f2 [VNum 9] dw (VObj 24) dw_C 27 (VNum 9)).
  - reflexivity.
  - vm_compute. lia.
  - reflexivity.
  - reflexivity.
  - reflexivity.
  - vm_compute. reflexivity.
  - vm_compute. lia.
Defined.

(** C6, as stated, fails when the first parent is a function that is not
    a class.  [F] returns the [$super] it finds on its receiver.  Called
    from the constructor of [C], the dispatcher of [C] resolves [F], runs
    it and returns normally, and what [F] found is the dispatcher of [C]
    itself: the binding was not changed for the call, although the
    [$super] of the member table of [F] is another value ([undefined]). *)
Lemma super_keeps_binding_for_plain_function :
  exists s',
    dispatch host_ex 1 pw_super pw_C pw_parents pw_c pw_C [] pw
    = Ret pw_super s'
    /\ map ev_fn (drop (length (st_trace pw)) (st_trace s')) = [pw_F]
    /\ map ev_res (drop (length (st_trace pw)) (st_trace s'))
       = [Some pw_super]
    /\ get pw_parents "0" pw = Ret pw_F pw
    /\ parent_scope pw_F pw = Ret pw_F pw
    /\ get pw_F "$super" pw = Ret VUndef pw.
Proof. eexists. vm_compute. repeat split. Qed.

(** ** The class factory and the ready plug-in *)

(** C4, as stated, fails on [P1 = Class({m: f1})], [P2 = Class({m: 5})],
    [C = Class([P1, P2], {m: fm})]: called from [fm] on an instance of
    [C], the dispatcher stops at [P2], whose [m] is the number 5, calls
    nothing and returns [undefined]; the implementation [f1] of [P1], the
    first one found in reverse order, is not invoked. *)
Lemma super_misses_method_behind_number :
  parent_at hw (VObj 21) 0 = VFun 12 CEmpty
  /\ parent_at hw (VObj 21) 1 = VFun 17 CEmpty
  /\ get (VObj 21) "length" hw = Ret (VNum 2) hw
  /\ (exists s', isClass (VFun 12 CEmpty) hw = Ret true s')
  /\ lookup_prop (st_heap hw) 13 "m" = VFun 7 (CHost 1)
  /\ lookup_prop (st_heap hw) 18 "m" = VNum 5
  /\ method_name (st_heap hw) (VObj 24) (VFun 9 (CHost 7)) = VStr "m"
  /\ dispatch host_ex 3 (VFun 25 (CSuper (VFun 23 CEmpty) (VObj 21)))
       (VFun 23 CEmpty) (VObj 21) (VObj 27) (VFun 9 (CHost 7)) [] hw
     = Ret VUndef hw.
Proof.
  split; [reflexivity|]. split; [reflexivity|]. split; [reflexivity|].
  split; [eexists; vm_compute; reflexivity|].
  split; [reflexivity|]. split; [reflexivity|]. split; [reflexivity|].
  vm_compute. reflexivity.
Qed.

(** C5, as stated, fails where [Object.prototype] has its built-in
    [toString]: with [P = Class({})] and [C = Class(P, {toString: f})],
    neither [P] nor its prototype defines [toString], yet the dispatcher
    called from [f] on an instance of [C] reaches the built-in through the
    prototype of [P], calls it on the instance and returns its result. *)
Lemma super_reaches_builtin :
  let d := VFun 20 (CSuper (VFun 18 CEmpty) (VObj 17)) in
  let run := dispatch host_builtin 3 d (VFun 18 CEmpty) (VObj 17) (VObj 22)
               (VFun 9 (CHost 1)) [] bw in
  get (VObj 17) "length" bw = Ret (VNum 1) bw
  /\ parent_at bw (VObj 17) 0 = VFun 12 CEmpty
  /\ own_at (st_heap bw) 12 "toString" = None
  /\ own_at (st_heap bw) 13 "toString" = None
  /\ forin_keys (st_heap bw) (VObj 13) = ["$super"]
  /\ method_name (st_heap bw) (VObj 19) (VFun 9 (CHost 1)) = VStr "toString"
  /\ (exists s', run = Ret (VStr "[object Object]") s')
  /\ new_events bw run
     = [Event (VFun 7 (CHost 9)) (VObj 22) []
          (Some (VStr "[object Object]"))].
Proof.
  split; [reflexivity|]. split; [reflexivity|]. split; [reflexivity|].
  split; [reflexivity|]. split; [vm_compute; reflexivity|].
  split; [reflexivity|].
  split; [eexists; vm_compute; reflexivity|].
  vm_compute. reflexivity.
Qed.

(** C2 fails on the code.  With [A] and [B] both registered, declaring
    [C = Class([A, B], {})] returns [C] after a single callback call,
    [fA.call(A, C, api, [A, B])], made by the one plug-in call of line
    187: the callback of [B], which is in the registry and in the parent
    list, is not called.  The counter of line 203 is shared by all
    registry entries, so from the second entry on only the first parent is
    compared. *)
Theorem ready_scan_skips_second_parent :
  st_ready rw = [(rw_A, rw_fA); (rw_B, rw_fB)]
  /\ get rw_parents "0" rw = Ret rw_A rw
  /\ get rw_parents "1" rw = Ret rw_B rw
  /\ exists C s',
       Class host_ex 3 rw_parents rw_api rw = Ret C s'
       /\ new_events rw (Class host_ex 3 rw_parents rw_api rw)
          = [Event rw_fA rw_A [C; rw_api; rw_parents] (Some VUndef);
             Event ready_plugin VUndef [C; rw_parents; rw_api]
               (Some VUndef)].
Proof.
  split; [reflexivity|]. split; [reflexivity|]. split; [reflexivity|].
  eexists. eexists. split; vm_compute; reflexivity.
Qed.

(** C1, as stated, fails on [Class({constructor: 5})]: the api is
    map-like, so the validation of line 171 passes, and construction
    still throws, a [TypeError] from line 183 ([extend] reads
    [object.prototype] of [undefined]). *)
Lemma Class_raises_on_map_api :
  isMap (st_heap (final badctor_world)) (VObj 7) = true
  /\ exists s',
       Class host_ex 3 (VObj 7) VUndef (final badctor_world)
       = Thr TypeError s'.
Proof. split; [reflexivity|]. eexists. vm_compute. reflexivity. Qed.

Section OkRules.
Variable I : state -> Prop.
Variable E : exn -> Prop.
(** The writes [o[k] = x] that keep [I]. *)
Variable W : loc -> string -> Prop.
Hypothesis E_type : E TypeError.
Hypothesis I_write : forall s l k x,
  I s -> W l k -> I (with_heap s (write (st_heap s) l k x)).
Hypothesis I_alloc : forall s objs, I s -> I (with_heap s (st_heap s ++ objs)).

Lemma ok_ret {A} (a : A) : ok I E (ret a).
Proof. intros s H. exact H. Qed.

Lemma ok_throw {A} e : E e -> ok I E (@throw A e).
Proof. intros He s H. exact He. Qed.

Lemma ok_diverge {A} : ok I E (@diverge A).
Proof. intros s H. exact Logic.I. Qed.

Lemma ok_gets {A} (f : state -> A) : ok I E (gets f).
Proof. intros s H. exact H. Qed.

Lemma ok_bind {A B} (m : M A) (k : A -> M B) :
  ok I E m -> (forall a, ok I E (k a)) -> ok I E (bind m k).
Proof.
  intros Hm Hk s H. unfold bind. specialize (Hm s H).
  destruct (m s) as [a s1| e s1 |]; [apply Hk; exact Hm | exact Hm | exact Logic.I].
Qed.

Lemma ok_get v k : ok I E (get v k).
Proof.
  intros s H. destruct (get_inv v k s) as [[x Hx] | Hx]; rewrite Hx;
    [exact H | exact E_type].
Qed.

Lemma ok_set v k x :
  (forall l, loc_of v = Some l -> W l k) -> ok I E (set v k x).
Proof.
  intros Hw s H. unfold set. destruct v; try exact H; try exact E_type.
  - cbn [read_only]. apply I_write; [exact H | apply Hw; reflexivity].
  - destruct (read_only (VFun l c) k); [exact H|].
    apply I_write; [exact H | apply Hw; reflexivity].
Qed.

Lemma ok_alloc o : ok I E (alloc o).
Proof. intros s H. simpl. apply I_alloc. exact H. Qed.

Lemma ok_new_object : ok I E new_object.
Proof. apply ok_bind; [apply ok_alloc | intros; apply ok_ret]. Qed.

Lemma ok_new_array vs : ok I E (new_array vs).
Proof. apply ok_bind; [apply ok_alloc | intros; apply ok_ret]. Qed.

Lemma ok_new_function c : ok I E (new_function c).
Proof. intros s H. simpl. apply I_alloc. exact H. Qed.

Lemma ok_isClass p : ok I E (isClass p).
Proof.
  unfold isClass. destruct (isFunction p); [|apply ok_ret].
  apply ok_bind; [apply ok_get | intros].
  apply ok_bind; [apply ok_get | intros]. apply ok_ret.
Qed.

Lemma ok_parent_scope p : ok I E (parent_scope p).
Proof.
  unfold parent_scope. apply ok_bind; [apply ok_isClass | intros c].
  destruct c; [apply ok_get | apply ok_ret].
Qed.

Section OkLoops.
Context {A : Type}.
Variable fn : value -> value -> value -> A -> M (value * A).
Hypothesis ok_fn : forall a b c x, ok I E (fn a b c x).

Lemma ok_index_loop n : forall inf i c a acc,
  ok I E (index_loop fn n inf i c a acc).
Proof.
  induction n as [|n IH]; intros inf i c a acc; simpl.
  - destruct inf; [apply ok_diverge | apply ok_ret].
  - apply ok_bind.
    + destruct c; try apply ok_get; apply ok_ret.
    + intros v. apply ok_bind; [apply ok_fn | intros [r a']].
      destruct (is_stop r); [apply ok_ret | apply IH].
Qed.

Lemma ok_key_loop keys : forall c a acc,
  ok I E (key_loop fn keys c a acc).
Proof.
  induction keys as [|k keys IH]; intros c a acc; simpl.
  - apply ok_ret.
  - apply ok_bind; [apply ok_gets | intros h].
    destruct (negb (mem_key k (forin_keys h c))); [apply IH|].
    apply ok_bind; [apply ok_get | intros v].
    apply ok_bind; [apply ok_fn | intros [r a']].
    destruct (is_stop r); [apply ok_ret | apply IH].
Qed.

Lemma ok_each_with fuel c a : ok I E (each_with fn fuel c a).
Proof.
  unfold each_with. destruct (negb (truthy c)); [apply ok_ret|].
  apply ok_bind; [apply ok_gets | intros h].
  apply ok_bind.
  - destruct (negb (isArray h c || isString c) && negb (isMap h c)
              && negb (isFunction c)); [|apply ok_ret].
    apply ok_bind; [apply ok_new_array | intros; apply ok_ret].
  - intros [c' ia]. destruct ia.
    + apply ok_bind; [apply ok_get | intros len].
      apply ok_bind; [|intros [rs a']; apply ok_ret].
      destruct len; try apply ok_ret; apply ok_index_loop.
    + apply ok_bind; [apply ok_gets | intros h'].
      apply ok_bind; [apply ok_key_loop | intros [rs a']; apply ok_ret].
Qed.
End OkLoops.
End OkRules.

Section OkCalls.
Variable host : nat -> value -> list value -> state -> outcome value.
Variable I : state -> Prop.
Variable E : exn -> Prop.
Variable W : loc -> string -> Prop.
Hypothesis E_type : E TypeError.
Hypothesis I_write : forall s l k x,
  I s -> W l k -> I (with_heap s (write (st_heap s) l k x)).
Hypothesis I_alloc : forall s objs, I s -> I (with_heap s (st_heap s ++ objs)).
Hypothesis I_log : forall s ev, I s -> I (with_trace s (st_trace s ++ [ev])).
Hypothesis I_push : forall s e,
  I s -> I (State (st_heap s) (st_ready s ++ [e]) (st_trace s)).
Hypothesis W_super : forall l, W l "$super".
Hypothesis I_host : host_ok host I E.

Lemma ok_find_name caller a b c x : ok I E (find_name caller a b c x).
Proof. unfold find_name. destruct (strict_eq b caller); apply ok_ret. Qed.

Lemma ok_search_parents n : forall inf parent name func pa,
  ok I E (search_parents n inf parent name func pa).
Proof.
  induction n as [|n IH]; intros inf parent name func pa; simpl.
  - destruct (inf && negb (truthy func)); [apply ok_diverge | apply ok_ret].
  - destruct (truthy func); [apply ok_ret|].
    apply ok_bind; [apply ok_get; exact E_type | intros p].
    apply ok_bind; [apply ok_parent_scope; exact E_type | intros pa'].
    apply ok_bind; [apply ok_get; exact E_type | intros f]. apply IH.
Qed.

Lemma ok_set_super v x : ok I E (set v "$super" x).
Proof.
  apply (ok_set I E W E_type I_write). intros l _. apply W_super.
Qed.

Lemma ok_target_of_constructor parent this :
  ok I E (target_of_constructor parent this).
Proof.
  unfold target_of_constructor. apply ok_bind.
  - destruct (truthy parent); [apply ok_get; exact E_type | apply ok_ret].
  - intros func. apply ok_bind; [apply ok_isClass; exact E_type | intros c].
    apply ok_bind; [|intros; apply ok_ret].
    destruct c; [|apply ok_ret].
    apply ok_bind; [apply ok_get; exact E_type | intros fp].
    apply ok_bind; [apply ok_get; exact E_type | intros d].
    apply ok_set_super.
Qed.

Lemma ok_target_of_method fuel child parent this caller :
  ok I E (target_of_method fuel child parent this caller).
Proof.
  unfold target_of_method.
  apply ok_bind; [apply ok_get; exact E_type | intros cp].
  apply ok_bind.
  { apply ok_each_with; [exact E_type | exact I_alloc |].
    intros. apply ok_find_name. }
  intros [rs name].
  apply ok_bind; [apply ok_get; exact E_type | intros len].
  apply ok_bind.
  { destruct len; try apply ok_ret; apply ok_search_parents. }
  intros [func pa]. apply ok_bind; [|intros; apply ok_ret].
  destruct (isFunction func); [|apply ok_ret].
  apply ok_bind; [apply ok_get; exact E_type | intros d].
  apply ok_set_super.
Qed.

Lemma ok_super_body apply fuel child parent this caller args :
  (forall g t a, ok I E (apply g t a)) ->
  ok I E (super_body apply fuel child parent this caller args).
Proof.
  intros Hap. unfold super_body.
  apply ok_bind; [apply ok_get; exact E_type | intros supez].
  apply ok_bind; [apply ok_get; exact E_type | intros cp].
  apply ok_bind; [apply ok_get; exact E_type | intros ctor].
  apply ok_bind.
  { destruct (strict_eq caller ctor); [apply ok_target_of_constructor|].
    destruct (truthy parent); [apply ok_target_of_method | apply ok_ret]. }
  intros func. destruct (isFunction func); [|apply ok_ret].
  apply ok_bind; [apply Hap | intros r].
  apply ok_bind; [apply ok_set_super | intros; apply ok_ret].
Qed.

Lemma ok_logged f this args m : ok I E m -> ok I E (logged f this args m).
Proof.
  intros Hm s H. unfold logged. specialize (Hm s H).
  destruct (m s); [apply I_log; exact Hm | exact Hm | exact Logic.I].
Qed.

Lemma ok_run_host id this args : ok I E (run_host host id this args).
Proof.
  intros s H. unfold run_host. specialize (I_host id this args s H).
  destruct (host id this args s); exact I_host.
Qed.

Lemma ok_push_ready entry : ok I E (push_ready entry).
Proof. intros s H. apply I_push. exact H. Qed.

Section OkReady.
Variable apply : value -> value -> list value -> M value.
Hypothesis ok_apply : forall g t a, ok I E (apply g t a).

Lemma ok_ready_inner_with clazz api parent len entry pa i c count :
  ok I E (ready_inner_with apply clazz api parent len entry pa i c count).
Proof.
  unfold ready_inner_with. destruct entry as [[e0 e1]|];
    [|apply ok_throw; exact E_type].
  apply ok_bind.
  - destruct (strict_eq pa e0); [|apply ok_ret].
    apply ok_bind; [apply ok_apply | intros; apply ok_ret].
  - intros _. destruct (count_ge count len); apply ok_ret.
Qed.

Lemma ok_ready_scan_with fuel n : forall i clazz api parent len count,
  ok I E (ready_scan_with apply fuel n i clazz api parent len count).
Proof.
  induction n as [|n IH]; intros i clazz api parent len count; simpl.
  - apply ok_ret.
  - apply ok_bind; [apply ok_gets | intros entries].
    apply ok_bind.
    + apply ok_each_with; [exact E_type | exact I_alloc |].
      intros. apply ok_ready_inner_with.
    + intros [rs count']. apply IH.
Qed.

Lemma ok_plugin_ready_with fuel clazz parent api :
  ok I E (plugin_ready_with apply fuel clazz parent api).
Proof.
  unfold plugin_ready_with.
  apply ok_bind; [apply ok_get; exact E_type | intros r].
  apply ok_bind.
  { destruct (truthy parent); [apply ok_get; exact E_type | apply ok_ret]. }
  intros len. apply ok_bind; [apply ok_gets | intros n].
  apply ok_bind; [apply ok_ready_scan_with | intros _].
  destruct (isFunction r); [|apply ok_ret].
  apply ok_bind; [apply ok_apply | intros _]. apply ok_push_ready.
Qed.
End OkReady.

Lemma ok_call_fn fuel : forall f this args caller,
  ok I E (call_fn host fuel f this args caller).
Proof.
  induction fuel as [|n IH]; intros f this args caller;
    destruct f as [| |b|m| |str|l|l c]; simpl; try (apply ok_throw; exact E_type);
    destruct c; try (apply ok_logged; apply ok_run_host);
    try (apply ok_logged; apply ok_ret); try apply ok_diverge.
  - apply ok_logged. apply ok_super_body. intros. apply IH.
  - apply ok_logged. apply ok_bind; [|intros; apply ok_ret].
    apply ok_plugin_ready_with. intros. apply IH.
Qed.

Lemma ok_makeSuper child parent : ok I E (makeSuper child parent).
Proof.
  unfold makeSuper.
  apply ok_bind; [apply ok_get; exact E_type | intros cp].
  apply ok_bind; [apply ok_new_function; exact I_alloc | intros f].
  apply ok_set_super.
Qed.

Lemma ok_ready_inner fuel clazz api parent len entry pa i c count :
  ok I E (ready_inner host fuel clazz api parent len entry pa i c count).
Proof. apply ok_ready_inner_with. intros. apply ok_call_fn. Qed.

Lemma ok_ready_scan fuel n i clazz api parent len count :
  ok I E (ready_scan host fuel n i clazz api parent len count).
Proof. apply ok_ready_scan_with. intros. apply ok_call_fn. Qed.

Lemma ok_plugin_ready fuel clazz parent api :
  ok I E (plugin_ready host fuel clazz parent api).
Proof. apply ok_plugin_ready_with. intros. apply ok_call_fn. Qed.

Lemma ok_run_plugins fuel clazz parent api :
  ok I E (run_plugins host fuel clazz parent api).
Proof.
  unfold run_plugins.
  apply ok_bind; [apply ok_get; exact E_type | intros plugins].
  apply ok_bind; [|intros; apply ok_ret].
  apply ok_each_with; [exact E_type | exact I_alloc |].
  intros a b c x. unfold plugin_cb.
  apply ok_bind; [apply ok_call_fn | intros; apply ok_ret].
Qed.

Lemma ok_make_clazz fuel singleton constructor :
  ok I E (make_clazz host fuel singleton constructor).
Proof.
  unfold make_clazz.
  destruct (truthy singleton); [apply ok_new_object; exact I_alloc|].
  destruct (truthy constructor); [|apply ok_new_function; exact I_alloc].
  apply ok_bind; [apply ok_get; exact E_type | intros ov].
  destruct (truthy ov); [apply ok_call_fn | apply ok_ret].
Qed.
End OkCalls.

Section OkCompose.
Variable host : nat -> value -> list value -> state -> outcome value.
Variable I : state -> Prop.
Variable E : exn -> Prop.
Variable ik : list string.
Hypothesis E_type : E TypeError.
(** [I] survives the writes of a copy that ignores [ik] and the writes of
    [$super]. *)
Hypothesis I_write : forall s l k x,
  I s -> mem_key k ik = false \/ k = "$super" ->
  I (with_heap s (write (st_heap s) l k x)).
Hypothesis I_alloc : forall s objs, I s -> I (with_heap s (st_heap s ++ objs)).
Hypothesis I_log : forall s ev, I s -> I (with_trace s (st_trace s ++ [ev])).
Hypothesis I_push : forall s e,
  I s -> I (State (st_heap s) (st_ready s ++ [e]) (st_trace s)).
Hypothesis I_host : host_ok host I E.

Let W : loc -> string -> Prop :=
  fun _ k => mem_key k ik = false \/ k = "$super".

Lemma I_write_W : forall s l k x,
  I s -> W l k -> I (with_heap s (write (st_heap s) l k x)).
Proof. intros s l k x H Hw. apply I_write; assumption. Qed.

Lemma ok_copier object oPrototype iClass key val c u :
  ok I E (copier ik object oPrototype iClass key val c u).
Proof.
  unfold copier. destruct (mem_key (to_key key) ik) eqn:Hk; [apply ok_ret|].
  cbn [negb].
  apply ok_bind.
  { apply (ok_set I E W E_type I_write_W). intros l _. left. exact Hk. }
  intros _. apply ok_bind; [|intros _; apply ok_ret].
  destruct iClass; [|apply ok_ret].
  apply (ok_set I E W E_type I_write_W). intros l _. left. exact Hk.
Qed.

Lemma ok_extend fuel : forall object subject,
  ok I E (extend fuel object subject (Some ik)).
Proof.
  induction fuel as [|n IH]; intros object subject; simpl.
  - apply ok_diverge.
  - apply ok_bind; [apply ok_gets | intros h].
    destruct (isArray h subject).
    + apply ok_bind; [|intros; apply ok_ret].
      apply ok_each_with; [exact E_type | exact I_alloc |].
      intros a b c x. apply ok_bind; [apply IH | intros; apply ok_ret].
    + apply ok_bind; [apply ok_isClass; exact E_type | intros iClass].
      apply ok_bind; [apply ok_isClass; exact E_type | intros isSub].
      apply ok_bind; [apply ok_get; exact E_type | intros oP].
      apply ok_bind; [apply ok_gets | intros h'].
      apply ok_bind.
      { destruct (isMap h' subject); [|apply ok_ret].
        apply ok_bind; [|intros; apply ok_ret].
        apply ok_each_with; [exact E_type | exact I_alloc |].
        intros. apply ok_copier. }
      intros _. apply ok_bind.
      { destruct isSub; [|apply ok_ret].
        apply ok_bind; [apply ok_get; exact E_type | intros sp].
        apply ok_bind; [|intros; apply ok_ret].
        apply ok_each_with; [exact E_type | exact I_alloc |].
        intros. apply ok_copier. }
      intros _. destruct (iClass && isSub); [|apply ok_ret].
      apply ok_bind; [apply ok_get; exact E_type | intros sp]. apply IH.
Qed.

Lemma ok_parents fuel clazz parent :
  ok I E (each_with (fun p _ _ (_ : unit) =>
                       extend fuel clazz p (Some ik) ;; ret (VUndef, tt))
            fuel parent tt).
Proof.
  apply ok_each_with; [exact E_type | exact I_alloc |].
  intros a b c x. apply ok_bind; [apply ok_extend | intros; apply ok_ret].
Qed.

Lemma W_super_ik : forall l : loc, W l "$super".
Proof. intros l. right. reflexivity. Qed.

Lemma ok_compose fuel clazz parent api statics singleton :
  ok I E (compose fuel clazz parent api statics singleton ik).
Proof.
  unfold compose. apply ok_bind; [apply ok_parents | intros _].
  apply ok_bind.
  { destruct singleton; [apply ok_ret | apply ok_get; exact E_type]. }
  intros target. apply ok_bind; [apply ok_extend | intros _].
  apply ok_extend.
Qed.

Lemma ok_assemble fuel parent api constructor singleton statics :
  ok I E (assemble host fuel parent api constructor singleton statics ik).
Proof.
  unfold assemble. apply ok_bind.
  { apply (ok_make_clazz host I E W);
      solve [assumption | exact I_write_W | exact W_super_ik]. }
  intros clazz. apply ok_bind; [apply ok_compose | intros _].
  apply ok_bind.
  { destruct (truthy singleton); [apply ok_ret|].
    apply (ok_makeSuper I E W);
      solve [assumption | exact I_write_W | exact W_super_ik]. }
  intros _. apply ok_bind; [|intros _; apply ok_ret].
  apply (ok_run_plugins host I E W);
    solve [assumption | exact I_write_W | exact W_super_ik].
Qed.
End OkCompose.

Lemma mem_key_app k a b :
  mem_key k (a ++ b) = mem_key k a || mem_key k b.
Proof. unfold mem_key. apply existsb_app. Qed.

Lemma okv_bind {A B} I E (m : M A) (k : A -> M B) Q :
  okv I E m Q -> (forall a, Q a -> ok I E (k a)) -> ok I E (bind m k).
Proof.
  intros Hm Hk s H. unfold bind. specialize (Hm s H).
  destruct (m s) as [a s1| e s1 |]; [|exact Hm | exact Logic.I].
  destruct Hm as [HI HQ]. apply (Hk a HQ). exact HI.
Qed.

Section OkConstruct.
Variable host : nat -> value -> list value -> state -> outcome value.
Variable I : state -> Prop.
Variable E : exn -> Prop.
Hypothesis E_type : E TypeError.
(** [I] survives the writes of [$super] and of every key that line 167
    does not ignore: the keys of line 177 are only known when the
    declaration runs. *)
Hypothesis I_write : forall s l k x,
  I s -> mem_key k class_ignored = false \/ k = "$super" ->
  I (with_heap s (write (st_heap s) l k x)).
Hypothesis I_alloc : forall s objs, I s -> I (with_heap s (st_heap s ++ objs)).
Hypothesis I_log : forall s ev, I s -> I (with_trace s (st_trace s ++ [ev])).
Hypothesis I_push : forall s e,
  I s -> I (State (st_heap s) (st_ready s ++ [e]) (st_trace s)).
Hypothesis I_host : host_ok host I E.

Lemma ok_collect_key a b c keys : ok I E (collect_key a b c keys).
Proof. apply ok_ret. Qed.

Lemma okv_class_ignored_keys fuel :
  okv I E (class_ignored_keys fuel)
      (fun ik => forall k, mem_key k ik = false ->
                           mem_key k class_ignored = false).
Proof.
  intros s HI. unfold class_ignored_keys.
  destruct (get_inv ClassObj "plugins" s) as [[x Hx] | Hx].
  - rewrite (bind_step _ _ _ _ _ Hx). unfold bind.
    pose proof (ok_each_with I E E_type I_alloc collect_key ok_collect_key
                  fuel x [] s HI) as Hok.
    destruct (each_with collect_key fuel x [] s) as [[r keys] s2| |];
      [|exact Hok | exact Logic.I].
    split; [exact Hok|]. intros k Hk. rewrite mem_key_app in Hk.
    apply orb_false_iff in Hk. apply Hk.
  - unfold bind. rewrite Hx. exact E_type.
Qed.

Lemma ok_construct fuel parent api : ok I E (construct host fuel parent api).
Proof.
  unfold construct. apply ok_bind; [apply ok_gets | intros h].
  apply ok_bind.
  { destruct (has_own h api "constructor");
      [apply ok_get; exact E_type | apply ok_ret]. }
  intros ctor. apply ok_bind; [apply ok_get; exact E_type | intros sing].
  apply ok_bind; [apply ok_get; exact E_type | intros statics].
  apply (okv_bind I E _ _ _ (okv_class_ignored_keys fuel)).
  intros ik Hik. apply (ok_assemble host I E ik); try assumption.
  intros s l k x HI [Hk | Hk]; apply I_write; auto.
Qed.
End OkConstruct.

Section TraceGrows.
Variable host : nat -> value -> list value -> state -> outcome value.

Lemma call_fn_grows fuel f this args caller t0 :
  ok (extends_trace t0) (fun _ => True)
     (call_fn host fuel f this args caller).
Proof.
  apply (ok_call_fn host (extends_trace t0) (fun _ => True)
           (fun _ _ => True)); auto.
  - intros s ev [evs H]. exists (evs ++ [ev]). simpl.
    rewrite H, app_assoc. reflexivity.
  - intros id this' args' s [evs H].
    destruct (host id this' args' s); auto. exists evs. exact H.
Qed.

Lemma call_fn_logs fuel f this args caller s v s' :
  call_fn host fuel f this args caller s = Ret v s' ->
  exists nested,
    st_trace s' = st_trace s ++ nested ++ [Event f this args (Some v)].
Proof.
  destruct f as [| |b|m| |str|l|l c]; try (destruct fuel; discriminate).
  destruct c as [id| |child parent|].
  - intros H. apply call_host_trace in H. exists []. exact H.
  - destruct fuel; simpl; unfold logged, ret; intros H; inversion H; subst;
      exists []; reflexivity.
  - destruct fuel as [|n]; [discriminate|]. simpl. unfold logged.
    pose proof (ok_super_body (extends_trace (st_trace s)) (fun _ => True)
                  (fun _ _ => True) Logic.I
                  ltac:(auto) ltac:(auto) (fun _ => Logic.I)
                  (fun g t a =>
                     call_fn host n g t a (VFun l (CSuper child parent)))
                  n child parent this caller args
                  ltac:(intros; apply call_fn_grows)
                  s ltac:(exists []; rewrite app_nil_r; reflexivity)) as Hok.
    destruct (super_body _ n child parent this caller args s)
      as [r s1| |]; try discriminate.
    destruct Hok as [evs Hevs]. intros H. inversion H; subst.
    exists evs. simpl. rewrite Hevs, app_assoc. reflexivity.
  - destruct fuel as [|n]; [discriminate|]. simpl. unfold logged.
    set (body := plugin_ready_with _ n _ _ _ ;; ret VUndef).
    assert (Hok : ok (extends_trace (st_trace s)) (fun _ => True) body).
    { apply ok_bind; [|intros; apply ok_ret].
      apply ok_plugin_ready_with; auto. intros. apply call_fn_grows. }
    specialize (Hok s ltac:(exists []; rewrite app_nil_r; reflexivity)).
    destruct (body s) as [r s1| |]; try discriminate.
    destruct Hok as [evs Hevs]. intros H. inversion H; subst.
    exists evs. simpl. rewrite Hevs, app_assoc. reflexivity.
Qed.
End TraceGrows.

Lemma each_with_map {A} (fn : value -> value -> value -> A -> M (value * A))
    fuel a x s :
  isMap (st_heap s) (VObj a) = true ->
  each_with fn fuel (VObj a) x s
  = (let* (result, x') :=
       key_loop fn (forin_keys (st_heap s) (VObj a)) (VObj a) x [] in
     ret (Some result, x')) s.
Proof.
  intros Hmap. pose proof (isMap_not_isArray _ _ Hmap) as Hna.
  unfold each_with. cbn [truthy negb].
  unfold bind at 1. unfold gets at 1. cbv beta iota.
  rewrite Hna, Hmap. cbn [orb negb andb isString isFunction].
  unfold bind at 1. unfold ret at 1. cbv beta iota.
  unfold bind at 1. unfold gets at 1. cbv beta iota. reflexivity.
Qed.

Section ClassClaims.
Variable host : nat -> value -> list value -> state -> outcome value.

(** C1 (amended): as long as no user function throws the string
    "Invalid params" itself, [Class] raises that signal exactly when the
    resolved api is not map-like.  A map-like api passes the validation;
    what construction does afterwards can still fail with other
    exceptions. *)
Theorem invalid_iff_not_map fuel parent api s parent' api' s1 :
  host_ok host (fun _ => True) (fun e => e <> Thrown (VStr INVALID)) ->
  resolve host fuel parent api s = Ret (parent', api') s1 ->
  (exists s', Class host fuel parent api s = Thr (Thrown (VStr INVALID)) s')
  <-> isMap (st_heap s1) api' = false.
Proof.
  intros Hhost Hres. unfold Class. step Hres.
  unfold bind at 1. unfold gets at 1. cbv beta iota.
  destruct (isMap (st_heap s1) api') eqn:Hmap; cbn [negb]; cbv iota.
  - split; [|discriminate]. intros [s' H].
    pose proof (ok_construct host (fun _ => True)
                  (fun e => e <> Thrown (VStr INVALID))
                  ltac:(discriminate) ltac:(auto) ltac:(auto) ltac:(auto)
                  ltac:(auto) Hhost fuel parent' api' s1 Logic.I) as Hok.
    rewrite H in Hok. congruence.
  - split; [reflexivity|]. intros _. exists s1. reflexivity.
Qed.

Lemma Class_ends_with_plugins fuel parent api s clazz s' :
  Class host fuel parent api s = Ret clazz s' ->
  exists parent' api' s1 sp,
    resolve host fuel parent api s = Ret (parent', api') s1
    /\ isMap (st_heap s1) api' = true
    /\ run_plugins host fuel clazz parent' api' sp = Ret tt s'.
Proof.
  unfold Class. intros H.
  apply bind_Ret in H as ([parent' api'] & s1 & Hres & H).
  apply bind_Ret in H as (h & s0 & Hh & H).
  inversion Hh; subst h s0. clear Hh.
  destruct (isMap (st_heap s1) api') eqn:Hmap; [|discriminate].
  cbn [negb] in H. unfold construct in H.
  apply bind_Ret in H as (h & s0 & Hh & H).
  inversion Hh; subst h s0. clear Hh.
  apply bind_Ret in H as (ctor & s2 & _ & H).
  apply bind_Ret in H as (sing & s3 & _ & H).
  apply bind_Ret in H as (statics & s4 & _ & H).
  apply bind_Ret in H as (ik & s5 & _ & H).
  unfold assemble in H.
  apply bind_Ret in H as (cl & s6 & _ & H).
  apply bind_Ret in H as (u1 & s7 & _ & H).
  apply bind_Ret in H as (u2 & s8 & _ & H).
  apply bind_Ret in H as (u3 & s9 & Hplug & H).
  inversion H; subst cl s9. destruct u3.
  exists parent', api', s1, s8. auto.
Qed.

(** With the table the library ships, line 187 is one call of the
    plug-in. *)
Lemma run_shipped_plugins fuel clazz parent api sp l :
  shipped_plugins sp l ->
  run_plugins host fuel clazz parent api sp
  = (call_fn host fuel (VFun l CReady) VUndef [clazz; parent; api]
       lib_caller ;;
     ret tt) sp.
Proof.
  intros (t & Ht & Hmap & Hkeys & Hr). unfold run_plugins.
  rewrite (bind_step _ _ _ _ _ (get_obj ClassObj ClassFn "plugins" sp
                                  eq_refl)).
  rewrite Ht. unfold bind at 1.
  rewrite (each_with_map _ _ _ _ _ Hmap), Hkeys.
  unfold bind at 1. rewrite key_loop_cons, Hkeys.
  cbn [mem_key existsb String.eqb Ascii.eqb Bool.eqb orb].
  rewrite (bind_step _ _ _ _ _ (get_obj (VObj t) t "$ready" sp eq_refl)).
  rewrite Hr. unfold plugin_cb at 1. unfold bind.
  destruct (call_fn host fuel (VFun l CReady) VUndef [clazz; parent; api]
              lib_caller sp) as [v s2 | e s2 |]; reflexivity.
Qed.

(** A call of the plug-in of line 193 is a run of its body, logged. *)
Lemma ready_plugin_call fuel l clazz parent api caller sa v sb :
  call_fn host fuel (VFun l CReady) VUndef [clazz; parent; api] caller sa
  = Ret v sb ->
  exists n sm,
    fuel = S n /\ v = VUndef
    /\ plugin_ready host n clazz parent api sa = Ret tt sm
    /\ sb = with_trace sm
              (st_trace sm
               ++ [Event (VFun l CReady) VUndef [clazz; parent; api]
                     (Some VUndef)]).
Proof.
  destruct fuel as [|n]; [discriminate|]. cbn [call_fn nth]. unfold logged.
  fold (plugin_ready host n clazz parent api). unfold bind.
  destruct (plugin_ready host n clazz parent api sa) as [[] sm | |] eqn:Hrun;
    try discriminate.
  unfold ret. intros H. inversion H; subst. exists n, sm.
  split; [reflexivity|]. split; [reflexivity|].
  split; [exact Hrun | reflexivity].
Qed.

(** The call of line 208 and the registration of line 209. *)
Lemma plugin_ready_own_call fuel clazz parent api sp s' r :
  plugin_ready host fuel clazz parent api sp = Ret tt s' ->
  get api "$ready" sp = Ret r sp ->
  isFunction r = true ->
  exists s3 s4 v nested,
    (exists len count,
       ready_scan host fuel (length (st_ready sp)) 0 clazz api parent len 0
         sp = Ret count s3)
    /\ call_fn host fuel r clazz [clazz; api; parent] lib_caller s3
       = Ret v s4
    /\ st_trace s4
       = st_trace s3 ++ nested ++ [Event r clazz [clazz; api; parent] (Some v)]
    /\ s' = State (st_heap s4) (st_ready s4 ++ [(clazz, r)]) (st_trace s4).
Proof.
  intros Hplug Hr Hfun. unfold plugin_ready, plugin_ready_with in Hplug.
  rewrite (bind_step _ _ _ _ _ Hr) in Hplug.
  apply bind_Ret in Hplug as (len & s0 & Hlen & Hplug).
  assert (s0 = sp) as ->.
  { destruct (truthy parent); [eapply get_Ret; exact Hlen|].
    inversion Hlen; reflexivity. }
  apply bind_Ret in Hplug as (n & s0 & Hn & Hplug).
  inversion Hn; subst n s0. clear Hn.
  apply bind_Ret in Hplug as (count & s3 & Hscan & Hplug).
  rewrite Hfun in Hplug.
  apply bind_Ret in Hplug as (v & s4 & Hcall & Hplug).
  inversion Hplug; subst s'. clear Hplug.
  destruct (call_fn_logs _ _ _ _ _ _ _ _ _ Hcall) as [nested Hnested].
  exists s3, s4, v, nested.
  split; [exists len, count; exact Hscan|].
  split; [exact Hcall|]. split; [exact Hnested | reflexivity].
Qed.

(** C10 (amended): a construction that returns ends with the loop of line
    187 over [Class.plugins].  When the table is the one the library
    ships, that loop is one call of the ready plug-in on the new class,
    the resolved parent list and the resolved api.  When the api holds a
    function [r] under [$ready] at that point, the plug-in scans the
    registry, in which [r] may already be called for a parent registered
    with it, and then makes the call [r.call(clazz, clazz, api, parent)]:
    that call comes after every call of the scan, the registry it runs on
    does not hold the new entry, and [(clazz, r)] is appended to the
    registry once the call has returned; the return of the plug-in is the
    last event of the construction. *)
Theorem ready_called_then_registered fuel parent api s clazz s' :
  Class host fuel parent api s = Ret clazz s' ->
  exists parent' api' s1 sp,
    resolve host fuel parent api s = Ret (parent', api') s1
    /\ run_plugins host fuel clazz parent' api' sp = Ret tt s'
    /\ forall l r,
         shipped_plugins sp l ->
         get api' "$ready" sp = Ret r sp ->
         isFunction r = true ->
         exists n s3 s4 v nested,
           fuel = S n
           /\ (exists len count,
                 ready_scan host n (length (st_ready sp)) 0 clazz api'
                   parent' len 0 sp = Ret count s3)
           /\ call_fn host n r clazz [clazz; api'; parent'] lib_caller s3
              = Ret v s4
           /\ st_trace s4
              = st_trace s3 ++ nested
                ++ [Event r clazz [clazz; api'; parent'] (Some v)]
           /\ s' = State (st_heap s4) (st_ready s4 ++ [(clazz, r)])
                         (st_trace s4
                          ++ [Event (VFun l CReady) VUndef
                                [clazz; parent'; api'] (Some VUndef)]).
Proof.
  intros H.
  destruct (Class_ends_with_plugins _ _ _ _ _ _ H)
    as (parent' & api' & s1 & sp & Hres & _ & Hplug).
  exists parent', api', s1, sp. split; [exact Hres|]. split; [exact Hplug|].
  intros l r Hship Hr Hfun.
  rewrite (run_shipped_plugins _ _ _ _ _ _ Hship) in Hplug.
  apply bind_Ret in Hplug as (v0 & sb & Hcall & Hret).
  inversion Hret; subst sb. clear Hret.
  destruct (ready_plugin_call _ _ _ _ _ _ _ _ _ Hcall)
    as (n & sm & -> & _ & Hrun & ->).
  destruct (plugin_ready_own_call _ _ _ _ _ _ _ Hrun Hr Hfun)
    as (s3 & s4 & v & nested & Hscan & Hown & Htr & ->).
  exists n, s3, s4, v, nested. auto 10.
Qed.
End ClassClaims.

Lemma host_ex_returns E : host_ok host_ex (fun _ => True) E.
Proof.
  intros id this args s _. unfold host_ex.
  do 9 (destruct id as [|id]; [destruct args; try exact I;
                               destruct (get this "$super" s); exact I|]).
  destruct args; exact I.
Qed.

Lemma invalid_iff_not_map_witness :
  (exists s', Class host_ex 3 (VNum 5) VUndef init_state
              = Thr (Thrown (VStr INVALID)) s')
  <-> isMap (st_heap init_state) (VNum 5) = false.
Proof.
  apply (invalid_iff_not_map host_ex 3 (VNum 5) VUndef init_state
           (VNum 0) (VNum 5) init_state).
  - apply host_ex_returns.
  - reflexivity.
Defined.

Lemma ready_called_then_registered_witness :
  let s := final ready1_world in
  let clazz := VFun 10 CEmpty in
  let s' := final (Class host_ex 3 (VObj 9) VUndef s) in
  exists parent' api' s1 sp,
    resolve host_ex 3 (VObj 9) VUndef s = Ret (parent', api') s1
    /\ run_plugins host_ex 3 clazz parent' api' sp = Ret tt s'
    /\ forall l r,
         shipped_plugins sp l ->
         get api' "$ready" sp = Ret r sp ->
         isFunction r = true ->
         exists n s3 s4 v nested,
           3 = S n
           /\ (exists len count,
                 ready_scan host_ex n (length (st_ready sp)) 0 clazz api'
                   parent' len 0 sp = Ret count s3)
           /\ call_fn host_ex n r clazz [clazz; api'; parent'] lib_caller s3
              = Ret v s4
           /\ st_trace s4
              = st_trace s3 ++ nested
                ++ [Event r clazz [clazz; api'; parent'] (Some v)]
           /\ s' = State (st_heap s4) (st_ready s4 ++ [(clazz, r)])
                         (st_trace s4
                          ++ [Event (VFun l CReady) VUndef
                                [clazz; parent'; api'] (Some VUndef)]).
Proof.
  apply (ready_called_then_registered host_ex 3 (VObj 9) VUndef
           (final ready1_world) (VFun 10 CEmpty)
           (final (Class host_ex 3 (VObj 9) VUndef (final ready1_world)))).
  vm_compute. reflexivity.
Defined.

(** In the world of the witness: the plug-in table is the shipped one,
    the callback is called once, with the class as receiver and first
    argument, by the one call of the plug-in, and the registry gets one
    entry. *)
Example ready_once :
  let s' := final (Class host_ex 3 (VObj 9) VUndef (final ready1_world)) in
  shipped_plugins (final ready1_world) 5
  /\ st_trace s'
     = [Event (VFun 7 (CHost 1)) (VFun 10 CEmpty)
          [VFun 10 CEmpty; VObj 9; VNum 0] (Some VUndef);
        Event ready_plugin VUndef [VFun 10 CEmpty; VNum 0; VObj 9]
          (Some VUndef)]
  /\ st_ready s' = [(VFun 10 CEmpty, VFun 7 (CHost 1))].
Proof.
  split; [exists 4; repeat split|]. vm_compute. split; reflexivity.
Qed.

(** C10, as stated, fails in two ways.  A callback shared with a parent
    runs twice while the derived class is declared: for
    [A = Class({$ready: f})] and [B = Class(A, {$ready: f})], the scan of
    line 201 calls [f] for [A] and line 208 calls it again for [B].  And a
    declaration that raises before line 187 never calls the callback:
    [Class({constructor: 5, $ready: f})] throws a [TypeError] at line 183
    and calls nothing. *)
Lemma ready_callback_twice_or_never :
  (exists B s',
     Class host_ex 3 (VFun 10 CEmpty) (VObj 14) (final twice_world)
     = Ret B s'
     /\ get (VObj 14) "$ready" (final twice_world)
        = Ret (VFun 7 (CHost 1)) (final twice_world)
     /\ map ev_fn
          (new_events (final twice_world)
             (Class host_ex 3 (VFun 10 CEmpty) (VObj 14) (final twice_world)))
        = [VFun 7 (CHost 1); VFun 7 (CHost 1); ready_plugin]
     /\ map ev_this
          (new_events (final twice_world)
             (Class host_ex 3 (VFun 10 CEmpty) (VObj 14) (final twice_world)))
        = [VFun 10 CEmpty; B; VUndef])
  /\ (exists s',
        Class host_ex 3 (VObj 9) VUndef (final never_world)
        = Thr TypeError s'
        /\ get (VObj 9) "$ready" (final never_world)
           = Ret (VFun 7 (CHost 1)) (final never_world)
        /\ new_events (final never_world)
             (Class host_ex 3 (VObj 9) VUndef (final never_world)) = []).
Proof.
  split.
  - eexists. eexists. split; [vm_compute; reflexivity|].
    split; [reflexivity|]. split; vm_compute; reflexivity.
  - eexists. split; [vm_compute; reflexivity|].
    split; [reflexivity|]. vm_compute. reflexivity.
Qed.

(** ** Composition: frames and effects *)

Lemma own_put_other ps k k' x :
  k <> k' -> own (put ps k' x) k = own ps k.
Proof.
  intros Hne. induction ps as [|[k0 p0] ps IH]; simpl.
  - destruct (String.eqb k k') eqn:E; [|reflexivity].
    apply String.eqb_eq in E. contradiction.
  - destruct (String.eqb k' k0) eqn:E1; simpl.
    + apply String.eqb_eq in E1. subst k0.
      destruct (String.eqb k k') eqn:E2; [|reflexivity].
      apply String.eqb_eq in E2. contradiction.
    + rewrite IH. reflexivity.
Qed.

Lemma own_at_write_same (h : heap) l (k : string) (x : value) :
  l < length h -> exists e, own_at (write h l k x) l k = Some (Prop_ x e).
Proof.
  intros Hl. unfold own_at, write.
  destruct (lookup_lt_is_Some_2 h l Hl) as [o Ho]. rewrite Ho.
  rewrite list_lookup_insert_eq by lia. simpl. apply own_put_same.
Qed.

Lemma own_at_write_other_key (h : heap) l i (k k' : string) (x : value) :
  k <> k' -> own_at (write h l k' x) i k = own_at h i k.
Proof.
  intros Hne. unfold own_at, write.
  destruct (h !! l) as [o|] eqn:Ho; [|reflexivity].
  destruct (Nat.eq_dec l i) as [<- | Hli].
  - rewrite list_lookup_insert_eq by (eapply lookup_lt_Some; exact Ho).
    rewrite Ho. simpl. apply own_put_other. exact Hne.
  - rewrite list_lookup_insert_ne by exact Hli. reflexivity.
Qed.

Lemma write_lookup_other (h : heap) l i (k : string) (x : value) :
  l <> i -> write h l k x !! i = h !! i.
Proof.
  intros Hne. unfold write. destruct (h !! l); [|reflexivity].
  apply list_lookup_insert_ne. exact Hne.
Qed.

Lemma own_at_write_other_loc (h : heap) l i (k k' : string) (x : value) :
  l <> i -> own_at (write h l k' x) i k = own_at h i k.
Proof.
  intros Hne. unfold own_at. rewrite write_lookup_other by exact Hne.
  reflexivity.
Qed.

Lemma chain_locs_le n h : forall l i, In i (chain_locs n h l) -> i <= l.
Proof.
  induction n as [|n IH]; intros l i Hin; simpl in Hin; [contradiction|].
  destruct Hin as [<- | Hin]; [lia|].
  destruct (h !! l) as [o|]; [|contradiction].
  destruct (loc_of (o_proto o)) as [l'|]; [|contradiction].
  destruct (Nat.ltb l' l) eqn:Hlt; [|contradiction].
  apply Nat.ltb_lt in Hlt. apply IH in Hin. lia.
Qed.

Section Agree.
Variables h h' : heap.

Lemma agree_get_chain k n : forall l,
  (forall i, In i (chain_locs n h l) -> h' !! i = h !! i) ->
  get_chain n h' l k = get_chain n h l k.
Proof.
  induction n as [|n IH]; intros l Hag; simpl; [reflexivity|].
  rewrite (Hag l) by (simpl; auto).
  destruct (h !! l) as [o|] eqn:Ho; [|reflexivity].
  destruct (own (o_props o) k); [reflexivity|].
  destruct (loc_of (o_proto o)) as [l'|] eqn:Hp; [|reflexivity].
  destruct (Nat.ltb l' l) eqn:Hlt; [|reflexivity].
  apply IH. intros i Hi. apply Hag. simpl. right.
  rewrite Ho, Hp, Hlt. exact Hi.
Qed.

Lemma agree_forin_chain n : forall l seen,
  (forall i, In i (chain_locs n h l) -> h' !! i = h !! i) ->
  forin_chain n h' l seen = forin_chain n h l seen.
Proof.
  induction n as [|n IH]; intros l seen Hag; simpl; [reflexivity|].
  rewrite (Hag l) by (simpl; auto).
  destruct (h !! l) as [o|] eqn:Ho; [|reflexivity].
  destruct (loc_of (o_proto o)) as [l'|] eqn:Hp; [|reflexivity].
  destruct (Nat.ltb l' l) eqn:Hlt; [|reflexivity].
  f_equal. apply IH. intros i Hi. apply Hag. simpl. right.
  rewrite Ho, Hp, Hlt. exact Hi.
Qed.

Lemma agree_lookup_prop l k :
  (forall i, In i (proto_chain h l) -> h' !! i = h !! i) ->
  lookup_prop h' l k = lookup_prop h l k.
Proof. apply agree_get_chain. Qed.

Lemma agree_forin_keys l :
  (forall i, In i (proto_chain h l) -> h' !! i = h !! i) ->
  forin_keys h' (VObj l) = forin_keys h (VObj l).
Proof. apply agree_forin_chain. Qed.

Lemma agree_own_at l k :
  (forall i, In i (proto_chain h l) -> h' !! i = h !! i) ->
  own_at h' l k = own_at h l k.
Proof.
  intros Hag. unfold own_at. rewrite (Hag l); [reflexivity|].
  simpl. auto.
Qed.

Lemma agree_isMap l :
  (forall i, In i (proto_chain h l) -> h' !! i = h !! i) ->
  isMap h' (VObj l) = isMap h (VObj l).
Proof.
  intros Hag. unfold isMap, is_enumerable, own_of. simpl loc_of.
  rewrite (agree_lookup_prop l "length" Hag).
  rewrite (Hag l) by (simpl; auto). reflexivity.
Qed.
End Agree.

Lemma lookup_own (h : heap) l k pr :
  own_at h l k = Some pr -> lookup_prop h l k = p_val pr.
Proof.
  unfold own_at, lookup_prop. simpl.
  destruct (h !! l) as [o|]; [|discriminate].
  intros ->. reflexivity.
Qed.

Section Composing.
Variable hc : heap.
Variables c p : loc.
Variable e0 : bool.
Variable ik : list string.
Hypothesis ik_prototype : mem_key "prototype" ik = true.

Let Inv := composing hc c p e0.
Let E : exn -> Prop := fun _ => True.
Let W : loc -> string -> Prop :=
  fun l k => (l = c \/ l = p) /\ k <> "prototype".

Lemma composing_write s l k x :
  Inv s -> W l k -> Inv (with_heap s (write (st_heap s) l k x)).
Proof.
  intros (Hlen & Hfr & Hpr) [Hl Hk]. unfold Inv, composing. simpl.
  split; [rewrite write_length; exact Hlen|]. split.
  - intros i Hi Hc Hp. rewrite write_lookup_other; [apply Hfr; assumption|].
    destruct Hl; congruence.
  - rewrite own_at_write_other_key; [exact Hpr|]. congruence.
Qed.

Lemma composing_alloc s objs :
  Inv s -> Inv (with_heap s (st_heap s ++ objs)).
Proof.
  intros (Hlen & Hfr & Hpr). unfold Inv, composing. simpl.
  split; [rewrite length_app; lia|]. split.
  - intros i Hi Hc Hp. rewrite lookup_app_l by lia. apply Hfr; assumption.
  - unfold own_at in *. destruct (st_heap s !! c) as [o|] eqn:Ho;
      [|discriminate].
    rewrite lookup_app_l by (eapply lookup_lt_Some; exact Ho).
    rewrite Ho. exact Hpr.
Qed.

Lemma not_ignored_not_prototype k : mem_key k ik = false -> k <> "prototype".
Proof. intros H ->. congruence. Qed.

Lemma ok_copier_composing object oP iClass key val coll u :
  (loc_of object = Some c \/ loc_of object = Some p) ->
  (iClass = true -> loc_of oP = Some c \/ loc_of oP = Some p) ->
  ok Inv E (copier ik object oP iClass key val coll u).
Proof.
  intros Hobj HoP. unfold copier.
  destruct (mem_key (to_key key) ik) eqn:Hk; [apply ok_ret|]. cbn [negb].
  apply not_ignored_not_prototype in Hk.
  apply ok_bind.
  { apply (ok_set Inv E W Logic.I composing_write).
    intros l Hl. split; [|exact Hk]. destruct Hobj; [left | right]; congruence. }
  intros _. apply ok_bind; [|intros _; apply ok_ret].
  destruct iClass; [|apply ok_ret].
  apply (ok_set Inv E W Logic.I composing_write).
  intros l Hl. split; [|exact Hk].
  destruct (HoP eq_refl); [left | right]; congruence.
Qed.

Lemma okv_get_prototype clazz :
  loc_of clazz = Some c ->
  okv Inv E (get clazz "prototype") (fun v => v = VObj p).
Proof.
  intros Hc s HI. rewrite (get_obj clazz c "prototype" s Hc).
  split; [exact HI|]. destruct HI as (_ & _ & Hpr).
  rewrite (lookup_own _ _ _ _ Hpr). reflexivity.
Qed.

Lemma extend_composing clazz fuel :
  loc_of clazz = Some c ->
  forall object subject,
    object = clazz \/ object = VObj p ->
    ok Inv E (extend fuel object subject (Some ik)).
Proof.
  intros Hc. induction fuel as [|n IH]; intros object subject Hobj; simpl.
  - apply ok_diverge.
  - apply ok_bind; [apply ok_gets | intros h].
    destruct (isArray h subject).
    + apply ok_bind; [|intros; apply ok_ret].
      apply ok_each_with; [exact Logic.I | exact composing_alloc |].
      intros a b c0 x. apply ok_bind; [apply IH; exact Hobj |].
      intros; apply ok_ret.
    + apply (okv_bind Inv E _ _
               (fun iClass => object = VObj p -> iClass = false)).
      { intros s HI. destruct (isClass object s) as [b s1| |] eqn:Hb;
          [|exact Logic.I | exact Logic.I].
        apply isClass_state in Hb as Es. subst s1.
        split; [exact HI|]. intros ->.
        rewrite (isClass_not_function (VObj p) s eq_refl) in Hb.
        congruence. }
      intros iClass HiC.
      apply ok_bind; [apply ok_isClass; exact Logic.I | intros isSub].
      apply (okv_bind Inv E _ _
               (fun oP => object = clazz -> oP = VObj p)).
      { intros s HI.
        destruct (get_inv object "prototype" s) as [[x Hx] | Hx]; rewrite Hx;
          [|exact Logic.I].
        split; [exact HI|]. intros ->.
        pose proof (okv_get_prototype clazz Hc s HI) as Hq.
        rewrite Hx in Hq. apply Hq. }
      intros oP HoP.
      assert (Hcop : forall key val coll u,
                 ok Inv E (copier ik object oP iClass key val coll u)).
      { intros. apply ok_copier_composing.
        - destruct Hobj as [-> | ->]; [left; exact Hc | right; reflexivity].
        - intros ->. destruct Hobj as [-> | ->].
          + rewrite (HoP eq_refl). right. reflexivity.
          + specialize (HiC eq_refl). discriminate. }
      apply ok_bind; [apply ok_gets | intros h'].
      apply ok_bind.
      { destruct (isMap h' subject); [|apply ok_ret].
        apply ok_bind; [|intros; apply ok_ret].
        apply ok_each_with; [exact Logic.I | exact composing_alloc |].
        intros. apply Hcop. }
      intros _. apply ok_bind.
      { destruct isSub; [|apply ok_ret].
        apply ok_bind; [apply ok_get; exact Logic.I | intros sp].
        apply ok_bind; [|intros; apply ok_ret].
        apply ok_each_with; [exact Logic.I | exact composing_alloc |].
        intros. apply Hcop. }
      intros _. destruct iClass; [|apply ok_ret]. cbn [andb].
      destruct isSub; [|apply ok_ret].
      apply ok_bind; [apply ok_get; exact Logic.I | intros sp].
      apply IH. right. destruct Hobj as [-> | ->].
      * apply HoP. reflexivity.
      * specialize (HiC eq_refl). discriminate.
Qed.
End Composing.

Lemma mem_key_false_In k ks : mem_key k ks = false -> ~ In k ks.
Proof.
  unfold mem_key. intros H Hin.
  assert (existsb (String.eqb k) ks = true) as Ht; [|congruence].
  apply existsb_exists. exists k. split; [exact Hin | apply String.eqb_refl].
Qed.

Lemma own_enum_keys_In ps k pr : forall seen,
  own ps k = Some pr -> p_enum pr = true -> mem_key k seen = false ->
  In k (own_enum_keys ps seen).
Proof.
  induction ps as [|[k0 p0] ps IH]; intros seen Hown Hen Hseen;
    simpl in *; [discriminate|].
  destruct (String.eqb k k0) eqn:Ek.
  - apply String.eqb_eq in Ek. subst k0. inversion Hown; subst p0.
    rewrite Hseen, Hen. simpl. left. reflexivity.
  - destruct (mem_key k0 seen) eqn:E0; [apply IH; assumption|].
    apply in_or_app. right. apply IH; [assumption | assumption |].
    unfold mem_key in *. simpl. rewrite Ek. exact Hseen.
Qed.

Lemma insert_index_In x k n ks :
  In x (insert_index k n ks) <-> x = k \/ In x ks.
Proof.
  induction ks as [|k' r IH]; simpl.
  - intuition congruence.
  - destruct (index_of k') as [n'|].
    + destruct (Nat.leb n n'); simpl; [intuition congruence|].
      rewrite IH. intuition congruence.
    + simpl. intuition congruence.
Qed.

Lemma sort_indices_In x ks :
  In x (sort_indices ks) <-> In x ks /\ is_index x = true.
Proof.
  induction ks as [|k r IH]; simpl; [tauto|].
  unfold is_index in *. destruct (index_of k) as [n|] eqn:Ek.
  - rewrite insert_index_In, IH. split.
    + intros [-> | [H1 H2]]; [rewrite Ek; auto | auto].
    + intros [[<- | H1] H2]; auto.
  - rewrite IH. split.
    + intros [H1 H2]. auto.
    + intros [[<- | H1] H2]; [rewrite Ek in H2; discriminate | auto].
Qed.

(** The order of enumeration is a rearrangement of the keys. *)
Lemma js_order_In x ks : In x (js_order ks) <-> In x ks.
Proof.
  unfold js_order. rewrite in_app_iff, sort_indices_In, filter_In.
  destruct (is_index x); simpl; intuition congruence.
Qed.

Lemma forin_keys_own (h : heap) a k pr :
  own_at h a k = Some pr -> p_enum pr = true ->
  In k (forin_keys h (VObj a)).
Proof.
  unfold own_at, forin_keys. simpl.
  destruct (h !! a) as [o|]; [|discriminate].
  intros Hown Hen. apply in_or_app. left. apply js_order_In.
  eapply own_enum_keys_In; [exact Hown | exact Hen | reflexivity].
Qed.

Lemma set_own_at_other v key x s u s1 i k :
  set v key x s = Ret u s1 -> key <> k ->
  own_at (st_heap s1) i k = own_at (st_heap s) i k.
Proof.
  intros H Hne. unfold set in H.
  destruct v; try (inversion H; subst; reflexivity).
  - cbn [read_only] in H. inversion H; subst. simpl.
    apply own_at_write_other_key. congruence.
  - destruct (read_only _ _); inversion H; subst; [reflexivity|]. simpl.
    apply own_at_write_other_key. congruence.
Qed.

Lemma copier_other_key ik object oP iClass key val coll s r s1 k :
  copier ik object oP iClass (VStr key) val coll tt s = Ret r s1 ->
  key <> k ->
  r = (VUndef, tt)
  /\ forall i, own_at (st_heap s1) i k = own_at (st_heap s) i k.
Proof.
  intros H Hne. unfold copier in H. cbn [to_key] in H.
  destruct (negb (mem_key key ik)).
  - apply bind_Ret in H as (u1 & s2 & H1 & H).
    apply bind_Ret in H as (u2 & s3 & H2 & H).
    inversion H; subst. split; [reflexivity|]. intros i.
    transitivity (own_at (st_heap s2) i k).
    + destruct iClass; [|inversion H2; reflexivity].
      eapply set_own_at_other; [exact H2 | exact Hne].
    + eapply set_own_at_other; [exact H1 | exact Hne].
  - inversion H; subst. split; reflexivity.
Qed.

Section Effect.
Variable hc : heap.
Variables c p : loc.
Variable e0 : bool.
Variable ik : list string.
Hypothesis ik_prototype : mem_key "prototype" ik = true.
Hypothesis p_alloc : p < length hc.

(** The source of the copy: the map at [a], with [v] under the own key
    [k]; no lookup from it goes through [c] or [p]. *)
Variable a : loc.
Variable k : string.
Variable v : value.
Hypothesis a_own : own_at hc a k = Some (Prop_ v true).
Hypothesis a_map : isMap hc (VObj a) = true.
Hypothesis a_avoids :
  forall i, In i (proto_chain hc a) -> i <> c /\ i <> p.
Hypothesis k_copied : mem_key k ik = false.

Let Inv := composing hc c p e0.

Lemma a_allocated : a < length hc.
Proof.
  unfold own_at in a_own. destruct (hc !! a) as [o|] eqn:Ho; [|discriminate].
  eapply lookup_lt_Some. exact Ho.
Qed.

Lemma source_agrees s :
  Inv s -> forall i, In i (proto_chain hc a) -> st_heap s !! i = hc !! i.
Proof.
  intros (_ & Hfr & _) i Hi. destruct (a_avoids i Hi) as [Hc Hp].
  apply Hfr; [|exact Hc | exact Hp].
  apply chain_locs_le in Hi. pose proof a_allocated. lia.
Qed.

Lemma source_read s : Inv s -> get (VObj a) k s = Ret v s.
Proof.
  intros HI. simpl. unfold gets. f_equal.
  apply lookup_own with (pr := Prop_ v true).
  rewrite (agree_own_at hc (st_heap s) a k (source_agrees s HI)).
  exact a_own.
Qed.

Lemma source_isMap s : Inv s -> isMap (st_heap s) (VObj a) = true.
Proof.
  intros HI. rewrite (agree_isMap hc (st_heap s) a (source_agrees s HI)).
  exact a_map.
Qed.

Lemma source_has_key s : Inv s -> In k (forin_keys (st_heap s) (VObj a)).
Proof.
  intros HI. rewrite (agree_forin_keys hc (st_heap s) a (source_agrees s HI)).
  eapply forin_keys_own; [exact a_own | reflexivity].
Qed.

Lemma c_allocated s : Inv s -> c < length (st_heap s).
Proof.
  intros (_ & _ & Hpr). unfold own_at in Hpr.
  destruct (st_heap s !! c) as [o|] eqn:Ho; [|discriminate].
  eapply lookup_lt_Some. exact Ho.
Qed.

Lemma p_allocated s : Inv s -> p < length (st_heap s).
Proof. intros (Hlen & _). lia. Qed.

Let copied := copied_to p k v.

Lemma copier_effect object o oP iClass key val coll s r s1 :
  loc_of object = Some o -> o = c \/ o = p ->
  read_only object k = false ->
  (iClass = true -> oP = VObj p) ->
  Inv s ->
  copier ik object oP iClass (VStr key) val coll tt s = Ret r s1 ->
  Inv s1 /\ r = (VUndef, tt)
  /\ (key = k -> val = v -> copied o iClass s1)
  /\ (key <> k -> copied o iClass s -> copied o iClass s1).
Proof.
  intros Ho Hcp Hro HoP HI H.
  assert (HI1 : Inv s1).
  { pose proof (ok_copier_composing hc c p e0 ik ik_prototype object
                  oP iClass (VStr key) val coll tt
                  ltac:(destruct Hcp; subst; auto)
                  ltac:(intros Hi; rewrite (HoP Hi); right; reflexivity)
                  s HI) as Hok.
    rewrite H in Hok. exact Hok. }
  split; [exact HI1|].
  destruct (string_dec key k) as [-> | Hne].
  - split; [|split; [|intros Hn; contradiction]].
    { unfold copier in H. cbn [to_key] in H.
      destruct (negb (mem_key k ik)).
      - apply bind_Ret in H as (u1 & s2 & _ & H).
        apply bind_Ret in H as (u2 & s3 & _ & H).
        inversion H; reflexivity.
      - inversion H; reflexivity. }
    intros _ ->. unfold copier in H. cbn [to_key] in H.
    rewrite k_copied in H. cbn [negb] in H.
    rewrite (bind_step _ _ _ _ _ (set_obj object o k v s Ho Hro)) in H.
    assert (Hol : o < length (st_heap s)).
    { destruct Hcp as [-> | ->];
        [apply c_allocated | apply p_allocated]; exact HI. }
    destruct iClass.
    + rewrite (HoP eq_refl) in H.
      rewrite (bind_step _ _ _ _ _
                 (set_obj (VObj p) p k v _ eq_refl eq_refl)) in H.
      inversion H; subst. clear H.
      unfold copied, copied_to. cbn [st_heap with_heap]. split.
      * destruct (Nat.eq_dec p o) as [-> | Hno].
        -- apply own_at_write_same. rewrite write_length. exact Hol.
        -- rewrite own_at_write_other_loc by exact Hno.
           apply own_at_write_same. exact Hol.
      * intros _. apply own_at_write_same. rewrite write_length.
        apply p_allocated. exact HI.
    + inversion H; subst. clear H.
      unfold copied, copied_to. cbn [st_heap with_heap].
      split; [|discriminate]. apply own_at_write_same. exact Hol.
  - destruct (copier_other_key _ _ _ _ _ _ _ _ _ _ k H Hne) as [Hr Hfr].
    split; [exact Hr|]. split; [intros Heq; contradiction|].
    intros _ [[e He] Hm]. split.
    + exists e. rewrite Hfr. exact He.
    + intros Hi. destruct (Hm Hi) as [e' He']. exists e'.
      rewrite Hfr. exact He'.
Qed.

Lemma key_loop_copier_effect object o oP iClass :
  loc_of object = Some o -> o = c \/ o = p ->
  read_only object k = false ->
  (iClass = true -> oP = VObj p) ->
  forall keys s acc r s',
    Inv s ->
    key_loop (copier ik object oP iClass) keys (VObj a) tt acc s = Ret r s' ->
    Inv s' /\ (In k keys \/ copied o iClass s -> copied o iClass s').
Proof.
  intros Ho Hcp Hro HoP.
  induction keys as [|key keys IH]; intros s acc r s' HI H.
  - inversion H; subst. split; [exact HI|]. intros [[] | Hc]. exact Hc.
  - rewrite key_loop_cons in H.
    destruct (mem_key key (forin_keys (st_heap s) (VObj a))) eqn:Hin.
    2:{ destruct (IH _ _ _ _ HI H) as [HI' Hc]. split; [exact HI'|].
        intros [[Heq | Hk] | Hcs]; [|apply Hc; left; exact Hk
                                    |apply Hc; right; exact Hcs].
        subst key.
        rewrite (proj2 (mem_key_In _ _) (source_has_key s HI)) in Hin.
        discriminate. }
    apply bind_Ret in H as (val & s1 & Hval & H).
    apply get_Ret in Hval as Es. subst s1.
    apply bind_Ret in H as ([r0 u] & s2 & Hcop & H). destruct u.
    destruct (copier_effect _ _ _ _ _ _ _ _ _ _ Ho Hcp Hro HoP HI Hcop)
      as (HI2 & Hr & Hsame & Hother).
    inversion Hr; subst r0. cbn [is_stop strict_eq] in H.
    destruct (IH _ _ _ _ HI2 H) as [HI' Hc]. split; [exact HI'|].
    intros Hk. apply Hc.
    destruct (string_dec key k) as [-> | Hne].
    + right. apply Hsame; [reflexivity|].
      rewrite (source_read s HI) in Hval. congruence.
    + destruct Hk as [[Heq | Hk] | Hcs];
        [contradiction | left; exact Hk | right; apply Hother; assumption].
Qed.

Lemma extend_map_effect clazz fuel object o s s' :
  loc_of clazz = Some c ->
  object = clazz \/ object = VObj p ->
  loc_of object = Some o ->
  read_only object k = false ->
  Inv s ->
  extend fuel object (VObj a) (Some ik) s = Ret tt s' ->
  Inv s' /\ exists iClass, isClass object s = Ret iClass s
                           /\ copied o iClass s'.
Proof.
  intros Hcl Hobj Ho Hro HI H.
  assert (Hcp : o = c \/ o = p).
  { destruct Hobj as [-> | ->]; [left | right]; simpl in *; congruence. }
  destruct fuel as [|n]; [discriminate|]. cbn [extend] in H.
  apply bind_Ret in H as (h & s0 & Hh & H). inversion Hh; subst h s0. clear Hh.
  rewrite (isMap_not_isArray _ _ (source_isMap s HI)) in H.
  apply bind_Ret in H as (iClass & s0 & HiC & H).
  apply isClass_state in HiC as Es. subst s0.
  apply bind_Ret in H as (isSub & s0 & Hsub & H).
  rewrite (isClass_not_function (VObj a) s eq_refl) in Hsub.
  inversion Hsub; subst isSub s0. clear Hsub.
  apply bind_Ret in H as (oP & s0 & HoP & H).
  apply get_Ret in HoP as Es. subst s0.
  assert (HoP' : iClass = true -> oP = VObj p).
  { intros ->. destruct Hobj as [-> | ->].
    - pose proof (okv_get_prototype hc c p e0 clazz Hcl s HI) as Hq.
      rewrite HoP in Hq. apply Hq.
    - rewrite (isClass_not_function (VObj p) s eq_refl) in HiC. congruence. }
  apply bind_Ret in H as (h & s0 & Hh & H). inversion Hh; subst h s0. clear Hh.
  rewrite (source_isMap s HI) in H.
  apply bind_Ret in H as (u & s2 & Hcopy & H).
  rewrite andb_false_r in H.
  apply bind_Ret in H as (u' & s3 & Hx & H).
  inversion Hx; subst u' s3. inversion H; subst s'. clear Hx H.
  apply bind_Ret in Hcopy as (res & s3 & Hloop & Hcopy).
  inversion Hcopy; subst s3. clear Hcopy.
  rewrite (each_with_map _ _ _ _ _ (source_isMap s HI)) in Hloop.
  apply bind_Ret in Hloop as ([rs u''] & s3 & Hloop & Hx).
  inversion Hx; subst. clear Hx.
  destruct (key_loop_copier_effect object o oP iClass Ho Hcp Hro HoP' _ _ _ _ _
              HI Hloop) as [HI' Hc].
  split; [exact HI'|]. exists iClass. split; [exact HiC|].
  apply Hc. left. apply source_has_key. exact HI.
Qed.
End Effect.

Lemma key_loop_copier_other ik object oP iClass coll k keys :
  ~ In k keys ->
  forall s acc r s',
    key_loop (copier ik object oP iClass) keys coll tt acc s = Ret r s' ->
    forall i, own_at (st_heap s') i k = own_at (st_heap s) i k.
Proof.
  induction keys as [|key keys IH]; intros Hnin s acc r s' H i.
  - inversion H; subst. reflexivity.
  - rewrite key_loop_cons in H.
    destruct (mem_key key (forin_keys (st_heap s) coll));
      [|apply (IH ltac:(intros Hk; apply Hnin; right; exact Hk) _ _ _ _ H)].
    apply bind_Ret in H as (val & s1 & Hval & H).
    apply get_Ret in Hval as Es. subst s1.
    apply bind_Ret in H as ([r0 u] & s2 & Hcop & H). destruct u.
    assert (Hne : key <> k) by (intros ->; apply Hnin; left; reflexivity).
    destruct (copier_other_key _ _ _ _ _ _ _ _ _ _ k Hcop Hne) as [Hr Hfr].
    inversion Hr; subst r0. cbn [is_stop strict_eq] in H.
    rewrite <- Hfr. eapply IH; [|exact H].
    intros Hin. apply Hnin. right. exact Hin.
Qed.

Lemma extend_nonobject fuel object S ik s s' :
  loc_of S = None ->
  extend fuel object S (Some ik) s = Ret tt s' -> s' = s.
Proof.
  intros HS H. destruct fuel as [|n]; [discriminate|]. cbn [extend] in H.
  apply bind_Ret in H as (h & s0 & Hh & H). inversion Hh; subst h s0. clear Hh.
  assert (isArray (st_heap s) S = false) as Ha
      by (destruct S; try reflexivity; discriminate).
  assert (isMap (st_heap s) S = false) as Hm
      by (destruct S; try reflexivity; discriminate).
  assert (isFunction S = false) as Hf
      by (destruct S; try reflexivity; discriminate).
  rewrite Ha in H.
  apply bind_Ret in H as (iClass & s0 & HiC & H).
  apply isClass_state in HiC. subst s0.
  rewrite (bind_step _ _ _ _ _ (isClass_not_function S s Hf)) in H.
  apply bind_Ret in H as (oP & s0 & HoP & H).
  apply get_Ret in HoP. subst s0.
  apply bind_Ret in H as (h & s0 & Hh & H). inversion Hh; subst h s0. clear Hh.
  rewrite Hm, andb_false_r in H. inversion H. reflexivity.
Qed.

Section Silent.
Variable hc : heap.
Variables c p : loc.
Variable e0 : bool.
Variable ik : list string.
Variable sl : loc.
Variable k : string.
Hypothesis sl_alloc : sl < length hc.
Hypothesis sl_map : isMap hc (VObj sl) = true.
Hypothesis sl_apart : apart hc sl c p.
Hypothesis sl_silent : ~ In k (forin_keys hc (VObj sl)).

Lemma silent_agrees s :
  composing hc c p e0 s ->
  forall i, In i (proto_chain hc sl) -> st_heap s !! i = hc !! i.
Proof.
  intros (_ & Hfr & _) i Hi. destruct (sl_apart i Hi) as [Hc Hp].
  apply Hfr; [|exact Hc | exact Hp].
  apply chain_locs_le in Hi. lia.
Qed.

Lemma extend_map_frame fuel object s s' :
  composing hc c p e0 s ->
  extend fuel object (VObj sl) (Some ik) s = Ret tt s' ->
  forall i, own_at (st_heap s') i k = own_at (st_heap s) i k.
Proof.
  intros HI H.
  assert (Hmap : isMap (st_heap s) (VObj sl) = true).
  { rewrite (agree_isMap hc (st_heap s) sl (silent_agrees s HI)).
    exact sl_map. }
  destruct fuel as [|n]; [discriminate|]. cbn [extend] in H.
  apply bind_Ret in H as (h & s0 & Hh & H). inversion Hh; subst h s0. clear Hh.
  rewrite (isMap_not_isArray _ _ Hmap) in H.
  apply bind_Ret in H as (iClass & s0 & HiC & H).
  apply isClass_state in HiC. subst s0.
  rewrite (bind_step _ _ _ _ _
             (isClass_not_function (VObj sl) s eq_refl)) in H.
  apply bind_Ret in H as (oP & s0 & HoP & H).
  apply get_Ret in HoP. subst s0.
  apply bind_Ret in H as (h & s0 & Hh & H). inversion Hh; subst h s0. clear Hh.
  rewrite Hmap, andb_false_r in H.
  apply bind_Ret in H as (u & s2 & Hcopy & H).
  inversion H; subst s'. clear H.
  apply bind_Ret in Hcopy as (res & s3 & Hloop & Hcopy).
  inversion Hcopy; subst s3. clear Hcopy.
  rewrite (each_with_map _ _ _ _ _ Hmap) in Hloop.
  apply bind_Ret in Hloop as ([rs u''] & s3 & Hloop & Hx).
  inversion Hx; subst. clear Hx.
  eapply key_loop_copier_other; [|exact Hloop].
  rewrite (agree_forin_keys hc (st_heap s) sl (silent_agrees s HI)).
  exact sl_silent.
Qed.
End Silent.

Section Holds.
Variable l : loc.
Variable k : string.
Variable v : value.

Lemma holds_write s l' k' x :
  holds l k v s -> k' <> k ->
  holds l k v (with_heap s (write (st_heap s) l' k' x)).
Proof.
  intros [e He] Hne. exists e. simpl.
  rewrite own_at_write_other_key by congruence. exact He.
Qed.

Lemma holds_alloc s objs :
  holds l k v s -> holds l k v (with_heap s (st_heap s ++ objs)).
Proof.
  intros [e He]. exists e. simpl. unfold own_at in *.
  destruct (st_heap s !! l) as [o|] eqn:Ho; [|discriminate].
  rewrite lookup_app_l by (eapply lookup_lt_Some; exact Ho).
  rewrite Ho. exact He.
Qed.

Lemma holds_lookup s : holds l k v s -> lookup_prop (st_heap s) l k = v.
Proof. intros [e He]. apply (lookup_own _ _ _ _ He). Qed.
End Holds.

Lemma instance_reads (h : heap) p k v i props :
  (exists e, own_at h p k = Some (Prop_ v e)) ->
  h !! i = Some (Obj (VObj p) props) -> p < i -> own props k = None ->
  lookup_prop h i k = v.
Proof.
  intros [e He] Hi Hlt Hown. unfold lookup_prop. simpl.
  rewrite Hi. simpl. rewrite Hown.
  apply Nat.ltb_lt in Hlt as Hb. rewrite Hb.
  destruct i as [|i']; [lia|]. simpl.
  unfold own_at in He. destruct (h !! p) as [o|]; [|discriminate].
  rewrite He. reflexivity.
Qed.

Section ClassMembers.
Variable host : nat -> value -> list value -> state -> outcome value.

Lemma class_ignored_keys_prefix fuel s ik s' :
  class_ignored_keys fuel s = Ret ik s' ->
  exists keys, ik = class_ignored ++ keys.
Proof.
  intros H. unfold class_ignored_keys in H.
  apply bind_Ret in H as (pl & s1 & _ & H).
  apply bind_Ret in H as ([r keys] & s2 & _ & H).
  inversion H. exists keys. reflexivity.
Qed.

Lemma class_ignored_keys_prototype fuel s ik s' :
  class_ignored_keys fuel s = Ret ik s' -> mem_key "prototype" ik = true.
Proof.
  intros H. apply class_ignored_keys_prefix in H as [keys ->].
  reflexivity.
Qed.

Lemma Class_phases fuel parent api s parent' a s1 ik sk clazz sc clazz' s' :
  resolve host fuel parent api s = Ret (parent', VObj a) s1 ->
  truthy (lookup_prop (st_heap s1) a "$singleton") = false ->
  class_ignored_keys fuel s1 = Ret ik sk ->
  make_clazz host fuel (lookup_prop (st_heap s1) a "$singleton")
    (declared_constructor (st_heap s1) a) sk = Ret clazz sc ->
  Class host fuel parent api s = Ret clazz' s' ->
  clazz' = clazz
  /\ exists r s2 target s3 s4 s5,
       each_with (fun p _ _ (_ : unit) =>
                    extend fuel clazz p (Some ik) ;; ret (VUndef, tt))
         fuel parent' tt sc = Ret r s2
       /\ get clazz "prototype" s2 = Ret target s2
       /\ extend fuel target (VObj a) (Some ik) s2 = Ret tt s3
       /\ extend fuel clazz (lookup_prop (st_heap s1) a "$statics")
            (Some ik) s3 = Ret tt s4
       /\ makeSuper clazz parent' s4 = Ret tt s5
       /\ run_plugins host fuel clazz parent' (VObj a) s5 = Ret tt s'.
Proof.
  intros Hres Hsing Hik Hmk H. unfold Class in H.
  rewrite (bind_step _ _ _ _ _ Hres) in H.
  apply bind_Ret in H as (h & s0 & Hh & H). inversion Hh; subst h s0. clear Hh.
  destruct (negb (isMap (st_heap s1) (VObj a))); [discriminate|].
  unfold construct in H.
  apply bind_Ret in H as (h & s0 & Hh & H). inversion Hh; subst h s0. clear Hh.
  assert (Hctor : (if has_own (st_heap s1) (VObj a) "constructor"
                   then get (VObj a) "constructor" else ret (VNum 0)) s1
                  = Ret (declared_constructor (st_heap s1) a) s1).
  { unfold declared_constructor.
    destruct (has_own (st_heap s1) (VObj a) "constructor"); reflexivity. }
  rewrite (bind_step _ _ _ _ _ Hctor) in H.
  rewrite (bind_step _ _ _ _ _ (get_obj (VObj a) a "$singleton" s1 eq_refl))
    in H.
  rewrite (bind_step _ _ _ _ _ (get_obj (VObj a) a "$statics" s1 eq_refl))
    in H.
  rewrite (bind_step _ _ _ _ _ Hik) in H.
  unfold assemble in H.
  rewrite (bind_step _ _ _ _ _ Hmk) in H.
  rewrite Hsing in H.
  apply bind_Ret in H as (u & s4 & Hcomp & H).
  apply bind_Ret in H as (u5 & s5 & Hsup & H).
  apply bind_Ret in H as (u6 & s6 & Hplug & H).
  inversion H; subst clazz' s6. clear H. destruct u, u5, u6.
  split; [reflexivity|].
  unfold compose in Hcomp.
  apply bind_Ret in Hcomp as (r & s2 & Hpar & Hcomp).
  apply bind_Ret in Hcomp as (target & s2' & Htar & Hcomp).
  apply get_Ret in Htar as Es. subst s2'.
  apply bind_Ret in Hcomp as (u & s3 & Hext & Hcomp). destruct u.
  exists r, s2, target, s3, s4, s5. auto 10.
Qed.

(** C8 (amended): let a non-singleton class be built from an api map that
    has, when composition starts, the own enumerable key [k] with value
    [v].  Let [ik] be the ignored keys of the declaration: the four of
    line 167 ([constructor], [$singleton], [$statics], [prototype])
    followed by the keys that line 177 reads from the table
    [Class.plugins] as it is at the call.  If [k] is not in [ik] and is
    not [$super], under which line 186 installs the dispatcher, if the
    statics say nothing about [k], and if the functions called after
    composition (the plug-ins and the callbacks they call) leave the
    member alone, then the prototype of the class holds [v] under [k]
    when [Class] returns, whatever the parents define, and every instance
    that does not define [k] itself reads [v]. *)
Theorem api_member_on_instances fuel parent api s parent' a s1 ik sk
    clazz sc s' c p e0 k v :
  resolve host fuel parent api s = Ret (parent', VObj a) s1 ->
  truthy (lookup_prop (st_heap s1) a "$singleton") = false ->
  class_ignored_keys fuel s1 = Ret ik sk ->
  make_clazz host fuel (lookup_prop (st_heap s1) a "$singleton")
    (declared_constructor (st_heap s1) a) sk = Ret clazz sc ->
  Class host fuel parent api s = Ret clazz s' ->
  loc_of clazz = Some c ->
  own_at (st_heap sc) c "prototype" = Some (Prop_ (VObj p) e0) ->
  p < length (st_heap sc) ->
  own_at (st_heap sc) a k = Some (Prop_ v true) ->
  isMap (st_heap sc) (VObj a) = true ->
  apart (st_heap sc) a c p ->
  mem_key k ik = false ->
  k <> "$super" ->
  statics_silent (st_heap sc) c p (lookup_prop (st_heap s1) a "$statics") k ->
  host_ok host (holds p k v) (fun _ => True) ->
  lookup_prop (st_heap s') p k = v
  /\ forall i props,
       st_heap s' !! i = Some (Obj (VObj p) props) -> p < i ->
       own props k = None ->
       lookup_prop (st_heap s') i k = v.
Proof.
  intros Hres Hsing Hik Hmk HClass Hc Hproto Hp Hown Hmap Hapart Hk Hsup
         Hstat Hhost.
  destruct (Class_phases _ _ _ _ _ _ _ _ _ _ _ _ _ Hres Hsing Hik Hmk HClass)
    as (_ & r & s2 & target & s3 & s4 & s5 & Hpar & Htar & Hext & Hst
        & Hms & Hplug).
  set (hc := st_heap sc) in *.
  pose proof (class_ignored_keys_prototype _ _ _ _ Hik) as Hikp.
  assert (HI0 : composing hc c p e0 sc).
  { split; [reflexivity|]. split; [intros; reflexivity | exact Hproto]. }
  (* the parents *)
  assert (HI2 : composing hc c p e0 s2).
  { pose proof (ok_each_with (composing hc c p e0) (fun _ => True) Logic.I
                  (composing_alloc hc c p e0)
                  (fun p0 _ _ (_ : unit) =>
                     extend fuel clazz p0 (Some ik) ;; ret (VUndef, tt))
                  ltac:(intros; apply ok_bind;
                        [apply (extend_composing hc c p e0 ik Hikp clazz fuel
                                  Hc); left; reflexivity
                        | intros; apply ok_ret])
                  fuel parent' tt sc HI0) as Hok.
    rewrite Hpar in Hok. exact Hok. }
  (* the api *)
  assert (target = VObj p) as ->.
  { pose proof (okv_get_prototype hc c p e0 clazz Hc s2 HI2) as Hq.
    rewrite Htar in Hq. apply Hq. }
  destruct (extend_map_effect hc c p e0 ik Hikp Hp a k v Hown Hmap Hapart Hk
              clazz fuel (VObj p) p s2 s3 Hc ltac:(right; reflexivity)
              eq_refl eq_refl HI2 Hext) as (HI3 & iClass & _ & [Hh3 _]).
  (* the statics *)
  assert (Hh4 : holds p k v s4).
  { destruct Hstat as [Hnone | (sl & HS & Hsl & Hsm & Hsa & Hsk)].
    - apply extend_nonobject in Hst; [subst s4; exact Hh3 | exact Hnone].
    - rewrite HS in *.
      destruct Hh3 as [e He]. exists e.
      rewrite (extend_map_frame hc c p e0 ik sl k Hsl Hsm Hsa Hsk
                 fuel clazz s3 s4 HI3 Hst p).
      exact He. }
  (* the dispatcher and the plug-ins *)
  assert (Hh5 : holds p k v s5).
  { pose proof (ok_makeSuper (holds p k v) (fun _ => True)
                  (fun _ k' => k' <> k) Logic.I
                  (fun s0 l k' x H0 Hne => holds_write p k v s0 l k' x H0 Hne)
                  (holds_alloc p k v)
                  (fun _ Heq => Hsup (eq_sym Heq)) clazz parent' s4 Hh4) as Hok.
    rewrite Hms in Hok. exact Hok. }
  assert (Hh' : holds p k v s').
  { pose proof (ok_run_plugins host (holds p k v) (fun _ => True)
                  (fun _ k' => k' <> k) Logic.I
                  (fun s0 l k' x H0 Hne => holds_write p k v s0 l k' x H0 Hne)
                  (holds_alloc p k v)
                  (fun s0 ev H0 => H0) (fun s0 e H0 => H0)
                  (fun _ Heq => Hsup (eq_sym Heq)) Hhost
                  fuel clazz parent' (VObj a) s5 Hh5) as Hok.
    rewrite Hplug in Hok. exact Hok. }
  split; [apply (holds_lookup p k v s' Hh')|].
  intros i props Hi Hlt Hnone.
  eapply instance_reads; [exact Hh' | exact Hi | exact Hlt | exact Hnone].
Qed.

End ClassMembers.

Lemma host_ex_keeps l k v E : host_ok host_ex (holds l k v) E.
Proof.
  intros id this args s H. unfold host_ex.
  do 9 (destruct id as [|id]; [destruct args; try exact H;
                               destruct (get this "$super" s); exact H|]).
  destruct args; exact H.
Qed.

(** C8, as stated, fails on [{x: 1, $statics: {x: 2}}]: the api has [x]
    with value 1, the class is built, and an instance reads 2 under [x],
    the value of the statics, which line 147 mirrors onto the prototype
    after the api was composed. *)
Lemma statics_override_api_member :
  exists C s',
    sw_class = Ret C s'
    /\ own_at (st_heap s') 8 "x" = Some (Prop_ (VNum 1) true)
    /\ get C "prototype" s' = Ret (VObj 10) s'
    /\ exists s'', read_on_instance 10 "x" s' = Ret (VNum 2) s''.
Proof.
  eexists. eexists. split; [vm_compute; reflexivity|].
  split; [reflexivity|]. split; [reflexivity|].
  eexists. vm_compute. reflexivity.
Qed.


Lemma api_member_on_instances_witness :
  let s' := final iw_class in
  lookup_prop (st_heap s') 15 "x" = VNum 1
  /\ forall i props,
       st_heap s' !! i = Some (Obj (VObj 15) props) -> 15 < i ->
       own props "x" = None ->
       lookup_prop (st_heap s') i "x" = VNum 1.
Proof.
  apply (api_member_on_instances host_ex 3 iw_P (VObj 12) iw (VObj 13) 12
           (final (resolve host_ex 3 iw_P (VObj 12) iw))
           (class_ignored ++ ["$ready"])
           (final (resolve host_ex 3 iw_P (VObj 12) iw))
           (VFun 14 CEmpty)
           (final (make_clazz host_ex 3 VUndef (VNum 0)
                     (final (resolve host_ex 3 iw_P (VObj 12) iw))))
           (final iw_class) 14 15 false "x" (VNum 1)).
  - reflexivity.
  - reflexivity.
  - vm_compute. reflexivity.
  - reflexivity.
  - vm_compute. reflexivity.
  - reflexivity.
  - reflexivity.
  - vm_compute. lia.
  - reflexivity.
  - reflexivity.
  - intros i Hi. vm_compute in Hi.
    destruct Hi as [<- | [<- | []]]; split; discriminate.
  - reflexivity.
  - discriminate.
  - left. reflexivity.
  - apply host_ex_keeps.
Defined.


(** The class of the witness is a class, so its statics are mirrored. *)
Example statics_world_is_class :
  class_with_prototype
    (st_heap (final (make_clazz host_ex 3 VUndef (VNum 0) sw)))
    (VFun 9 CEmpty) 10.
Proof.
  split; [reflexivity|]. exists (VFun 9 CEmpty), false.
  split; reflexivity.
Qed.

(** A function does not take a write under [name]: declared with
    [{$statics: {name: 5, y: 1}}], the class still reads as the empty
    string under [name], while [y] is stored. *)
Example statics_name_not_stored :
  exists C s',
    Class host_ex 3 (VObj 8) VUndef (final named_world) = Ret C s'
    /\ read_only C "name" = true
    /\ get C "name" s' = Ret (VStr "") s'
    /\ get C "y" s' = Ret (VNum 1) s'.
Proof.
  eexists. eexists. split; [vm_compute; reflexivity|].
  split; [reflexivity|]. split; reflexivity.
Qed.

(** ** The user functions of the examples *)

Lemma host_ex_pure id this args s :
  exists r, host_ex id this args s = Ret r s.
Proof.
  unfold host_ex.
  do 9 (destruct id as [|id]; [destruct args; eauto;
                               destruct (get this "$super" s); eauto|]).
  destruct args; eauto.
Qed.

Lemma with_trace_same s : with_trace s (st_trace s) = s.
Proof. destruct s. reflexivity. Qed.

Lemma host_ex_keeps_any (I : state -> Prop) E : host_ok host_ex I E.
Proof.
  intros id this args s H.
  destruct (host_ex_pure id this args s) as [r ->].
  rewrite with_trace_same. exact H.
Qed.

(** ** Further properties of the type predicates *)

(** X1 (lines 22-31).  [isMap] and [isArray] split the objects that are
    not functions: such an object is exactly one of the two; a primitive,
    [null], [undefined] or a function is neither. *)
Theorem isMap_isArray_partition h v :
  match v with
  | VObj _ => isMap h v = negb (isArray h v)
  | _ => isMap h v = false /\ isArray h v = false
  end.
Proof.
  destruct v; simpl; auto.
Qed.

(** ** What [extend] leaves alone *)

Section ExtendFrame.
Variable I : state -> Prop.
Variable E : exn -> Prop.
Variable ik : list string.
Hypothesis E_type : E TypeError.
Hypothesis I_write : forall s l k x,
  I s -> mem_key k ik = false -> I (with_heap s (write (st_heap s) l k x)).
Hypothesis I_alloc : forall s objs, I s -> I (with_heap s (st_heap s ++ objs)).

Let W : loc -> string -> Prop := fun _ k => mem_key k ik = false.

Lemma ok_copier_any object oP iClass key val c u :
  ok I E (copier ik object oP iClass key val c u).
Proof.
  unfold copier. destruct (mem_key (to_key key) ik) eqn:Hk; [apply ok_ret|].
  cbn [negb].
  apply ok_bind.
  { apply (ok_set I E W E_type I_write). intros l _. exact Hk. }
  intros _. apply ok_bind; [|intros _; apply ok_ret].
  destruct iClass; [|apply ok_ret].
  apply (ok_set I E W E_type I_write). intros l _. exact Hk.
Qed.

Lemma ok_extend_any fuel : forall object subject oik,
  default default_ignored oik = ik ->
  ok I E (extend fuel object subject oik).
Proof.
  induction fuel as [|n IH]; intros object subject oik Hik; cbn [extend].
  - apply ok_diverge.
  - rewrite Hik.
    apply ok_bind; [apply ok_gets | intros h].
    destruct (isArray h subject).
    + apply ok_bind; [|intros; apply ok_ret].
      apply ok_each_with; [exact E_type | exact I_alloc |].
      intros a b c x.
      apply ok_bind; [apply IH; exact Hik | intros; apply ok_ret].
    + apply ok_bind; [apply ok_isClass; exact E_type | intros iClass].
      apply ok_bind; [apply ok_isClass; exact E_type | intros isSub].
      apply ok_bind; [apply ok_get; exact E_type | intros oP].
      apply ok_bind; [apply ok_gets | intros h'].
      apply ok_bind.
      { destruct (isMap h' subject); [|apply ok_ret].
        apply ok_bind; [|intros; apply ok_ret].
        apply ok_each_with; [exact E_type | exact I_alloc |].
        intros. apply ok_copier_any. }
      intros _. apply ok_bind.
      { destruct isSub; [|apply ok_ret].
        apply ok_bind; [apply ok_get; exact E_type | intros sp].
        apply ok_bind; [|intros; apply ok_ret].
        apply ok_each_with; [exact E_type | exact I_alloc |].
        intros. apply ok_copier_any. }
      intros _. destruct (iClass && isSub); [|apply ok_ret].
      apply ok_bind; [apply ok_get; exact E_type | intros sp].
      apply IH. reflexivity.
Qed.
End ExtendFrame.

(** X2 (lines 139-149).  [extend] never assigns an ignored key: whatever
    the subject is (a map, a class, a list of them, nested), every object
    that existed keeps what it had under a key of [ignoredKeys], which is
    [constructor], [$super] and [prototype] when the argument is absent. *)
Theorem extend_keeps_ignored_keys fuel object subject oik s s' i k :
  i < length (st_heap s) ->
  mem_key k (default default_ignored oik) = true ->
  extend fuel object subject oik s = Ret tt s' ->
  own_at (st_heap s') i k = own_at (st_heap s) i k.
Proof.
  intros Hi Hk H.
  pose (Inv := fun s1 : state =>
                 i < length (st_heap s1)
                 /\ own_at (st_heap s1) i k = own_at (st_heap s) i k).
  assert (Hok : ok Inv (fun _ => True) (extend fuel object subject oik)).
  { apply (ok_extend_any Inv (fun _ => True)
             (default default_ignored oik)); auto.
    - intros s1 l k' x [Hl He] Hk'. split.
      + simpl. rewrite write_length. exact Hl.
      + simpl. rewrite own_at_write_other_key; [exact He|].
        intros ->. rewrite Hk in Hk'. discriminate.
    - intros s1 objs [Hl He]. split.
      + simpl. rewrite length_app. lia.
      + simpl. unfold own_at in *. rewrite lookup_app_l by exact Hl.
        exact He. }
  specialize (Hok s (conj Hi eq_refl)). rewrite H in Hok. apply Hok.
Qed.

Lemma extend_keeps_ignored_keys_witness :
  own_at (st_heap (final (extend 3 (VObj 8) (VObj 7) None cw))) 8 "prototype"
  = own_at (st_heap cw) 8 "prototype".
Proof.
  apply (extend_keeps_ignored_keys 3 (VObj 8) (VObj 7) None cw
           (final (extend 3 (VObj 8) (VObj 7) None cw)) 8 "prototype").
  - vm_compute. lia.
  - reflexivity.
  - vm_compute. reflexivity.
Defined.

(** X3 (lines 132-157).  [extend] calls no function of its user and never
    touches the registry of ready callbacks; when it raises, it raises a
    [TypeError] (a member read on [null] or [undefined]). *)
Theorem extend_calls_nothing fuel object subject oik s :
  match extend fuel object subject oik s with
  | Ret _ s' => st_trace s' = st_trace s /\ st_ready s' = st_ready s
                /\ length (st_heap s) <= length (st_heap s')
  | Thr e _ => e = TypeError
  | Div => True
  end.
Proof.
  pose (Inv := fun s1 : state =>
                 st_trace s1 = st_trace s /\ st_ready s1 = st_ready s
                 /\ length (st_heap s) <= length (st_heap s1)).
  assert (Hok : ok Inv (fun e => e = TypeError)
                  (extend fuel object subject oik)).
  { apply (ok_extend_any Inv (fun e => e = TypeError)
             (default default_ignored oik)); auto.
    - intros s1 l k' x (Ht & Hr & Hl) _. repeat split; simpl; auto.
      rewrite write_length. exact Hl.
    - intros s1 objs (Ht & Hr & Hl). repeat split; simpl; auto.
      rewrite length_app. lia. }
  apply Hok. repeat split; auto.
Qed.

(** ** Further properties of [each] *)

Section EachVisits.
Variable host : nat -> value -> list value -> state -> outcome value.

Lemma ran_or_stopped_step n e r evs rs :
  ev_res e = Some r ->
  ran_or_stopped n evs rs -> ran_or_stopped (S n) (e :: evs) (r :: rs).
Proof.
  intros Hr [[Hl Hm] | [Hl Hm]]; [left | right]; simpl;
    rewrite Hr, Hm; split; auto; lia.
Qed.

Lemma index_loop_chars fuel l id str n : forall i acc s rs u s',
  index_loop (each_cb host fuel (VFun l (CHost id))) n false i (VStr str)
    tt acc s = Ret (rs, u) s' ->
  exists evs rs',
    st_trace s' = st_trace s ++ evs /\ rs = acc ++ rs'
    /\ map ev_args evs = map (char_args str) (seq i (length evs))
    /\ ran_or_stopped n evs rs'.
Proof.
  induction n as [|n IH]; intros i acc s rs u s' H.
  - inversion H; subst. exists [], [].
    rewrite !app_nil_r. repeat split; auto. left. split; reflexivity.
  - cbn [index_loop] in H. apply bind_Ret in H as (v & s1 & Hv & H).
    inversion Hv; subst v s1. clear Hv.
    unfold each_cb at 1 in H.
    apply bind_Ret in H as ([r u0] & s2 & Hc & H).
    apply bind_Ret in Hc as (r0 & s3 & Hc & Hr).
    inversion Hr; subst r0 u0 s3. clear Hr.
    pose proof (call_host_trace _ _ _ _ _ _ _ _ _ _ Hc) as Ht.
    destruct (is_stop r) eqn:Hs.
    + inversion H; subst. apply is_stop_inf in Hs. subst r.
      exists [Event (VFun l (CHost id)) VUndef (char_args str i)
                (Some VInf)], [].
      rewrite app_nil_r. repeat split; auto.
      right. split; [simpl; lia | reflexivity].
    + apply IH in H as (evs & rs' & Ht' & Hrs & Hargs & Hres).
      exists (Event (VFun l (CHost id)) VUndef (char_args str i) (Some r)
                :: evs), (r :: rs').
      split; [|split; [|split]].
      * rewrite Ht', Ht, <- app_assoc. reflexivity.
      * rewrite Hrs, <- app_assoc. reflexivity.
      * simpl. rewrite Hargs. reflexivity.
      * apply ran_or_stopped_step; [reflexivity | exact Hres].
Qed.

Lemma call_host_heap fuel l id this args caller s r s' :
  call_fn host fuel (VFun l (CHost id)) this args caller s = Ret r s' ->
  exists s1, host id this args s = Ret r s1 /\ st_heap s' = st_heap s1.
Proof.
  destruct fuel; simpl; unfold logged, run_host;
    destruct (host id this args s) as [r1 s1| |]; try discriminate;
    intros H; inversion H; subst; exists s1; split; reflexivity.
Qed.

Lemma call_host_members fuel l id this args caller h c s r s' :
  host_ok host (members_kept h c) (fun _ => True) ->
  members_kept h c s ->
  call_fn host fuel (VFun l (CHost id)) this args caller s = Ret r s' ->
  members_kept h c s'.
Proof.
  intros Hh HI H. apply call_host_heap in H as (s1 & Hs1 & Heq).
  specialize (Hh id this args s HI). rewrite Hs1 in Hh.
  intros cl i Hc Hi. rewrite Heq. apply (Hh cl i Hc Hi).
Qed.

Lemma members_kept_keys h c s :
  members_kept h c s -> forin_keys (st_heap s) c = forin_keys h c.
Proof.
  intros HI. unfold forin_keys.
  destruct (loc_of c) as [cl|] eqn:Hc; [|reflexivity].
  apply agree_forin_chain. intros i Hi. apply (HI cl i Hc Hi).
Qed.

Lemma members_kept_get h c cl k s :
  loc_of c = Some cl -> members_kept h c s ->
  get c k s = Ret (member h c k) s.
Proof.
  intros Hc HI. rewrite (get_obj c cl k s Hc). unfold member. rewrite Hc.
  f_equal. apply agree_lookup_prop. intros i Hi. apply (HI cl i Hc Hi).
Qed.

Lemma key_loop_keys fuel l id h c cl :
  loc_of c = Some cl ->
  host_ok host (members_kept h c) (fun _ => True) ->
  forall keys acc s rs u s',
    (forall k, In k keys -> In k (forin_keys h c)) ->
    members_kept h c s ->
    key_loop (each_cb host fuel (VFun l (CHost id))) keys c tt acc s
      = Ret (rs, u) s' ->
    exists evs rs',
      st_trace s' = st_trace s ++ evs /\ rs = acc ++ rs'
      /\ map ev_args evs = map (key_args h c) (take (length evs) keys)
      /\ ran_or_stopped (length keys) evs rs'.
Proof.
  intros Hcl Hhost.
  induction keys as [|k keys IH]; intros acc s rs u s' Hin HI H.
  - inversion H; subst. exists [], [].
    rewrite !app_nil_r.
    split; [reflexivity | split; [reflexivity | split]].
    + reflexivity.
    + left. split; reflexivity.
  - rewrite key_loop_cons in H.
    rewrite (members_kept_keys h c s HI) in H.
    rewrite (proj2 (mem_key_In _ _) (Hin k (or_introl eq_refl))) in H.
    rewrite (bind_step _ _ _ _ _ (members_kept_get h c cl k s Hcl HI)) in H.
    unfold each_cb at 1 in H.
    apply bind_Ret in H as ([r u0] & s2 & Hc & H).
    apply bind_Ret in Hc as (r0 & s3 & Hc & Hr).
    inversion Hr; subst r0 u0 s3. clear Hr.
    pose proof (call_host_trace _ _ _ _ _ _ _ _ _ _ Hc) as Ht.
    pose proof (call_host_members _ _ _ _ _ _ _ _ _ _ _ Hhost HI Hc) as HI2.
    destruct (is_stop r) eqn:Hs.
    + inversion H; subst. apply is_stop_inf in Hs. subst r.
      exists [Event (VFun l (CHost id)) VUndef (key_args h c k)
                (Some VInf)], [].
      rewrite app_nil_r.
      split; [exact Ht | split; [reflexivity | split]].
      * reflexivity.
      * right. split; [simpl; lia | reflexivity].
    + apply IH in H as (evs & rs' & Ht' & Hrs & Hargs & Hres);
        [|intros k' Hk'; apply Hin; right; exact Hk' | exact HI2].
      exists (Event (VFun l (CHost id)) VUndef (key_args h c k) (Some r)
                :: evs), (r :: rs').
      split; [|split; [|split]].
      * rewrite Ht', Ht, <- app_assoc. reflexivity.
      * rewrite Hrs, <- app_assoc. reflexivity.
      * simpl. rewrite Hargs. reflexivity.
      * apply ran_or_stopped_step; [reflexivity | exact Hres].
Qed.

(** X4 (lines 65-66, 76-81).  Over a string, [each] calls [fn] on the
    characters from left to right, call number [j] with the one-character
    string at [j], the index [j] and the whole string; it visits every
    character unless a call returns [Infinity], which ends the loop. *)
Theorem each_string_visits_characters fuel str l id s rs s' :
  each host fuel (VStr str) (VFun l (CHost id)) s = Ret (Some rs) s' ->
  exists evs,
    st_trace s' = st_trace s ++ evs
    /\ map ev_args evs = map (char_args str) (seq 0 (length evs))
    /\ ran_or_stopped (String.length str) evs rs.
Proof.
  unfold each.
  destruct (truthy (VStr str)) eqn:Ht; [|discriminate].
  cbn [truthy negb orb].
  intros H. apply bind_Ret in H as ([r u] & s1 & He & H).
  inversion H; subst r s1. clear H. destruct u.
  unfold each_with in He. rewrite Ht in He. cbn [negb] in He.
  apply bind_Ret in He as (h & s0 & Hh & He).
  inversion Hh; subst h s0. clear Hh.
  cbn [isString isArray isMap isFunction orb negb andb] in He.
  apply bind_Ret in He as ([c' ia] & s1 & Hc & He).
  inversion Hc; subst c' ia s1. clear Hc.
  apply bind_Ret in He as (len & s2 & Hl & He).
  inversion Hl; subst len s2. clear Hl. cbn [String.eqb] in He.
  apply bind_Ret in He as ([rs0 a0] & s3 & Hloop & He).
  inversion He; subst. clear He.
  apply index_loop_chars in Hloop as (evs & rs' & Htr & Hrs & Ha & Hr).
  simpl in Hrs. subst rs'. exists evs. auto.
Qed.

(** X5 (lines 67-68, 83-86).  Over a map or a function whose members,
    own and inherited, the callback leaves as they are, [each] visits the
    keys that [for-in] finds when the loop starts, in the order of
    [for-in] (object by object along the prototype chain, the integer-like
    keys of an object in ascending order before its other keys in
    insertion order), each call with the key, the member under it and the
    collection; it visits all of them unless a call returns [Infinity]. *)
Theorem each_map_visits_keys fuel c l id s rs s' :
  isMap (st_heap s) c = true \/ isFunction c = true ->
  host_ok host (members_kept (st_heap s) c) (fun _ => True) ->
  each host fuel c (VFun l (CHost id)) s = Ret (Some rs) s' ->
  exists evs,
    st_trace s' = st_trace s ++ evs
    /\ map ev_args evs
       = map (key_args (st_heap s) c)
           (take (length evs) (forin_keys (st_heap s) c))
    /\ ran_or_stopped (length (forin_keys (st_heap s) c)) evs rs.
Proof.
  intros Hc Hhost. unfold each.
  destruct (truthy c) eqn:Ht; [|discriminate].
  cbn [truthy negb orb].
  intros H. apply bind_Ret in H as ([r u] & s1 & He & H).
  inversion H; subst r s1. clear H. destruct u.
  unfold each_with in He. rewrite Ht in He. cbn [negb] in He.
  apply bind_Ret in He as (h & s0 & Hh & He).
  inversion Hh; subst h s0. clear Hh.
  assert (Hna : isArray (st_heap s) c || isString c = false).
  { destruct Hc as [Hc | Hc].
    - rewrite (isMap_not_isArray _ _ Hc).
      destruct (isMap_obj _ _ Hc) as [cl ->]. reflexivity.
    - destruct c; try discriminate. reflexivity. }
  assert (Hb : negb (isMap (st_heap s) c) && negb (isFunction c) = false).
  { destruct Hc as [-> | ->]; [reflexivity | apply andb_false_r]. }
  assert (Hcl : exists cl, loc_of c = Some cl).
  { destruct Hc as [Hc | Hc].
    - destruct (isMap_obj _ _ Hc) as [cl ->]. exists cl. reflexivity.
    - destruct c; try discriminate. eexists. reflexivity. }
  destruct Hcl as [cl Hcl].
  rewrite Hna in He. cbn [negb andb] in He.
  rewrite Hb in He.
  apply bind_Ret in He as ([c' ia] & s1 & Hc' & He).
  inversion Hc'; subst c' ia s1. clear Hc'.
  apply bind_Ret in He as (h & s0 & Hh & He).
  inversion Hh; subst h s0. clear Hh.
  apply bind_Ret in He as ([rs0 a0] & s3 & Hloop & He).
  inversion He; subst. clear He.
  apply (key_loop_keys fuel l id (st_heap s) c cl Hcl Hhost) in Hloop
    as (evs & rs' & Htr & Hrs & Ha & Hr);
    [|intros k Hk; exact Hk | intros l0 i _ _; reflexivity].
  simpl in Hrs. subst rs'. exists evs. auto.
Qed.

Lemma singleton_array_get c k x e s :
  own (o_props (singleton_array c)) k = Some (Prop_ x e) ->
  get (VObj (length (st_heap s))) k
    (with_heap s (st_heap s ++ [singleton_array c]))
  = Ret x (with_heap s (st_heap s ++ [singleton_array c])).
Proof.
  intros Ho. unfold get, gets. f_equal. unfold lookup_prop.
  cbn [get_chain st_heap with_heap].
  rewrite list_lookup_middle by reflexivity.
  rewrite Ho. reflexivity.
Qed.

Lemma each_with_scalar {A} (fn : value -> value -> value -> A -> M (value * A))
    fuel c a s :
  is_scalar c = true ->
  each_with fn fuel c a s
  = match fn c (VNum 0) (VObj (length (st_heap s))) a
            (with_heap s (st_heap s ++ [singleton_array c])) with
    | Ret (r, a') s2 => Ret (Some (if is_stop r then [] else [r]), a') s2
    | Thr e s2 => Thr e s2
    | Div => Div
    end.
Proof.
  intros Hc.
  assert (Ht : truthy c = true) by (destruct c as [| |[|]| | | | |];
                                    try discriminate; auto).
  assert (Ha : isArray (st_heap s) c = false)
    by (destruct c; try discriminate; reflexivity).
  assert (Hm : isMap (st_heap s) c = false)
    by (destruct c; try discriminate; reflexivity).
  assert (Hs : isString c = false)
    by (destruct c; try discriminate; reflexivity).
  assert (Hf : isFunction c = false)
    by (destruct c; try discriminate; reflexivity).
  unfold each_with. rewrite Ht. cbn [negb].
  unfold bind at 1. unfold gets at 1. cbv beta iota.
  rewrite Ha, Hm, Hs, Hf. cbn [negb orb andb].
  assert (Hnew : (let* arr := new_array [c] in ret (arr, true)) s
                 = Ret (VObj (length (st_heap s)), true)
                     (with_heap s (st_heap s ++ [singleton_array c])))
    by reflexivity.
  step Hnew.
  step (singleton_array_get c "length" (VNum 1) false s eq_refl).
  cbv beta iota. cbn [index_loop]. change (nat_key 0) with "0".
  unfold bind at 1.
  step (singleton_array_get c "0" c true s eq_refl).
  unfold bind.
  destruct (fn c (VNum 0) (VObj (length (st_heap s))) a
              (with_heap s (st_heap s ++ [singleton_array c])))
    as [[r a'] s2 | e s2 |]; try reflexivity.
  destruct (is_stop r); reflexivity.
Qed.

(** X6 (lines 71-74).  A truthy collection that is neither a string nor
    an object nor a function is wrapped: [each] makes the fresh array
    [[collection]] and calls [fn] once, with the value, the index 0 and
    that array; the result is the one value returned, or nothing when it
    is [Infinity]. *)
Theorem each_wraps_scalar fuel c l id s :
  is_scalar c = true ->
  each host fuel c (VFun l (CHost id)) s
  = match call_fn host fuel (VFun l (CHost id)) VUndef
            [c; VNum 0; VObj (length (st_heap s))] lib_caller
            (with_heap s (st_heap s ++ [singleton_array c])) with
    | Ret r s2 => Ret (Some (if is_stop r then [] else [r])) s2
    | Thr e s2 => Thr e s2
    | Div => Div
    end.
Proof.
  intros Hc.
  assert (Ht : truthy c = true) by (destruct c as [| |[|]| | | | |];
                                    try discriminate; auto).
  unfold each. rewrite Ht. cbn [truthy negb orb].
  unfold bind at 1. rewrite (each_with_scalar _ fuel c tt s Hc).
  unfold each_cb, bind.
  destruct (call_fn host fuel (VFun l (CHost id)) VUndef
              [c; VNum 0; VObj (length (st_heap s))] lib_caller
              (with_heap s (st_heap s ++ [singleton_array c])))
    as [r s2 | e s2 |]; try reflexivity.
Qed.
End EachVisits.

Lemma each_map_visits_keys_witness :
  let s := final statics_world in
  let o := each host_ex 3 (VObj 7) (VFun 12 (CHost 7)) s in
  exists evs,
    st_trace (final o) = st_trace s ++ evs
    /\ map ev_args evs
       = map (key_args (st_heap s) (VObj 7))
           (take (length evs) (forin_keys (st_heap s) (VObj 7)))
    /\ ran_or_stopped (length (forin_keys (st_heap s) (VObj 7))) evs
         [VStr "x"; VStr "y"; VStr "prototype"].
Proof.
  apply (each_map_visits_keys host_ex 3 (VObj 7) 12 7 sw
           [VStr "x"; VStr "y"; VStr "prototype"]
           (final (each host_ex 3 (VObj 7) (VFun 12 (CHost 7)) sw))).
  - left. reflexivity.
  - apply host_ex_keeps_any.
  - vm_compute. reflexivity.
Defined.

Lemma each_string_visits_characters_witness :
  let o := each host_ex 3 (VStr "ab") (VFun 12 (CHost 7)) init_state in
  exists evs,
    st_trace (final o) = st_trace init_state ++ evs
    /\ map ev_args evs = map (char_args "ab") (seq 0 (length evs))
    /\ ran_or_stopped 2 evs [VStr "a"; VStr "b"].
Proof.
  apply (each_string_visits_characters host_ex 3 "ab" 12 7 init_state
           [VStr "a"; VStr "b"]
           (final (each host_ex 3 (VStr "ab") (VFun 12 (CHost 7))
                     init_state))).
  vm_compute. reflexivity.
Defined.

Lemma each_wraps_scalar_witness :
  each host_ex 3 (VNum 5) (VFun 12 (CHost 7)) init_state
  = Ret (Some [VNum 5])
      (State (st_heap init_state ++ [singleton_array (VNum 5)]) []
         [Event (VFun 12 (CHost 7)) VUndef [VNum 5; VNum 0; VObj 7]
            (Some (VNum 5))]).
Proof.
  rewrite (each_wraps_scalar host_ex 3 (VNum 5) 12 7 init_state);
    reflexivity.
Defined.

(** ** [extend] onto an object that is not a class *)

Lemma put_same ps k v e : own ps k = Some (Prop_ v e) -> put ps k v = ps.
Proof.
  induction ps as [|[k0 p0] ps IH]; simpl; [discriminate|].
  destruct (String.eqb k k0).
  - intros H. inversion H; subst. reflexivity.
  - intros H. rewrite IH by exact H. reflexivity.
Qed.

Lemma write_same (h : heap) l k v :
  (exists e, own_at h l k = Some (Prop_ v e)) -> write h l k v = h.
Proof.
  intros [e He]. unfold own_at, write in *.
  destruct (h !! l) as [o|] eqn:Ho; [|reflexivity].
  rewrite (put_same _ _ _ _ He). destruct o as [pr ps]. simpl.
  apply list_insert_id. exact Ho.
Qed.

Lemma with_heap_same s : with_heap s (st_heap s) = s.
Proof. destruct s. reflexivity. Qed.

Lemma ok_bind_ret {A B} I E (a : A) (k : A -> M B) :
  ok I E (k a) -> ok I E (bind (ret a) k).
Proof. intros H s HI. exact (H s HI). Qed.

Lemma only_at_start d s : only_at (st_heap s) d s.
Proof. split; [lia | reflexivity]. Qed.

Section OnlyAt.
Variable hc : heap.
Variable d : loc.

Let Inv := only_at hc d.
Let W : loc -> string -> Prop := fun l _ => l = d.

Lemma only_at_write s l k x :
  Inv s -> W l k -> Inv (with_heap s (write (st_heap s) l k x)).
Proof.
  intros [Hlen Hfr] ->. split; simpl.
  - rewrite write_length. exact Hlen.
  - intros i Hi Hd. rewrite write_lookup_other by congruence.
    apply Hfr; assumption.
Qed.

Lemma only_at_alloc s objs :
  Inv s -> Inv (with_heap s (st_heap s ++ objs)).
Proof.
  intros [Hlen Hfr]. split; simpl.
  - rewrite length_app. lia.
  - intros i Hi Hd. rewrite lookup_app_l by lia. apply Hfr; assumption.
Qed.

Lemma ok_copier_only_at E ik oP key val coll u :
  E TypeError ->
  ok Inv E (copier ik (VObj d) oP false key val coll u).
Proof.
  intros HE. unfold copier.
  destruct (mem_key (to_key key) ik); [apply ok_ret|]. cbn [negb].
  apply ok_bind.
  { apply (ok_set Inv E W HE only_at_write). intros l Hl.
    unfold W. simpl in Hl. congruence. }
  intros _. apply ok_bind; intros; apply ok_ret.
Qed.

Lemma ok_extend_only_at E fuel :
  E TypeError ->
  forall subject oik, ok Inv E (extend fuel (VObj d) subject oik).
Proof.
  intros HE. induction fuel as [|n IH]; intros subject oik; cbn [extend].
  - apply ok_diverge.
  - apply ok_bind; [apply ok_gets | intros h].
    destruct (isArray h subject).
    + apply ok_bind; [|intros; apply ok_ret].
      apply ok_each_with; [exact HE | exact only_at_alloc |].
      intros a b c x. apply ok_bind; [apply IH | intros; apply ok_ret].
    + change (isClass (VObj d)) with (@ret bool false).
      apply ok_bind_ret.
      apply ok_bind; [apply ok_isClass; exact HE | intros isSub].
      apply ok_bind; [apply ok_get; exact HE | intros oP].
      apply ok_bind; [apply ok_gets | intros h'].
      apply ok_bind.
      { destruct (isMap h' subject); [|apply ok_ret].
        apply ok_bind; [|intros; apply ok_ret].
        apply ok_each_with; [exact HE | exact only_at_alloc |].
        intros. apply ok_copier_only_at. exact HE. }
      intros _. apply ok_bind.
      { destruct isSub; [|apply ok_ret].
        apply ok_bind; [apply ok_get; exact HE | intros sp].
        apply ok_bind; [|intros; apply ok_ret].
        apply ok_each_with; [exact HE | exact only_at_alloc |].
        intros. apply ok_copier_only_at. exact HE. }
      intros _. cbn [andb]. apply ok_ret.
Qed.

(** The source of a copy: the map at [a], whose lookups do not go
    through the destination. *)
Variable ik : list string.
Hypothesis d_alloc : d < length hc.
Variable a : loc.
Hypothesis a_alloc : a < length hc.
Hypothesis a_map : isMap hc (VObj a) = true.
Hypothesis a_avoids : ~ In d (proto_chain hc a).

Lemma src_agrees s :
  Inv s -> forall i, In i (proto_chain hc a) -> st_heap s !! i = hc !! i.
Proof.
  intros [_ Hfr] i Hi. apply Hfr.
  - apply chain_locs_le in Hi. lia.
  - intros ->. exact (a_avoids Hi).
Qed.

Lemma src_get s k :
  Inv s -> get (VObj a) k s = Ret (lookup_prop hc a k) s.
Proof.
  intros HI. simpl. unfold gets. f_equal.
  apply (agree_lookup_prop hc (st_heap s) a k (src_agrees s HI)).
Qed.

Lemma src_isMap s : Inv s -> isMap (st_heap s) (VObj a) = true.
Proof.
  intros HI. rewrite (agree_isMap hc (st_heap s) a (src_agrees s HI)).
  exact a_map.
Qed.

Lemma src_keys s :
  Inv s -> forin_keys (st_heap s) (VObj a) = forin_keys hc (VObj a).
Proof.
  intros HI. apply (agree_forin_keys hc (st_heap s) a (src_agrees s HI)).
Qed.

Lemma d_allocated s : Inv s -> d < length (st_heap s).
Proof. intros [Hlen _]. lia. Qed.

Lemma copier_plain oP key val coll s :
  copier ik (VObj d) oP false (VStr key) val coll tt s
  = Ret (VUndef, tt)
      (if mem_key key ik then s
       else with_heap s (write (st_heap s) d key val)).
Proof.
  unfold copier. cbn [to_key]. destruct (mem_key key ik); reflexivity.
Qed.

Lemma copy_loop oP keys :
  (forall k, In k keys -> In k (forin_keys hc (VObj a))) ->
  forall s acc,
  Inv s ->
  exists r s',
    key_loop (copier ik (VObj d) oP false) keys (VObj a) tt acc s
    = Ret (r, tt) s'
    /\ Inv s' /\ length (st_heap s') = length (st_heap s)
    /\ (forall k, In k keys -> mem_key k ik = false ->
                  holds d k (lookup_prop hc a k) s')
    /\ (forall k, ~ In k keys \/ mem_key k ik = true ->
                  own_at (st_heap s') d k = own_at (st_heap s) d k)
    /\ (forall k, holds d k (lookup_prop hc a k) s ->
                  holds d k (lookup_prop hc a k) s').
Proof.
  induction keys as [|key keys IH]; intros Hsub s acc HI.
  - exists acc, s. split; [reflexivity|]. split; [exact HI|].
    split; [reflexivity|]. split; [intros k []|]. split; auto.
  - rewrite key_loop_cons, (src_keys s HI).
    rewrite (proj2 (mem_key_In _ _) (Hsub key (or_introl eq_refl))).
    step (src_get s key HI).
    step (copier_plain oP key (lookup_prop hc a key) (VObj a) s).
    cbn [is_stop strict_eq].
    set (s1 := if mem_key key ik then s
               else with_heap s (write (st_heap s) d key
                                   (lookup_prop hc a key))).
    assert (HI1 : Inv s1).
    { unfold s1. destruct (mem_key key ik); [exact HI|].
      apply only_at_write; [exact HI | reflexivity]. }
    assert (Hlen1 : length (st_heap s1) = length (st_heap s)).
    { unfold s1. destruct (mem_key key ik); [reflexivity|].
      simpl. apply write_length. }
    assert (Hkey : mem_key key ik = false ->
                   holds d key (lookup_prop hc a key) s1).
    { intros Hk. unfold s1. rewrite Hk. unfold holds. simpl.
      apply own_at_write_same. apply d_allocated. exact HI. }
    assert (Hother : forall k, key <> k \/ mem_key k ik = true ->
                     own_at (st_heap s1) d k = own_at (st_heap s) d k).
    { intros k Hk. unfold s1.
      destruct (mem_key key ik) eqn:Hki; [reflexivity|]. simpl.
      destruct Hk as [Hk | Hk].
      - apply own_at_write_other_key. congruence.
      - apply own_at_write_other_key. intros ->. congruence. }
    assert (Hkeep : forall k, holds d k (lookup_prop hc a k) s ->
                              holds d k (lookup_prop hc a k) s1).
    { intros k Hh. unfold s1.
      destruct (mem_key key ik) eqn:Hki; [exact Hh|].
      destruct (string_dec key k) as [-> | Hne].
      - unfold holds. simpl. apply own_at_write_same.
        apply d_allocated. exact HI.
      - apply holds_write; assumption. }
    clearbody s1.
    destruct (IH (fun k Hk => Hsub k (or_intror Hk)) s1 (acc ++ [VUndef])
                HI1)
      as (r & s' & Hrun & HI' & Hlen & Hin & Hout & Hpres).
    exists r, s'. split; [exact Hrun|]. split; [exact HI'|].
    split; [lia|]. split; [|split].
    + intros k [-> | Hk] Hki.
      * apply Hpres. apply Hkey. exact Hki.
      * apply Hin; assumption.
    + intros k Hk. rewrite Hout.
      * apply Hother. destruct Hk as [Hk | Hk]; [left | right; exact Hk].
        intros ->. apply Hk. left. reflexivity.
      * destruct Hk as [Hk | Hk]; [left | right; exact Hk].
        intros Hin'. apply Hk. right. exact Hin'.
    + intros k Hh. apply Hpres. apply Hkeep. exact Hh.
Qed.

Lemma copy_loop_noop oP keys :
  (forall k, In k keys -> In k (forin_keys hc (VObj a))) ->
  forall s acc,
  Inv s ->
  (forall k, In k keys ->
             mem_key k ik = true \/ holds d k (lookup_prop hc a k) s) ->
  exists r,
    key_loop (copier ik (VObj d) oP false) keys (VObj a) tt acc s
    = Ret (r, tt) s.
Proof.
  induction keys as [|key keys IH]; intros Hsub s acc HI Hall.
  - exists acc. reflexivity.
  - rewrite key_loop_cons, (src_keys s HI).
    rewrite (proj2 (mem_key_In _ _) (Hsub key (or_introl eq_refl))).
    step (src_get s key HI).
    step (copier_plain oP key (lookup_prop hc a key) (VObj a) s).
    cbn [is_stop strict_eq].
    assert (Hs : (if mem_key key ik then s
                  else with_heap s (write (st_heap s) d key
                                      (lookup_prop hc a key))) = s).
    { destruct (mem_key key ik) eqn:Hk; [reflexivity|].
      destruct (Hall key (or_introl eq_refl)) as [Hi | Hh]; [congruence|].
      rewrite (write_same _ _ _ _ Hh). apply with_heap_same. }
    rewrite Hs.
    apply IH; [intros k Hk; apply Hsub; right; exact Hk | exact HI|].
    intros k Hk. apply Hall. right. exact Hk.
Qed.

Lemma extend_plain_steps n oik s :
  default default_ignored oik = ik ->
  Inv s ->
  extend (S n) (VObj d) (VObj a) oik s
  = (each_with (copier ik (VObj d) (lookup_prop (st_heap s) d "prototype")
                  false) n (VObj a) tt ;; ret tt) s.
Proof.
  intros Hik HI. cbn [extend]. rewrite Hik.
  unfold bind at 1. unfold gets at 1. cbv beta iota.
  rewrite (isMap_not_isArray _ _ (src_isMap s HI)).
  step (isClass_not_function (VObj d) s eq_refl).
  step (isClass_not_function (VObj a) s eq_refl).
  step (get_obj (VObj d) d "prototype" s eq_refl).
  unfold bind at 1. unfold gets at 1. cbv beta iota.
  rewrite (src_isMap s HI). cbn [andb].
  unfold bind at 1.
  destruct ((each_with (copier ik (VObj d)
                          (lookup_prop (st_heap s) d "prototype") false)
               n (VObj a) tt ;; ret tt) s) as [[] s'| |]; reflexivity.
Qed.

Lemma extend_copy n oik s :
  default default_ignored oik = ik ->
  Inv s ->
  exists s',
    extend (S n) (VObj d) (VObj a) oik s = Ret tt s'
    /\ Inv s' /\ length (st_heap s') = length (st_heap s)
    /\ (forall k, In k (forin_keys hc (VObj a)) -> mem_key k ik = false ->
                  holds d k (lookup_prop hc a k) s')
    /\ (forall k, ~ In k (forin_keys hc (VObj a)) \/ mem_key k ik = true ->
                  own_at (st_heap s') d k = own_at (st_heap s) d k)
    /\ (forall k, holds d k (lookup_prop hc a k) s ->
                  holds d k (lookup_prop hc a k) s').
Proof.
  intros Hik HI. rewrite (extend_plain_steps n oik s Hik HI).
  unfold bind at 1. rewrite (each_with_map _ _ _ _ _ (src_isMap s HI)).
  rewrite (src_keys s HI).
  destruct (copy_loop (lookup_prop (st_heap s) d "prototype")
              (forin_keys hc (VObj a)) (fun k Hk => Hk) s [] HI)
    as (r & s' & Hrun & Hrest).
  step Hrun. exists s'. split; [reflexivity | exact Hrest].
Qed.

Lemma extend_noop n oik s :
  default default_ignored oik = ik ->
  Inv s ->
  (forall k, In k (forin_keys hc (VObj a)) ->
             mem_key k ik = true \/ holds d k (lookup_prop hc a k) s) ->
  extend (S n) (VObj d) (VObj a) oik s = Ret tt s.
Proof.
  intros Hik HI Hall. rewrite (extend_plain_steps n oik s Hik HI).
  unfold bind at 1. rewrite (each_with_map _ _ _ _ _ (src_isMap s HI)).
  rewrite (src_keys s HI).
  destruct (copy_loop_noop (lookup_prop (st_heap s) d "prototype")
              (forin_keys hc (VObj a)) (fun k Hk => Hk) s [] HI Hall)
    as (r & Hrun).
  step Hrun. reflexivity.
Qed.
End OnlyAt.

(** X7 (lines 139-152).  Onto an object that is not a function, [extend]
    with a map copies every member [for-in] finds on the map, inherited
    ones included, except the ignored keys: the destination ends with the
    map's value as an own member.  Its other members, the ignored keys
    and every other object stay as they were, and the call returns. *)
Theorem extend_copies_members n d a oik s :
  d < length (st_heap s) -> a < length (st_heap s) ->
  isMap (st_heap s) (VObj a) = true ->
  ~ In d (proto_chain (st_heap s) a) ->
  exists s',
    extend (S n) (VObj d) (VObj a) oik s = Ret tt s'
    /\ (forall k, In k (forin_keys (st_heap s) (VObj a)) ->
                  mem_key k (default default_ignored oik) = false ->
                  holds d k (lookup_prop (st_heap s) a k) s')
    /\ (forall k, ~ In k (forin_keys (st_heap s) (VObj a))
                  \/ mem_key k (default default_ignored oik) = true ->
                  own_at (st_heap s') d k = own_at (st_heap s) d k)
    /\ (forall i, i < length (st_heap s) -> i <> d ->
                  st_heap s' !! i = st_heap s !! i)
    /\ length (st_heap s') = length (st_heap s).
Proof.
  intros Hd Ha Hmap Hav.
  destruct (extend_copy (st_heap s) d (default default_ignored oik) Hd a Ha
              Hmap Hav n oik s eq_refl (only_at_start d s))
    as (s' & Hrun & [_ Hfr] & Hlen & Hin & Hout & _).
  exists s'. auto.
Qed.

Lemma extend_copies_members_witness :
  exists s',
    extend 1 (VObj 8) (VObj 7) None cw = Ret tt s'
    /\ (forall k, In k (forin_keys (st_heap cw) (VObj 7)) ->
                  mem_key k default_ignored = false ->
                  holds 8 k (lookup_prop (st_heap cw) 7 k) s')
    /\ (forall k, ~ In k (forin_keys (st_heap cw) (VObj 7))
                  \/ mem_key k default_ignored = true ->
                  own_at (st_heap s') 8 k = own_at (st_heap cw) 8 k)
    /\ (forall i, i < length (st_heap cw) -> i <> 8 ->
                  st_heap s' !! i = st_heap cw !! i)
    /\ length (st_heap s') = length (st_heap cw).
Proof.
  apply (extend_copies_members 0 8 7 None cw).
  - vm_compute. lia.
  - vm_compute. lia.
  - reflexivity.
  - vm_compute. intros [H | [H | []]]; discriminate.
Defined.

(** X8 (lines 132-157).  When the destination is not a function,
    [extend] writes the destination only, whatever the subject is: every
    other object that existed, the subject and its prototypes among them,
    is left as it was. *)
Theorem extend_writes_destination_only fuel d subject oik s s' i :
  extend fuel (VObj d) subject oik s = Ret tt s' ->
  i < length (st_heap s) -> i <> d ->
  st_heap s' !! i = st_heap s !! i.
Proof.
  intros H Hi Hd.
  pose proof (ok_extend_only_at (st_heap s) d (fun _ => True) fuel Logic.I
                subject oik s (only_at_start d s)) as Hok.
  rewrite H in Hok. destruct Hok as [_ Hfr]. apply Hfr; assumption.
Qed.

Lemma extend_writes_destination_only_witness :
  st_heap (final (extend 3 (VObj 8) (VObj 7) None cw)) !! 7
  = st_heap cw !! 7.
Proof.
  apply (extend_writes_destination_only 3 8 (VObj 7) None cw
           (final (extend 3 (VObj 8) (VObj 7) None cw)) 7).
  - vm_compute. reflexivity.
  - vm_compute. lia.
  - discriminate.
Defined.

(** X9 (lines 139-152).  Copying the same map onto the same object a
    second time changes nothing: the second [extend] returns in the state
    the first one left. *)
Theorem extend_twice_is_once fuel d a oik s s1 :
  d < length (st_heap s) -> a < length (st_heap s) ->
  isMap (st_heap s) (VObj a) = true ->
  ~ In d (proto_chain (st_heap s) a) ->
  extend fuel (VObj d) (VObj a) oik s = Ret tt s1 ->
  extend fuel (VObj d) (VObj a) oik s1 = Ret tt s1.
Proof.
  intros Hd Ha Hmap Hav H. destruct fuel as [|n]; [discriminate|].
  destruct (extend_copy (st_heap s) d (default default_ignored oik) Hd a Ha
              Hmap Hav n oik s eq_refl (only_at_start d s))
    as (s' & Hrun & HI & Hlen & Hin & _).
  rewrite Hrun in H. inversion H; subst s'. clear H.
  apply (extend_noop (st_heap s) d (default default_ignored oik) Hd a Ha
           Hmap Hav n oik s1 eq_refl HI).
  intros k Hk.
  destruct (mem_key k (default default_ignored oik)) eqn:Hm;
    [left; reflexivity | right; apply Hin; assumption].
Qed.

Lemma extend_twice_is_once_witness :
  let s1 := final (extend 3 (VObj 8) (VObj 7) None cw) in
  extend 3 (VObj 8) (VObj 7) None s1 = Ret tt s1.
Proof.
  apply (extend_twice_is_once 3 8 7 None cw
           (final (extend 3 (VObj 8) (VObj 7) None cw))).
  - vm_compute. lia.
  - vm_compute. lia.
  - reflexivity.
  - vm_compute. intros [H | [H | []]]; discriminate.
  - vm_compute. reflexivity.
Defined.

(** ** [extend] with a list of subjects *)

Lemma extend_nonobject_any fuel object x oik s s' :
  loc_of x = None ->
  extend fuel object x oik s = Ret tt s' -> s' = s.
Proof.
  intros HS H. destruct fuel as [|n]; [discriminate|]. cbn [extend] in H.
  apply bind_Ret in H as (h & s0 & Hh & H). inversion Hh; subst h s0. clear Hh.
  assert (isArray (st_heap s) x = false) as Ha
      by (destruct x; try reflexivity; discriminate).
  assert (isMap (st_heap s) x = false) as Hm
      by (destruct x; try reflexivity; discriminate).
  assert (isFunction x = false) as Hf
      by (destruct x; try reflexivity; discriminate).
  rewrite Ha in H.
  apply bind_Ret in H as (iClass & s0 & HiC & H).
  apply isClass_state in HiC. subst s0.
  rewrite (bind_step _ _ _ _ _ (isClass_not_function x s Hf)) in H.
  apply bind_Ret in H as (oP & s0 & HoP & H).
  apply get_Ret in HoP. subst s0.
  apply bind_Ret in H as (h & s0 & Hh & H). inversion Hh; subst h s0. clear Hh.
  rewrite Hm, andb_false_r in H. inversion H. reflexivity.
Qed.

Section ListCopy.
Variable hc : heap.
Variable d : loc.
Variable oik : option (list string).
Hypothesis d_alloc : d < length hc.

(** The list of subjects at [ar], of length [n]. *)
Variable ar : loc.
Variable n : nat.
Hypothesis ar_alloc : ar < length hc.
Hypothesis ar_avoids : ~ In d (proto_chain hc ar).

(** Subject number [j] is the map at [a] and defines [k]; the later ones
    say nothing about [k]. *)
Variables j a : loc.
Variable k : string.
Hypothesis j_elem : lookup_prop hc ar (nat_key j) = VObj a.
Hypothesis a_alloc : a < length hc.
Hypothesis a_map : isMap hc (VObj a) = true.
Hypothesis a_avoids : ~ In d (proto_chain hc a).
Hypothesis k_found : In k (forin_keys hc (VObj a)).
Hypothesis k_copied : mem_key k (default default_ignored oik) = false.
Hypothesis later_silent : forall i,
  j < i -> i < n -> silent_about hc d k (lookup_prop hc ar (nat_key i)).

Let Inv := only_at hc d.
Let v := lookup_prop hc a k.

Lemma subject_step m i s r s2 :
  Inv s -> i < n -> (j < i -> holds d k v s) ->
  (extend m (VObj d) (lookup_prop hc ar (nat_key i)) oik ;;
   ret (VUndef, tt)) s = Ret r s2 ->
  r = (VUndef, tt) /\ Inv s2 /\ (j <= i -> holds d k v s2).
Proof.
  intros HI Hi Hbefore H.
  apply bind_Ret in H as ([] & s3 & Hext & H).
  inversion H; subst r s3. clear H. split; [reflexivity|].
  assert (HI2 : Inv s2).
  { pose proof (ok_extend_only_at hc d (fun _ => True) m Logic.I
                  (lookup_prop hc ar (nat_key i)) oik s HI) as Hok.
    rewrite Hext in Hok. exact Hok. }
  split; [exact HI2|]. intros Hji.
  destruct (Nat.eq_dec i j) as [-> | Hne].
  - rewrite j_elem in Hext. destruct m as [|m']; [discriminate|].
    destruct (extend_copy hc d (default default_ignored oik) d_alloc a
                a_alloc a_map a_avoids m' oik s eq_refl HI)
      as (s' & Hrun & _ & _ & Hin & _).
    rewrite Hrun in Hext. inversion Hext; subst s'.
    apply Hin; assumption.
  - assert (Hlt : j < i) by lia.
    destruct (later_silent i Hlt Hi) as [Hno | (b & Hb & Hbl & Hbm & Hba & Hbk)].
    + apply extend_nonobject_any in Hext; [|exact Hno]. subst s2.
      apply Hbefore. exact Hlt.
    + rewrite Hb in Hext, Hbm, Hbk. destruct m as [|m']; [discriminate|].
      destruct (extend_copy hc d (default default_ignored oik) d_alloc b
                  Hbl Hbm Hba m' oik s eq_refl HI)
        as (s' & Hrun & _ & _ & _ & Hout & _).
      rewrite Hrun in Hext. inversion Hext; subst s'.
      destruct (Hbefore Hlt) as [e He]. exists e.
      rewrite Hout; [exact He | left; exact Hbk].
Qed.

Lemma subjects_loop m cnt : forall i acc s r s',
  Inv s -> i + cnt = n -> (j < i -> holds d k v s) ->
  index_loop (fun sub _ _ (_ : unit) =>
                extend m (VObj d) sub oik ;; ret (VUndef, tt))
    cnt false i (VObj ar) tt acc s = Ret r s' ->
  Inv s' /\ (j < i + cnt -> holds d k v s').
Proof.
  induction cnt as [|cnt IH]; intros i acc s r s' HI Hn Hbefore H.
  - inversion H; subst. split; [exact HI|]. intros Hj.
    apply Hbefore. lia.
  - cbn [index_loop] in H.
    rewrite (bind_step _ _ _ _ _
               (src_get hc d d_alloc ar ar_alloc ar_avoids s (nat_key i) HI)) in H.
    apply bind_Ret in H as ([r0 u] & s2 & Hstep & H).
    destruct (subject_step m i s (r0, u) s2 HI ltac:(lia) Hbefore Hstep)
      as (Hr & HI2 & Hafter).
    inversion Hr; subst r0 u. cbn [is_stop strict_eq] in H.
    destruct (IH (S i) _ s2 r s' HI2 ltac:(lia)
                ltac:(intros; apply Hafter; lia) H) as [HI' Hh].
    split; [exact HI'|]. intros Hj. apply Hh. lia.
Qed.
End ListCopy.

(** X10 (lines 133-137).  With a list of subjects and a destination that
    is a plain object, not a function, and that no read on the list or on
    the subjects goes through, [extend] takes the subjects from left to
    right, so the last one that defines a key wins: when subject number
    [j] is a map on which [for-in] finds [k], a key that is not ignored,
    and the later subjects are maps without [k] or are not objects, the
    destination ends with the value of subject [j] under [k]. *)
Theorem extend_list_last_wins fuel d ar oik n j a k s s' :
  d < length (st_heap s) -> ar < length (st_heap s) ->
  isArray (st_heap s) (VObj ar) = true ->
  lookup_prop (st_heap s) ar "length" = VNum n ->
  ~ In d (proto_chain (st_heap s) ar) ->
  j < n ->
  lookup_prop (st_heap s) ar (nat_key j) = VObj a ->
  a < length (st_heap s) ->
  isMap (st_heap s) (VObj a) = true ->
  ~ In d (proto_chain (st_heap s) a) ->
  In k (forin_keys (st_heap s) (VObj a)) ->
  mem_key k (default default_ignored oik) = false ->
  (forall i, j < i -> i < n ->
             silent_about (st_heap s) d k
               (lookup_prop (st_heap s) ar (nat_key i))) ->
  extend fuel (VObj d) (VObj ar) oik s = Ret tt s' ->
  holds d k (lookup_prop (st_heap s) a k) s'.
Proof.
  intros Hd Har Harr Hlen Hav Hj Hja Ha Hmap Haa Hk Hki Hlater H.
  destruct fuel as [|m]; [discriminate|]. cbn [extend] in H.
  apply bind_Ret in H as (h & s0 & Hh & H). inversion Hh; subst h s0. clear Hh.
  rewrite Harr in H.
  apply bind_Ret in H as (res & s1 & Heach & H).
  inversion H; subst s1. clear H.
  unfold each_with in Heach. cbn [truthy negb] in Heach.
  apply bind_Ret in Heach as (h & s0 & Hh & Heach).
  inversion Hh; subst h s0. clear Hh.
  rewrite Harr in Heach. cbn [orb negb andb] in Heach.
  apply bind_Ret in Heach as ([c' ia] & s0 & Hc & Heach).
  inversion Hc; subst c' ia s0. clear Hc.
  rewrite (bind_step _ _ _ _ _ (get_obj (VObj ar) ar "length" s eq_refl))
    in Heach.
  rewrite Hlen in Heach.
  apply bind_Ret in Heach as ([rs u] & s2 & Hloop & Heach).
  inversion Heach; subst. clear Heach.
  destruct (subjects_loop (st_heap s) d oik Hd ar n Har Hav j a k Hja Ha
              Hmap Haa Hk Hki Hlater m n 0 [] s (rs, u) s'
              (only_at_start d s) eq_refl ltac:(lia) Hloop) as [_ Hh].
  apply Hh. lia.
Qed.

Lemma extend_list_last_wins_witness :
  holds 10 "x" (VNum 2) (final (extend 3 (VObj 10) (VObj 9) None lw)).
Proof.
  apply (extend_list_last_wins 3 10 9 None 2 1 8 "x" lw
           (final (extend 3 (VObj 10) (VObj 9) None lw))).
  - vm_compute. lia.
  - vm_compute. lia.
  - reflexivity.
  - reflexivity.
  - vm_compute. intros [H | [H | [H | []]]]; discriminate.
  - lia.
  - reflexivity.
  - vm_compute. lia.
  - reflexivity.
  - vm_compute. intros [H | [H | []]]; discriminate.
  - vm_compute. left. reflexivity.
  - reflexivity.
  - intros i H1 H2. lia.
  - vm_compute. reflexivity.
Defined.

(** ** Further properties of the ready plug-in *)

Lemma each_with_single {A}
    (fn : value -> value -> value -> A -> M (value * A)) fuel pl a s :
  isArray (st_heap s) (VObj pl) = true ->
  lookup_prop (st_heap s) pl "length" = VNum 1 ->
  each_with fn fuel (VObj pl) a s
  = match fn (lookup_prop (st_heap s) pl "0") (VNum 0) (VObj pl) a s with
    | Ret (r, a') s2 => Ret (Some (if is_stop r then [] else [r]), a') s2
    | Thr e s2 => Thr e s2
    | Div => Div
    end.
Proof.
  intros Harr Hlen. unfold each_with. cbn [truthy negb].
  unfold bind at 1. unfold gets at 1. cbv beta iota.
  rewrite Harr. cbn [orb negb andb].
  unfold bind at 1. unfold ret at 1. cbv beta iota.
  step (get_obj (VObj pl) pl "length" s eq_refl). rewrite Hlen.
  cbv beta iota. cbn [index_loop]. change (nat_key 0) with "0".
  unfold bind at 1.
  step (get_obj (VObj pl) pl "0" s eq_refl).
  unfold bind.
  destruct (fn (lookup_prop (st_heap s) pl "0") (VNum 0) (VObj pl) a s)
    as [[r a'] s2 | e s2 |]; try reflexivity.
  destruct (is_stop r); reflexivity.
Qed.

Section ReadyScan.
Variable host : nat -> value -> list value -> state -> outcome value.
Variable reg : list (value * value).
Variable pl : loc.
Variable P : value.
Variables clazz api : value.

Let Inv := single_parent reg pl P.

Hypothesis host_keeps : host_ok host Inv (fun _ => True).
Hypothesis reg_user : Forall (fun e => is_user_fn (snd e) = true) reg.

Lemma ready_inner_single fuel e0 e1 count s r s2 :
  Inv s -> is_user_fn e1 = true ->
  ready_inner host fuel clazz api (VObj pl) (VNum 1) (Some (e0, e1))
    P (VNum 0) (VObj pl) count s = Ret r s2 ->
  Inv s2
  /\ exists evs,
       st_trace s2 = st_trace s ++ evs
       /\ Forall2 (ready_call clazz api (VObj pl) P) evs
            (List.filter (fun e => strict_eq P (fst e)) [(e0, e1)]).
Proof.
  intros HI Hu H. unfold ready_inner, ready_inner_with in H.
  apply bind_Ret in H as ([] & s3 & Hcall & H).
  assert (s2 = s3) as ->.
  { destruct (count_ge count (VNum 1)); inversion H; reflexivity. }
  clear H. cbn [List.filter fst].
  destruct (strict_eq P e0).
  - apply bind_Ret in Hcall as (v & s4 & Hcall & H).
    inversion H; subst s4. clear H.
    destruct e1 as [| | | | | |l|l [id| | |]]; try discriminate.
    pose proof (call_host_trace _ _ _ _ _ _ _ _ _ _ Hcall) as Ht.
    split.
    + destruct fuel; simpl in Hcall; unfold logged, run_host in Hcall;
        pose proof (host_keeps id P [clazz; api; VObj pl] s HI) as Hk;
        destruct (host id P [clazz; api; VObj pl] s) as [r0 s0| |];
        try discriminate; inversion Hcall; subst; exact Hk.
    + eexists. split; [exact Ht|].
      constructor; [|constructor]. repeat split.
  - inversion Hcall; subst s3. split; [exact HI|].
    exists []. rewrite app_nil_r. split; [reflexivity | constructor].
Qed.

Lemma ready_scan_single fuel n : forall i count s c' s',
  Inv s -> i + n = length reg ->
  ready_scan host fuel n i clazz api (VObj pl) (VNum 1) count s
  = Ret c' s' ->
  Inv s'
  /\ exists evs,
       st_trace s' = st_trace s ++ evs
       /\ Forall2 (ready_call clazz api (VObj pl) P) evs
            (List.filter (fun e => strict_eq P (fst e)) (drop i reg)).
Proof.
  unfold ready_scan.
  induction n as [|n IH]; intros i count s c' s' HI Hn H.
  - inversion H; subst. split; [exact HI|]. exists [].
    rewrite app_nil_r. split; [reflexivity|].
    rewrite drop_ge by lia. constructor.
  - cbn [ready_scan_with] in H.
    change (ready_inner_with (fun g t a => call_fn host fuel g t a lib_caller))
      with (ready_inner host fuel) in H.
    apply bind_Ret in H as (entries & s0 & He & H).
    inversion He; subst entries s0. clear He.
    pose proof HI as (Hreg & Harr & Hlen & H0).
    rewrite Hreg in H.
    destruct (lookup_lt_is_Some_2 reg i ltac:(lia)) as [[e0 e1] Hi].
    rewrite Hi in H.
    apply bind_Ret in H as ([rs count'] & s2 & Hin & H).
    rewrite (each_with_single _ _ _ _ _ Harr Hlen) in Hin. rewrite H0 in Hin.
    destruct (ready_inner host fuel clazz api (VObj pl) (VNum 1)
                (Some (e0, e1)) P (VNum 0) (VObj pl) count s)
      as [[r a'] s3 | |] eqn:Hstep; try discriminate.
    inversion Hin; subst rs count' s3. clear Hin.
    assert (Hu : is_user_fn e1 = true).
    { apply (Forall_lookup_1 _ _ _ _ reg_user Hi). }
    destruct (ready_inner_single _ _ _ _ _ _ _ HI Hu Hstep)
      as (HI2 & evs1 & Ht1 & Hc1).
    destruct (IH (S i) a' s2 c' s' HI2 ltac:(lia) H)
      as (HI' & evs2 & Ht2 & Hc2).
    split; [exact HI'|]. exists (evs1 ++ evs2). split.
    + rewrite Ht2, Ht1, app_assoc. reflexivity.
    + rewrite (drop_S _ _ _ Hi).
      change ((e0, e1) :: drop (S i) reg)
        with ([(e0, e1)] ++ drop (S i) reg).
      rewrite List.filter_app. apply Forall2_app; assumption.
Qed.
End ReadyScan.

(** X11 (lines 198-205).  For a class with exactly one parent [P], the
    scan of the registry calls the callback of every entry registered for
    [P] and of no other entry, once each and in registry order, with [P]
    as receiver and the new class, the api and the parent list as
    arguments, as long as the callbacks are user functions that leave the
    registry and the parent list alone. *)
Theorem ready_scan_single_parent host fuel reg pl P clazz api s count s' :
  host_ok host (single_parent reg pl P) (fun _ => True) ->
  Forall (fun e => is_user_fn (snd e) = true) reg ->
  single_parent reg pl P s ->
  ready_scan host fuel (length reg) 0 clazz api (VObj pl) (VNum 1) 0 s
  = Ret count s' ->
  exists evs,
    st_trace s' = st_trace s ++ evs
    /\ Forall2 (ready_call clazz api (VObj pl) P) evs
         (List.filter (fun e => strict_eq P (fst e)) reg).
Proof.
  intros Hhost Hreg HI H.
  destruct (ready_scan_single host reg pl P clazz api Hhost Hreg fuel
              (length reg) 0 0 s count s' HI eq_refl H) as (_ & evs & Ht & Hc).
  exists evs. split; [exact Ht | exact Hc].
Qed.

Lemma host_ex_keeps_single reg pl P :
  host_ok host_ex (single_parent reg pl P) (fun _ => True).
Proof.
  intros id this args s H.
  destruct (host_ex_pure id this args s) as [r ->]. exact H.
Qed.

Lemma ready_scan_single_parent_witness :
  let o := ready_scan host_ex 3 1 0 (VFun 23 CEmpty) (VObj 15) (VObj 14)
             (VNum 1) 0 s1w in
  exists evs,
    st_trace (final o) = st_trace s1w ++ evs
    /\ Forall2 (ready_call (VFun 23 CEmpty) (VObj 15) (VObj 14)
                  (VFun 10 CEmpty)) evs
         (List.filter (fun e => strict_eq (VFun 10 CEmpty) (fst e))
            [(VFun 10 CEmpty, VFun 7 (CHost 1))]).
Proof.
  apply (ready_scan_single_parent host_ex 3
           [(VFun 10 CEmpty, VFun 7 (CHost 1))] 14 (VFun 10 CEmpty)
           (VFun 23 CEmpty) (VObj 15) s1w 1
           (final (ready_scan host_ex 3 1 0 (VFun 23 CEmpty) (VObj 15)
                     (VObj 14) (VNum 1) 0 s1w))).
  - apply host_ex_keeps_single.
  - constructor; [reflexivity | constructor].
  - repeat split.
  - vm_compute. reflexivity.
Defined.

Lemma call_user_ok host fuel (I : state -> Prop) E l id this args caller :
  host_ok host I E ->
  (forall s t, I s -> I (with_trace s t)) ->
  ok I E (call_fn host fuel (VFun l (CHost id)) this args caller).
Proof.
  intros Hh Ht s HI.
  destruct fuel; simpl; unfold logged, run_host;
    specialize (Hh id this args s HI);
    destruct (host id this args s) as [r0 s0|e s0|]; auto.
Qed.

Section RegistryKept.
Variable host : nat -> value -> list value -> state -> outcome value.
Variable fuel : nat.
Variable reg : list (value * value).
Variable r : value.

Let Inv := fun s0 : state => st_ready s0 = reg.

Hypothesis calls_keep : forall f this args,
  In f (r :: map snd reg) ->
  ok Inv (fun _ => True) (call_fn host fuel f this args lib_caller).

Lemma registry_alloc s objs :
  Inv s -> Inv (with_heap s (st_heap s ++ objs)).
Proof. intros H. exact H. Qed.

Lemma ready_inner_keeps clazz api parent len entry pa i c count :
  (forall e, entry = Some e -> In e reg) ->
  ok Inv (fun _ => True)
     (ready_inner host fuel clazz api parent len entry pa i c count).
Proof.
  intros Hin. unfold ready_inner, ready_inner_with.
  destruct entry as [[e0 e1]|]; [|apply ok_throw; exact Logic.I].
  apply ok_bind.
  - destruct (strict_eq pa e0); [|apply ok_ret].
    apply ok_bind; [|intros; apply ok_ret].
    apply calls_keep. right.
    apply (in_map snd reg (e0, e1)). apply Hin. reflexivity.
  - intros _. destruct (count_ge count len); apply ok_ret.
Qed.

Lemma ready_scan_keeps n : forall i clazz api parent len count,
  ok Inv (fun _ => True)
     (ready_scan host fuel n i clazz api parent len count).
Proof.
  unfold ready_scan.
  induction n as [|n IH]; intros i clazz api parent len count;
    cbn [ready_scan_with].
  - apply ok_ret.
  - intros s HI. unfold bind at 1. unfold gets at 1. cbv beta iota.
    pose proof HI as Hreg. unfold Inv in Hreg. rewrite Hreg.
    match goal with
    | |- match ?m s with _ => _ end =>
        assert (Hok : ok Inv (fun _ => True) m); [|exact (Hok s HI)]
    end.
    apply ok_bind.
    + apply ok_each_with; [exact Logic.I | exact registry_alloc |].
      intros a b c x.
      apply (ready_inner_keeps clazz api parent len (reg !! i) a b c x).
      intros e He.
      apply (Forall_lookup_1 (fun e => In e reg) reg i e);
        [apply List.Forall_forall; auto | exact He].
    + intros [rs count']. apply IH.
Qed.
End RegistryKept.

(** X12 (lines 194-210).  The plug-in never drops or reorders an entry of
    the registry: when the callbacks it calls, those of the registry and
    [$ready] of the api, leave the registry alone, it returns with the
    registry it found, followed by the new class and its [$ready] when
    that is a function, and by nothing otherwise. *)
Theorem plugin_appends_own_entry host fuel clazz parent api reg r s s' :
  (forall f this args,
     In f (r :: map snd reg) ->
     ok (fun s0 => st_ready s0 = reg) (fun _ => True)
        (call_fn host fuel f this args lib_caller)) ->
  st_ready s = reg ->
  get api "$ready" s = Ret r s ->
  plugin_ready host fuel clazz parent api s = Ret tt s' ->
  st_ready s' = reg ++ (if isFunction r then [(clazz, r)] else []).
Proof.
  intros Hcalls Hreg Hr H. unfold plugin_ready, plugin_ready_with in H.
  rewrite (bind_step _ _ _ _ _ Hr) in H.
  apply bind_Ret in H as (len & s0 & Hlen & H).
  assert (s0 = s) as ->.
  { destruct (truthy parent); [eapply get_Ret; exact Hlen|].
    inversion Hlen; reflexivity. }
  apply bind_Ret in H as (n & s0 & Hn & H).
  inversion Hn; subst n s0. clear Hn.
  apply bind_Ret in H as (count & s3 & Hscan & H).
  assert (H3 : st_ready s3 = reg).
  { pose proof (ready_scan_keeps host fuel reg r Hcalls
                  (length (st_ready s)) 0 clazz api parent len 0 s Hreg)
      as Hok.
    unfold ready_scan in Hok. rewrite Hscan in Hok. exact Hok. }
  destruct (isFunction r).
  - apply bind_Ret in H as (v & s4 & Hcall & H).
    inversion H; subst s'. simpl.
    pose proof (Hcalls r clazz [clazz; api; parent]
                  (or_introl eq_refl) s3 H3) as Hok.
    rewrite Hcall in Hok. rewrite Hok. reflexivity.
  - inversion H; subst s'. rewrite app_nil_r. exact H3.
Qed.

Lemma plugin_appends_own_entry_witness :
  st_ready (final (plugin_ready host_ex 3 (VFun 23 CEmpty) (VObj 14)
                     (VObj 9) s1w))
  = [(VFun 10 CEmpty, VFun 7 (CHost 1))]
    ++ [(VFun 23 CEmpty, VFun 7 (CHost 1))].
Proof.
  apply (plugin_appends_own_entry host_ex 3 (VFun 23 CEmpty) (VObj 14)
           (VObj 9) [(VFun 10 CEmpty, VFun 7 (CHost 1))]
           (VFun 7 (CHost 1)) s1w
           (final (plugin_ready host_ex 3 (VFun 23 CEmpty) (VObj 14)
                     (VObj 9) s1w))).
  - intros f this args [<- | [<- | []]];
      (apply call_user_ok; [apply host_ex_keeps_any | intros s t H; exact H]).
  - reflexivity.
  - reflexivity.
  - vm_compute. reflexivity.
Defined.

(** ** The dispatcher called from the constructor *)

(** X13 (lines 100-102, 121-125).  Called from the constructor of its
    class, the dispatcher looks at the first parent only: when that is a
    class [P], it binds [$super] of the receiver to the dispatcher of
    [P], runs [P] as a function on the original receiver and arguments,
    binds [$super] back and returns the result; the other parents are not
    consulted. *)
Theorem super_from_constructor host fuel self child parent this caller args
    s cp ctor P pp d :
  loc_of this <> None ->
  get child "prototype" s = Ret cp s ->
  get cp "constructor" s = Ret ctor s ->
  strict_eq caller ctor = true ->
  loc_of parent <> None ->
  parent_at s parent 0 = P ->
  isClass P s = Ret true s ->
  get P "prototype" s = Ret pp s ->
  get pp "$super" s = Ret d s ->
  dispatch host fuel self child parent this caller args s
  = (let* supez := get this "$super" in
     set this "$super" d ;;
     let* result := call_fn host fuel P this args self in
     set this "$super" supez ;;
     ret result) s.
Proof.
  intros Hthis Hcp Hctor Heq Hp HP Hcl Hpp Hd.
  destruct (loc_of this) as [tl|] eqn:Etl; [clear Hthis | congruence].
  unfold dispatch, super_body.
  step (get_obj this tl "$super" s Etl).
  step Hcp. step Hctor. rewrite Heq.
  assert (Ht : target_of_constructor parent this s
               = Ret P (with_heap s (write (st_heap s) tl "$super" d))).
  { unfold target_of_constructor. rewrite (truthy_loc _ Hp).
    pose proof (get_parent_at parent 0 s Hp) as H0.
    change (nat_key 0) with "0" in H0. rewrite HP in H0.
    step H0. step Hcl. unfold bind at 1.
    step Hpp. step Hd. rewrite (set_super this tl d s Etl).
    reflexivity. }
  step Ht. rewrite (isClass_true_function P s Hcl). symmetry.
  step (get_obj this tl "$super" s Etl).
  step (set_super this tl d s Etl).
  reflexivity.
Qed.

Lemma super_from_constructor_witness :
  dispatch host_ex 3 dw_super dw_C dw_parents dw_c dw_C [] dw
  = (let* supez := get dw_c "$super" in
     set dw_c "$super" (VFun 14 (CSuper (VFun 12 CEmpty) (VNum 0))) ;;
     let* result := call_fn host_ex 3 (VFun 12 CEmpty) dw_c [] dw_super in
     set dw_c "$super" supez ;;
     ret result) dw.
Proof.
  apply (super_from_constructor host_ex 3 dw_super dw_C dw_parents dw_c
           dw_C [] dw (VObj 24) dw_C (VFun 12 CEmpty) (VObj 13)
           (VFun 14 (CSuper (VFun 12 CEmpty) (VNum 0)))).
  - discriminate.
  - reflexivity.
  - reflexivity.
  - reflexivity.
  - discriminate.
  - reflexivity.
  - reflexivity.
  - reflexivity.
  - reflexivity.
Defined.

(** ** Further properties of [Class] *)

Section OkClass.
Variable host : nat -> value -> list value -> state -> outcome value.
Variable I : state -> Prop.
Variable E : exn -> Prop.
Variable W : loc -> string -> Prop.
Hypothesis E_type : E TypeError.
Hypothesis E_invalid : E (Thrown (VStr INVALID)).
Hypothesis I_write : forall s l k x,
  I s -> W l k -> I (with_heap s (write (st_heap s) l k x)).
Hypothesis I_alloc : forall s objs, I s -> I (with_heap s (st_heap s ++ objs)).
Hypothesis I_log : forall s ev, I s -> I (with_trace s (st_trace s ++ [ev])).
Hypothesis I_push : forall s e,
  I s -> I (State (st_heap s) (st_ready s ++ [e]) (st_trace s)).
Hypothesis I_host : host_ok host I E.
Hypothesis W_super : forall l, W l "$super".

Lemma ok_resolve fuel parent api : ok I E (resolve host fuel parent api).
Proof.
  unfold resolve.
  destruct (if truthy api then (parent, api) else (VNum 0, parent))
    as [parent0 api0].
  apply ok_bind.
  { destruct (truthy api0); [apply ok_ret | apply ok_new_object].
    exact I_alloc. }
  intros api1. apply ok_bind; [apply ok_gets | intros h].
  apply ok_bind.
  { destruct (truthy parent0 && negb (isArray h parent0));
      [apply ok_new_array; exact I_alloc | apply ok_ret]. }
  intros parent1. apply ok_bind; [|intros api2; apply ok_ret].
  destruct (isFunction api1); [|apply ok_ret].
  apply (ok_call_fn host I E W); auto.
Qed.

(** Every key that line 167 does not ignore may be written. *)
Hypothesis W_ignored : forall l k, mem_key k class_ignored = false -> W l k.

Lemma ok_Class fuel parent api : ok I E (Class host fuel parent api).
Proof.
  unfold Class. apply ok_bind; [apply ok_resolve | intros [parent' api']].
  apply ok_bind; [apply ok_gets | intros h].
  destruct (negb (isMap h api')); [apply ok_throw; exact E_invalid|].
  apply ok_construct; try assumption.
  intros s l k x HI [Hk | ->]; apply I_write; auto.
Qed.
End OkClass.

Lemma Class_assembles host fuel parent api s parent' api' s1 ik s2 clazz s' :
  resolve host fuel parent api s = Ret (parent', api') s1 ->
  class_ignored_keys fuel s1 = Ret ik s2 ->
  Class host fuel parent api s = Ret clazz s' ->
  exists ctor sing statics,
    assemble host fuel parent' api' ctor sing statics ik s2 = Ret clazz s'.
Proof.
  intros Hres Hik H. unfold Class in H.
  rewrite (bind_step _ _ _ _ _ Hres) in H.
  apply bind_Ret in H as (h & s0 & Hh & H). inversion Hh; subst h s0. clear Hh.
  destruct (negb (isMap (st_heap s1) api')); [discriminate|].
  unfold construct in H.
  apply bind_Ret in H as (h & s0 & Hh & H). inversion Hh; subst h s0. clear Hh.
  apply bind_Ret in H as (ctor & s0 & Hc & H).
  assert (s0 = s1) as ->.
  { destruct (has_own (st_heap s1) api' "constructor");
      [eapply get_Ret; exact Hc | inversion Hc; reflexivity]. }
  apply bind_Ret in H as (sing & s0 & Hs & H).
  apply get_Ret in Hs as Es. subst s0.
  apply bind_Ret in H as (statics & s0 & Hst & H).
  apply get_Ret in Hst as Es. subst s0.
  rewrite (bind_step _ _ _ _ _ Hik) in H.
  exists ctor, sing, statics. exact H.
Qed.

(** X14 (lines 167, 177, 182-187).  [Class] never assigns a key it
    ignores: [constructor], [$singleton], [$statics], [prototype] (line
    167) and the keys that line 177 reads from [Class.plugins] as the table
    is at the call, [$ready] with the table the library ships.  Every
    object that existed keeps what it had under such a key, unless the key
    is [$super], as long as the user functions called on the way keep
    it. *)
Theorem Class_keeps_reserved_keys host fuel parent api s parent' api' s1 ik
    s2 clazz s' i k :
  i < length (st_heap s) ->
  resolve host fuel parent api s = Ret (parent', api') s1 ->
  class_ignored_keys fuel s1 = Ret ik s2 ->
  mem_key k ik = true ->
  k <> "$super" ->
  host_ok host
    (fun s0 => i < length (st_heap s0)
               /\ own_at (st_heap s0) i k = own_at (st_heap s) i k)
    (fun _ => True) ->
  Class host fuel parent api s = Ret clazz s' ->
  own_at (st_heap s') i k = own_at (st_heap s) i k.
Proof.
  intros Hi Hres Hik Hk Hsup Hhost H.
  set (Inv := fun s0 : state =>
                i < length (st_heap s0)
                /\ own_at (st_heap s0) i k = own_at (st_heap s) i k) in *.
  assert (Hw : forall s0 l k' x,
             Inv s0 -> k' <> k ->
             Inv (with_heap s0 (write (st_heap s0) l k' x))).
  { intros s0 l k' x [Hl He] Hk'. split; simpl.
    - rewrite write_length. exact Hl.
    - rewrite own_at_write_other_key; [exact He | congruence]. }
  assert (Ha : forall s0 objs,
             Inv s0 -> Inv (with_heap s0 (st_heap s0 ++ objs))).
  { intros s0 objs [Hl He]. split; simpl.
    - rewrite length_app. lia.
    - unfold own_at in *. rewrite lookup_app_l by exact Hl. exact He. }
  assert (HI1 : Inv s1).
  { pose proof (ok_resolve host Inv (fun _ => True) (fun _ k' => k' <> k)
                  Logic.I Hw Ha
                  ltac:(intros s0 ev H0; exact H0)
                  ltac:(intros s0 e H0; exact H0) Hhost
                  (fun _ Heq => Hsup (eq_sym Heq))
                  fuel parent api s (conj Hi eq_refl)) as Hok.
    rewrite Hres in Hok. exact Hok. }
  assert (HI2 : Inv s2).
  { pose proof (okv_class_ignored_keys Inv (fun _ => True) Logic.I Ha fuel
                  s1 HI1) as Hok.
    rewrite Hik in Hok. apply Hok. }
  destruct (Class_assembles _ _ _ _ _ _ _ _ _ _ _ _ Hres Hik H)
    as (ctor & sing & statics & Hasm).
  pose proof (ok_assemble host Inv (fun _ => True) ik Logic.I
                ltac:(intros s0 l k' x H0 Hk'; apply Hw; [exact H0|];
                      intros ->; destruct Hk' as [Hk' | Hk'];
                      [rewrite Hk in Hk'; discriminate | contradiction])
                Ha
                ltac:(intros s0 ev H0; exact H0)
                ltac:(intros s0 e H0; exact H0) Hhost
                fuel parent' api' ctor sing statics s2 HI2) as Hok.
  rewrite Hasm in Hok. apply Hok.
Qed.

Lemma Class_keeps_reserved_keys_witness :
  own_at (st_heap (final iw_class)) 9 "constructor"
  = own_at (st_heap iw) 9 "constructor".
Proof.
  apply (Class_keeps_reserved_keys host_ex 3 iw_P (VObj 12) iw
           (VObj 13) (VObj 12)
           (final (resolve host_ex 3 iw_P (VObj 12) iw))
           (class_ignored ++ ["$ready"])
           (final (resolve host_ex 3 iw_P (VObj 12) iw))
           (VFun 14 CEmpty) (final iw_class) 9 "constructor").
  - vm_compute. lia.
  - reflexivity.
  - vm_compute. reflexivity.
  - reflexivity.
  - discriminate.
  - apply host_ex_keeps_any.
  - vm_compute. reflexivity.
Defined.

(** X15 (lines 173, 180, 50-52).  A class declared without a constructor
    of its own, and not as a singleton, is a fresh function with a fresh
    prototype, the two objects allocated after the ignored keys are
    collected, and [isClass] recognises it when [Class] returns, as long
    as the callbacks leave its [prototype] and the [constructor] of that
    prototype alone. *)
Theorem Class_without_constructor_is_class host fuel parent api s parent' a
    s1 ik sk clazz s' :
  resolve host fuel parent api s = Ret (parent', VObj a) s1 ->
  truthy (lookup_prop (st_heap s1) a "$singleton") = false ->
  has_own (st_heap s1) (VObj a) "constructor" = false ->
  class_ignored_keys fuel s1 = Ret ik sk ->
  host_ok host
    (fun s0 =>
       holds (length (st_heap sk)) "prototype"
         (VObj (S (length (st_heap sk)))) s0
       /\ holds (S (length (st_heap sk))) "constructor"
            (VFun (length (st_heap sk)) CEmpty) s0)
    (fun _ => True) ->
  Class host fuel parent api s = Ret clazz s' ->
  clazz = VFun (length (st_heap sk)) CEmpty
  /\ get clazz "prototype" s' = Ret (VObj (S (length (st_heap sk)))) s'
  /\ isClass clazz s' = Ret true s'.
Proof.
  intros Hres Hsing Hown Hik Hhost H.
  set (c := length (st_heap sk)) in *.
  set (Inv := fun s0 : state =>
                holds c "prototype" (VObj (S c)) s0
                /\ holds (S c) "constructor" (VFun c CEmpty) s0) in *.
  assert (Hmk : make_clazz host fuel (lookup_prop (st_heap s1) a "$singleton")
                  (declared_constructor (st_heap s1) a) sk
                = Ret (VFun c CEmpty)
                    (with_heap sk
                       (st_heap sk ++
                        [function_object (S c) 0 "";
                         prototype_object (VFun c CEmpty)]))).
  { unfold make_clazz, declared_constructor. rewrite Hsing, Hown.
    reflexivity. }
  destruct (Class_phases host fuel parent api s parent' a s1 ik sk _ _
              clazz s' Hres Hsing Hik Hmk H)
    as (-> & r & s2 & target & s3 & s4 & s5 & Hpar & Htar & Hapi & Hst
        & Hsup & Hplug).
  split; [reflexivity|].
  destruct (class_ignored_keys_prefix _ _ _ _ Hik) as [pkeys Epk].
  assert (Hw : forall s0 l k x,
             Inv s0 ->
             mem_key k ik = false \/ k = "$super" ->
             Inv (with_heap s0 (write (st_heap s0) l k x))).
  { intros s0 l k x [H1 H2] Hk. rewrite Epk in Hk.
    split; apply holds_write; try assumption;
      intros ->; destruct Hk as [Hk | Hk]; discriminate. }
  assert (Ha : forall s0 objs,
             Inv s0 -> Inv (with_heap s0 (st_heap s0 ++ objs))).
  { intros s0 objs [H1 H2]. split; apply holds_alloc; assumption. }
  assert (HIc : Inv (with_heap sk
                       (st_heap sk ++
                        [function_object (S c) 0 "";
                         prototype_object (VFun c CEmpty)]))).
  { split; exists false; unfold own_at; simpl.
    - rewrite lookup_app_r by (unfold c; lia).
      replace (c - length (st_heap sk)) with 0 by (unfold c; lia).
      reflexivity.
    - rewrite lookup_app_r by (unfold c; lia).
      replace (S c - length (st_heap sk)) with 1 by (unfold c; lia).
      reflexivity. }
  assert (HI2 : Inv s2).
  { pose proof (ok_parents Inv (fun _ => True) _ Logic.I Hw Ha fuel
                  (VFun c CEmpty) parent' _ HIc) as Hok.
    rewrite Hpar in Hok. exact Hok. }
  assert (HI3 : Inv s3).
  { pose proof (ok_extend Inv (fun _ => True) _ Logic.I Hw Ha fuel
                  target (VObj a) s2 HI2) as Hok.
    rewrite Hapi in Hok. exact Hok. }
  assert (HI4 : Inv s4).
  { pose proof (ok_extend Inv (fun _ => True) _ Logic.I Hw Ha fuel
                  (VFun c CEmpty) (lookup_prop (st_heap s1) a "$statics")
                  s3 HI3) as Hok.
    rewrite Hst in Hok. exact Hok. }
  assert (HI5 : Inv s5).
  { pose proof (ok_makeSuper Inv (fun _ => True)
                  (fun _ k => mem_key k ik = false \/ k = "$super")
                  Logic.I Hw Ha (fun _ => or_intror eq_refl)
                  (VFun c CEmpty) parent' s4 HI4) as Hok.
    rewrite Hsup in Hok. exact Hok. }
  assert (HI' : Inv s').
  { pose proof (ok_run_plugins host Inv (fun _ => True)
                  (fun _ k => mem_key k ik = false \/ k = "$super")
                  Logic.I Hw Ha
                  ltac:(intros s0 ev H0; exact H0)
                  ltac:(intros s0 e H0; exact H0)
                  (fun _ => or_intror eq_refl) Hhost fuel
                  (VFun c CEmpty) parent' (VObj a) s5 HI5) as Hok.
    rewrite Hplug in Hok. exact Hok. }
  destruct HI' as [Hp Hc].
  split.
  { rewrite (get_obj (VFun c CEmpty) c "prototype" s' eq_refl).
    rewrite (holds_lookup _ _ _ _ Hp). reflexivity. }
  unfold isClass. cbn [isFunction].
  step (get_obj (VFun c CEmpty) c "prototype" s' eq_refl).
  rewrite (holds_lookup _ _ _ _ Hp).
  step (get_obj (VObj (S c)) (S c) "constructor" s' eq_refl).
  rewrite (holds_lookup _ _ _ _ Hc).
  unfold ret. cbn [strict_eq]. rewrite Nat.eqb_refl. reflexivity.
Qed.

Lemma Class_without_constructor_is_class_witness :
  VFun 14 CEmpty
  = VFun (length (st_heap (final (resolve host_ex 3 iw_P (VObj 12) iw))))
      CEmpty
  /\ get (VFun 14 CEmpty) "prototype" (final iw_class)
     = Ret (VObj (S (length (st_heap (final (resolve host_ex 3 iw_P
                                                 (VObj 12) iw))))))
         (final iw_class)
  /\ isClass (VFun 14 CEmpty) (final iw_class) = Ret true (final iw_class).
Proof.
  apply (Class_without_constructor_is_class host_ex 3 iw_P (VObj 12) iw
           (VObj 13) 12 (final (resolve host_ex 3 iw_P (VObj 12) iw))
           (class_ignored ++ ["$ready"])
           (final (resolve host_ex 3 iw_P (VObj 12) iw))
           (VFun 14 CEmpty) (final iw_class)).
  - reflexivity.
  - reflexivity.
  - reflexivity.
  - vm_compute. reflexivity.
  - apply host_ex_keeps_any.
  - vm_compute. reflexivity.
Defined.

Lemma lookup_prop_alloc (h objs : heap) l k :
  l < length h -> lookup_prop (h ++ objs) l k = lookup_prop h l k.
Proof.
  intros Hl. apply agree_lookup_prop. intros i Hi.
  apply chain_locs_le in Hi. apply lookup_app_l. lia.
Qed.

Lemma isMap_alloc_false (h objs : heap) v :
  isMap h v = false -> isMap (h ++ objs) v = false.
Proof.
  destruct v as [| | | | | |l|]; try reflexivity. intros H.
  assert (Hl : l < length h).
  { destruct (h !! l) as [o|] eqn:Ho; [eapply lookup_lt_Some; exact Ho|].
    unfold isMap, lookup_prop in H. cbn [get_chain] in H.
    rewrite Ho in H. discriminate. }
  rewrite <- H. apply agree_isMap. intros i Hi.
  apply chain_locs_le in Hi. apply lookup_app_l. lia.
Qed.

(** X16 (lines 163-171).  A declaration whose api is given as a value
    that is neither a map nor a function is rejected before anything
    else happens: [Class] raises "Invalid params" having called no
    function, registered nothing and written no object that existed. *)
Theorem Class_rejects_without_effect host fuel parent api s :
  let given := if truthy api then api else parent in
  truthy given = true ->
  isFunction given = false ->
  isMap (st_heap s) given = false ->
  exists s',
    Class host fuel parent api s = Thr (Thrown (VStr INVALID)) s'
    /\ st_trace s' = st_trace s /\ st_ready s' = st_ready s
    /\ forall i, i < length (st_heap s) -> st_heap s' !! i = st_heap s !! i.
Proof.
  intros given Ht Hf Hm. subst given.
  assert (Hres : exists parent' s1,
             resolve host fuel parent api s
             = Ret (parent', if truthy api then api else parent) s1
             /\ st_trace s1 = st_trace s /\ st_ready s1 = st_ready s
             /\ (exists objs, st_heap s1 = st_heap s ++ objs)).
  { unfold resolve. destruct (truthy api) eqn:Hta.
    - rewrite Hta. unfold bind at 1. unfold ret at 1. cbv beta iota.
      unfold bind at 1. unfold gets at 1. cbv beta iota.
      destruct (truthy parent && negb (isArray (st_heap s) parent)).
      + assert (Hnew : new_array [parent] s
                       = Ret (VObj (length (st_heap s)))
                           (with_heap s (st_heap s
                                         ++ [singleton_array parent])))
          by reflexivity.
        step Hnew. rewrite Hf. eexists. eexists.
        split; [reflexivity|]. split; [reflexivity|].
        split; [reflexivity|]. eexists. reflexivity.
      + unfold bind at 1. unfold ret at 1. cbv beta iota. rewrite Hf.
        exists parent, s. split; [reflexivity|]. split; [reflexivity|].
        split; [reflexivity|]. exists []. rewrite app_nil_r. reflexivity.
    - rewrite Ht. unfold bind at 1. unfold ret at 1. cbv beta iota.
      unfold bind at 1. unfold gets at 1. cbv beta iota.
      cbn [truthy Nat.eqb negb andb].
      unfold bind at 1. unfold ret at 1. cbv beta iota. rewrite Hf.
      exists (VNum 0), s. split; [reflexivity|]. split; [reflexivity|].
      split; [reflexivity|]. exists []. rewrite app_nil_r. reflexivity. }
  destruct Hres as (parent' & s1 & Hres & Htr & Hrd & objs & Hh).
  exists s1. split; [|split; [exact Htr | split; [exact Hrd|]]].
  - unfold Class. step Hres.
    unfold bind at 1. unfold gets at 1. cbv beta iota.
    rewrite Hh, (isMap_alloc_false _ _ _ Hm). reflexivity.
  - intros i Hi. rewrite Hh. apply lookup_app_l. exact Hi.
Qed.

Lemma Class_rejects_without_effect_witness :
  exists s',
    Class host_ex 3 (VObj 7) (VStr "api") lw = Thr (Thrown (VStr INVALID)) s'
    /\ st_trace s' = st_trace lw /\ st_ready s' = st_ready lw
    /\ forall i, i < length (st_heap lw) -> st_heap s' !! i = st_heap lw !! i.
Proof.
  apply (Class_rejects_without_effect host_ex 3 (VObj 7) (VStr "api") lw);
    reflexivity.
Defined.

(** ** Singletons *)

Lemma extend_silent_keeps hc d k x m oik s s2 :
  d < length hc -> only_at hc d s -> silent_about hc d k x ->
  extend m (VObj d) x oik s = Ret tt s2 ->
  own_at (st_heap s2) d k = own_at (st_heap s) d k.
Proof.
  intros Hd HI [Hno | (b & -> & Hbl & Hbm & Hba & Hbk)] H.
  - apply extend_nonobject_any in H; [|exact Hno]. subst s2. reflexivity.
  - destruct m as [|m']; [discriminate|].
    destruct (extend_copy hc d (default default_ignored oik) Hd b
                Hbl Hbm Hba m' oik s eq_refl HI)
      as (s' & Hrun & _ & _ & _ & Hout & _).
    rewrite Hrun in H. inversion H; subst s'.
    apply Hout. left. exact Hbk.
Qed.

Lemma class_ignored_keys_grows fuel s ik s' :
  class_ignored_keys fuel s = Ret ik s' ->
  exists objs, st_heap s' = st_heap s ++ objs.
Proof.
  intros H.
  pose proof (okv_class_ignored_keys
                (fun s0 => exists objs, st_heap s0 = st_heap s ++ objs)
                (fun _ => True) Logic.I
                ltac:(intros s0 objs [o Ho]; exists (o ++ objs); simpl;
                      rewrite Ho, app_assoc; reflexivity)
                fuel s ltac:(exists []; rewrite app_nil_r; reflexivity))
    as Hok.
  rewrite H in Hok. apply Hok.
Qed.

Section Singleton.
Variable host : nat -> value -> list value -> state -> outcome value.

Lemma Class_singleton_phases fuel parent api s parent' a s1 ik sk clazz s' :
  resolve host fuel parent api s = Ret (parent', VObj a) s1 ->
  truthy (lookup_prop (st_heap s1) a "$singleton") = true ->
  class_ignored_keys fuel s1 = Ret ik sk ->
  Class host fuel parent api s = Ret clazz s' ->
  clazz = VObj (length (st_heap sk))
  /\ isMap (st_heap s1) (VObj a) = true
  /\ exists r s2 s3 s4,
       each_with (fun p _ _ (_ : unit) =>
                    extend fuel clazz p (Some ik) ;; ret (VUndef, tt))
         fuel parent' tt
         (with_heap sk (st_heap sk ++ [Obj (VObj ObjectPrototype) []]))
       = Ret r s2
       /\ extend fuel clazz (VObj a) (Some ik) s2 = Ret tt s3
       /\ extend fuel clazz (lookup_prop (st_heap s1) a "$statics")
            (Some ik) s3 = Ret tt s4
       /\ run_plugins host fuel clazz parent' (VObj a) s4 = Ret tt s'.
Proof.
  intros Hres Hsing Hik H. unfold Class in H.
  rewrite (bind_step _ _ _ _ _ Hres) in H.
  apply bind_Ret in H as (h & s0 & Hh & H). inversion Hh; subst h s0. clear Hh.
  destruct (isMap (st_heap s1) (VObj a)) eqn:Hmap; [|discriminate].
  cbn [negb] in H. unfold construct in H.
  apply bind_Ret in H as (h & s0 & Hh & H). inversion Hh; subst h s0. clear Hh.
  apply bind_Ret in H as (ctor & s0 & Hctor & H).
  assert (s0 = s1) as ->.
  { destruct (has_own (st_heap s1) (VObj a) "constructor");
      inversion Hctor; reflexivity. }
  rewrite (bind_step _ _ _ _ _ (get_obj (VObj a) a "$singleton" s1 eq_refl))
    in H.
  rewrite (bind_step _ _ _ _ _ (get_obj (VObj a) a "$statics" s1 eq_refl))
    in H.
  rewrite (bind_step _ _ _ _ _ Hik) in H.
  unfold assemble, make_clazz in H. rewrite Hsing in H.
  assert (Hnew : new_object sk
                 = Ret (VObj (length (st_heap sk)))
                     (with_heap sk (st_heap sk
                                    ++ [Obj (VObj ObjectPrototype) []])))
    by reflexivity.
  rewrite (bind_step _ _ _ _ _ Hnew) in H.
  apply bind_Ret in H as (u & s4 & Hcomp & H).
  apply bind_Ret in H as (u5 & s5 & Hsup & H).
  inversion Hsup; subst u5 s5. clear Hsup.
  apply bind_Ret in H as (u6 & s6 & Hplug & H).
  inversion H; subst clazz s6. clear H. destruct u, u6.
  split; [reflexivity|]. split; [reflexivity|].
  unfold compose in Hcomp.
  apply bind_Ret in Hcomp as (r & s2 & Hpar & Hcomp).
  apply bind_Ret in Hcomp as (target & s2' & Htar & Hcomp).
  inversion Htar; subst target s2'. clear Htar.
  apply bind_Ret in Hcomp as (u & s3 & Hext & Hcomp). destruct u.
  exists r, s2, s3, s4. auto.
Qed.

(** X17 (lines 177, 180, 182-184, 186).  A declaration with a truthy
    [$singleton] yields a fresh plain object, not a function, and the
    members of the api are copied onto that object itself: for every key
    [k] that [for-in] finds on the api and that is not ignored (the four
    keys of line 167 and the keys that line 177 reads from
    [Class.plugins] at the call), the object holds the api's value under
    [k] when [Class] returns, whatever the parents define, as long as [k]
    is not [$super], the statics say nothing about [k] and the functions
    called by line 187 leave the member alone. *)
Theorem Class_singleton_holds_api_members fuel parent api s parent' a s1
    ik sk clazz s' k :
  let d := length (st_heap sk) in
  let hc := st_heap sk ++ [Obj (VObj ObjectPrototype) []] in
  resolve host fuel parent api s = Ret (parent', VObj a) s1 ->
  truthy (lookup_prop (st_heap s1) a "$singleton") = true ->
  class_ignored_keys fuel s1 = Ret ik sk ->
  a < length (st_heap s1) ->
  In k (forin_keys hc (VObj a)) ->
  mem_key k ik = false ->
  k <> "$super" ->
  silent_about hc d k (lookup_prop (st_heap s1) a "$statics") ->
  host_ok host (holds d k (lookup_prop hc a k)) (fun _ => True) ->
  Class host fuel parent api s = Ret clazz s' ->
  clazz = VObj d /\ isFunction clazz = false
  /\ holds d k (lookup_prop hc a k) s'.
Proof.
  intros d hc Hres Hsing Hik Ha Hk Hki Hns Hsil Hhost H.
  destruct (Class_singleton_phases fuel parent api s parent' a s1 ik sk
              clazz s' Hres Hsing Hik H)
    as (-> & Hmap & r & s2 & s3 & s4 & Hpar & Hapi & Hst & Hplug).
  fold d in Hpar, Hapi, Hst, Hplug. fold hc in Hpar.
  split; [reflexivity|]. split; [reflexivity|].
  destruct (class_ignored_keys_grows _ _ _ _ Hik) as [objs Hobjs].
  assert (Hask : a < length (st_heap sk)).
  { rewrite Hobjs, length_app. lia. }
  assert (Hd : d < length hc) by (unfold hc, d; rewrite length_app; simpl; lia).
  assert (Hal : a < length hc) by (unfold hc; rewrite length_app; lia).
  assert (Hmc : isMap hc (VObj a) = true).
  { rewrite <- Hmap. apply agree_isMap. intros i Hi.
    apply chain_locs_le in Hi. unfold hc. rewrite Hobjs, <- app_assoc.
    apply lookup_app_l. lia. }
  assert (Hav : ~ In d (proto_chain hc a)).
  { intros Hi. apply chain_locs_le in Hi. unfold d in Hi. lia. }
  assert (HI2 : only_at hc d s2).
  { pose proof (ok_each_with (only_at hc d) (fun _ => True) Logic.I
                  (only_at_alloc hc d)
                  (fun p _ _ (_ : unit) =>
                     extend fuel (VObj d) p (Some ik) ;; ret (VUndef, tt))
                  ltac:(intros p0 b0 c0 x0; apply ok_bind;
                        [apply ok_extend_only_at; exact Logic.I
                        | intros; apply ok_ret])
                  fuel parent' tt (with_heap sk hc)
                  (only_at_start d (with_heap sk hc))) as Hok.
    rewrite Hpar in Hok. exact Hok. }
  destruct fuel as [|n]; [discriminate|].
  destruct (extend_copy hc d ik Hd a Hal Hmc Hav n (Some ik) s2 eq_refl HI2)
    as (s3' & Hrun & HI3 & _ & Hin & _).
  rewrite Hrun in Hapi. inversion Hapi; subst s3'. clear Hapi.
  assert (H3 : holds d k (lookup_prop hc a k) s3) by (apply Hin; assumption).
  assert (H4 : holds d k (lookup_prop hc a k) s4).
  { destruct H3 as [e He]. exists e.
    rewrite (extend_silent_keeps hc d k _ _ _ _ _ Hd HI3 Hsil Hst).
    exact He. }
  pose proof (ok_run_plugins host (holds d k (lookup_prop hc a k))
                (fun _ => True) (fun _ k' => k' <> k) Logic.I
                ltac:(intros s0 l k' x H0 Hne; apply holds_write; assumption)
                ltac:(intros s0 objs0 H0; apply holds_alloc; exact H0)
                ltac:(intros s0 ev H0; exact H0)
                ltac:(intros s0 e H0; exact H0)
                ltac:(intros l Heq; apply Hns; symmetry; exact Heq)
                Hhost (S n) (VObj d) parent' (VObj a) s4 H4) as Hok.
  rewrite Hplug in Hok. exact Hok.
Qed.
End Singleton.

Lemma Class_singleton_holds_api_members_witness :
  let s' := final (Class host_ex 3 (VObj 7) VUndef gw) in
  VObj 8 = VObj (length (st_heap gw))
  /\ isFunction (VObj 8) = false
  /\ holds (length (st_heap gw)) "x"
       (lookup_prop (st_heap gw ++ [Obj (VObj ObjectPrototype) []]) 7 "x")
       s'.
Proof.
  apply (Class_singleton_holds_api_members host_ex 3 (VObj 7) VUndef gw
           (VNum 0) 7 gw (class_ignored ++ ["$ready"]) gw (VObj 8)
           (final (Class host_ex 3 (VObj 7) VUndef gw)) "x").
  - reflexivity.
  - reflexivity.
  - vm_compute. reflexivity.
  - vm_compute. lia.
  - vm_compute. left. reflexivity.
  - reflexivity.
  - discriminate.
  - left. reflexivity.
  - apply host_ex_keeps_any.
  - vm_compute. reflexivity.
Defined.

(** ** [each] over an array *)

Section EachArray.
Variable host : nat -> value -> list value -> state -> outcome value.

Lemma index_loop_indices fuel l id h cl :
  host_ok host (members_kept h (VObj cl)) (fun _ => True) ->
  forall n i acc s rs u s',
    members_kept h (VObj cl) s ->
    index_loop (each_cb host fuel (VFun l (CHost id))) n false i (VObj cl)
      tt acc s = Ret (rs, u) s' ->
    exists evs rs',
      st_trace s' = st_trace s ++ evs /\ rs = acc ++ rs'
      /\ map ev_args evs
         = map (index_args h (VObj cl)) (seq i (length evs))
      /\ ran_or_stopped n evs rs'.
Proof.
  intros Hhost.
  induction n as [|n IH]; intros i acc s rs u s' HI H.
  - inversion H; subst. exists [], [].
    rewrite !app_nil_r.
    split; [reflexivity | split; [reflexivity | split]].
    + reflexivity.
    + left. split; reflexivity.
  - cbn [index_loop] in H.
    rewrite (bind_step _ _ _ _ _
               (members_kept_get h (VObj cl) cl (nat_key i) s eq_refl HI))
      in H.
    unfold each_cb at 1 in H.
    apply bind_Ret in H as ([r u0] & s2 & Hc & H).
    apply bind_Ret in Hc as (r0 & s3 & Hc & Hr).
    inversion Hr; subst r0 u0 s3. clear Hr.
    pose proof (call_host_trace _ _ _ _ _ _ _ _ _ _ Hc) as Ht.
    pose proof (call_host_members _ _ _ _ _ _ _ _ _ _ _ _ Hhost HI Hc)
      as HI2.
    destruct (is_stop r) eqn:Hs.
    + inversion H; subst. apply is_stop_inf in Hs. subst r.
      exists [Event (VFun l (CHost id)) VUndef (index_args h (VObj cl) i)
                (Some VInf)], [].
      rewrite app_nil_r.
      split; [exact Ht | split; [reflexivity | split]].
      * reflexivity.
      * right. split; [simpl; lia | reflexivity].
    + apply IH in H as (evs & rs' & Ht' & Hrs & Hargs & Hres);
        [|exact HI2].
      exists (Event (VFun l (CHost id)) VUndef (index_args h (VObj cl) i)
                (Some r) :: evs), (r :: rs').
      split; [|split; [|split]].
      * rewrite Ht', Ht, <- app_assoc. reflexivity.
      * rewrite Hrs, <- app_assoc. reflexivity.
      * simpl. rewrite Hargs. reflexivity.
      * apply ran_or_stopped_step; [reflexivity | exact Hres].
Qed.

(** X18 (lines 66, 76-81).  Over an array of length [n] whose members,
    own and inherited, the callback leaves as they are, [each] calls [fn]
    on the indices from 0 upwards, call number [j] with the element at
    [j], the index [j] and the array itself; it visits all [n] indices
    unless a call returns [Infinity]. *)
Theorem each_array_visits_indices fuel cl n l id s rs s' :
  isArray (st_heap s) (VObj cl) = true ->
  lookup_prop (st_heap s) cl "length" = VNum n ->
  host_ok host (members_kept (st_heap s) (VObj cl)) (fun _ => True) ->
  each host fuel (VObj cl) (VFun l (CHost id)) s = Ret (Some rs) s' ->
  exists evs,
    st_trace s' = st_trace s ++ evs
    /\ map ev_args evs
       = map (index_args (st_heap s) (VObj cl)) (seq 0 (length evs))
    /\ ran_or_stopped n evs rs.
Proof.
  intros Harr Hlen Hhost. unfold each. cbn [truthy negb orb].
  intros H. apply bind_Ret in H as ([r u] & s1 & He & H).
  inversion H; subst r s1. clear H. destruct u.
  unfold each_with in He. cbn [truthy negb] in He.
  apply bind_Ret in He as (h & s0 & Hh & He).
  inversion Hh; subst h s0. clear Hh.
  rewrite Harr in He. cbn [orb negb andb] in He.
  apply bind_Ret in He as ([c' ia] & s1 & Hc & He).
  inversion Hc; subst c' ia s1. clear Hc.
  rewrite (bind_step _ _ _ _ _ (get_obj (VObj cl) cl "length" s eq_refl))
    in He.
  rewrite Hlen in He.
  apply bind_Ret in He as ([rs0 a0] & s3 & Hloop & He).
  inversion He; subst. clear He.
  apply (index_loop_indices fuel l id (st_heap s) cl Hhost) in Hloop
    as (evs & rs' & Htr & Hrs & Ha & Hr);
    [|intros l0 i _ _; reflexivity].
  simpl in Hrs. subst rs'. exists evs. auto.
Qed.
End EachArray.

Lemma each_array_visits_indices_witness :
  let s := final each_world in
  let o := each host_ex 3 (VObj 7) (VFun 8 (CHost 7)) s in
  exists evs,
    st_trace (final o) = st_trace s ++ evs
    /\ map ev_args evs
       = map (index_args (st_heap s) (VObj 7)) (seq 0 (length evs))
    /\ ran_or_stopped 3 evs [VNum 1].
Proof.
  apply (each_array_visits_indices host_ex 3 7 3 8 7 (final each_world)
           [VNum 1]
           (final (each host_ex 3 (VObj 7) (VFun 8 (CHost 7))
                     (final each_world)))).
  - reflexivity.
  - reflexivity.
  - apply host_ex_keeps_any.
  - vm_compute. reflexivity.
Defined.

(** ** A member that is not a function under the method's name *)

(** X19 (lines 112-121).  The search through the parents stops at the
    first one, from the right, that has anything truthy under the
    caller's name.  When that member is not a function, the dispatcher
    calls nothing, returns [undefined] and leaves the state as it was:
    the parents listed before are not consulted, even if they define the
    method. *)
Theorem super_stops_at_non_function host fuel self child parent this caller
    args s cp ctor n j pa g :
  loc_of this <> None ->
  get child "prototype" s = Ret cp s ->
  isMap (st_heap s) cp = true ->
  get cp "constructor" s = Ret ctor s ->
  strict_eq caller ctor = false ->
  loc_of parent <> None ->
  get parent "length" s = Ret (VNum n) s ->
  j < n ->
  parent_scope (parent_at s parent j) s = Ret pa s ->
  get pa (to_key (method_name (st_heap s) cp caller)) s = Ret g s ->
  truthy g = true ->
  isFunction g = false ->
  (forall i, j < i -> i < n ->
     lacks s (parent_at s parent i)
       (to_key (method_name (st_heap s) cp caller))) ->
  dispatch host fuel self child parent this caller args s = Ret VUndef s.
Proof.
  intros Hthis Hcp Hmap Hctor Heq Hp Hlen Hj Hs Hg Ht Hnf Hall.
  destruct (loc_of this) as [tl|] eqn:Etl; [clear Hthis | congruence].
  unfold dispatch, super_body.
  step (get_obj this tl "$super" s Etl).
  step Hcp. step Hctor. rewrite Heq, (truthy_loc _ Hp).
  assert (Htar : target_of_method fuel child parent this caller s
                 = Ret g s).
  { unfold target_of_method. step Hcp.
    destruct (each_find_name caller fuel cp s Hmap) as [rs Hrs].
    step Hrs. step Hlen.
    step (search_parents_found parent (method_name (st_heap s) cp caller)
            s j g pa Hp Hs Hg Ht n VUndef VUndef Hj eq_refl Hall).
    rewrite Hnf. reflexivity. }
  step Htar. rewrite Hnf. reflexivity.
Qed.

Lemma super_stops_at_non_function_witness :
  dispatch host_ex 3 (VFun 25 (CSuper (VFun 23 CEmpty) (VObj 21)))
    (VFun 23 CEmpty) (VObj 21) (VObj 27) (VFun 9 (CHost 7)) [] hw
  = Ret VUndef hw.
Proof.
  apply (super_stops_at_non_function host_ex 3
           (VFun 25 (CSuper (VFun 23 CEmpty) (VObj 21)))
           (VFun 23 CEmpty) (VObj 21) (VObj 27) (VFun 9 (CHost 7)) [] hw
           (VObj 24) (VFun 23 CEmpty) 2 1 (VObj 18) (VNum 5)).
  - discriminate.
  - reflexivity.
  - reflexivity.
  - reflexivity.
  - reflexivity.
  - discriminate.
  - reflexivity.
  - lia.
  - reflexivity.
  - reflexivity.
  - reflexivity.
  - reflexivity.
  - intros i H1 H2. lia.
Defined.

(** ** Members inherited from a parent class *)

Section Inherit.
Variable host : nat -> value -> list value -> state -> outcome value.


End Inherit.


(** ** Termination of [each] *)

(** X21 (lines 60-89).  When the callback is a user function that
    returns, [each] returns a sequence for every truthy collection whose
    [length] is not [Infinity]: it neither throws nor loops. *)
Theorem each_returns_a_sequence host fuel c l id s :
  host_returns host ->
  truthy c = true ->
  (forall cl, c = VObj cl ->
              lookup_prop (st_heap s) cl "length" <> VInf) ->
  exists rs s', each host fuel c (VFun l (CHost id)) s = Ret (Some rs) s'.
Proof. intros Hh Hc Hfin. apply each_returns; assumption. Qed.

Lemma host_ex_always_returns : host_returns host_ex.
Proof.
  intros id this args s.
  destruct (host_ex_pure id this args s) as [r Hr]. eauto.
Qed.

Lemma each_returns_a_sequence_witness :
  exists rs s',
    each host_ex 0 (VObj 7) (VFun 8 (CHost 7)) (final each_world)
    = Ret (Some rs) s'.
Proof.
  apply (each_returns_a_sequence host_ex 0 (VObj 7) 8 7 (final each_world)).
  - apply host_ex_always_returns.
  - reflexivity.
  - intros cl Hcl. inversion Hcl; subst cl. vm_compute. discriminate.
Defined.
